(** * Signal / AsyncSignal: a shallow embedding of [src/index.ts]

    The TypeScript objects live in an arena: a binding ([SignalBindingImpl])
    is named by its index in [bindings], a [Signal] by its index in
    [signals], a promise by its index in [promises].  Object references are
    indices, [null] is [None], and a field assignment [o.f = v] rewrites
    slot [o] of the arena.  User callbacks are programs over the public API
    (type [Prog]); [dispatch] interprets them, so a handler can detach
    bindings, add new ones, or dispatch again while a dispatch is running. *)

From stdpp Require Import base option list numbers strings sorting.
From Stdlib Require Import ZArith Lia.

Local Open Scope nat_scope.

(** ** Data model *)

Abbreviation BId := nat (only parsing).   (* reference to a SignalBindingImpl *)
Abbreviation SId := nat (only parsing).   (* reference to a Signal *)
Abbreviation PId := nat (only parsing).   (* reference to a Promise *)
Abbreviation FnId := nat (only parsing).  (* identity of a handler function *)

(** JavaScript values that travel through [dispatch]: the arguments, the
    [thisArg], thrown values.  [VResolver p] is the [resolve] function that
    [new Promise] hands to its executor for promise [p]. *)
Inductive Val : Type :=
| VUndef
| VNull
| VNum (z : Z)
| VStr (s : string)
| VResolver (p : PId).

(** class SignalBindingImpl: fn, once, thisArg are readonly; next, prev and
    owner start as null. *)
Record SignalBindingImpl : Type := mkBinding {
  fn : FnId;
  once : bool;
  thisArg : Val;
  next : option BId;
  prev : option BId;
  owner : option SId
}.

(** class Signal: _head, _tail, enabled. AsyncSignal adds no field. *)
Record Signal : Type := mkSignal {
  _head : option BId;
  _tail : option BId;
  enabled : bool
}.

Inductive PromiseState : Type :=
| Pending
| Fulfilled
| Rejected (e : Val).

Record Heap : Type := mkHeap {
  bindings : list SignalBindingImpl;
  signals : list Signal;
  promises : list PromiseState;
  user : list Val   (* variables captured by the user's closures *)
}.

Definition empty_heap : Heap := mkHeap [] [] [] [].

(** What the instrumented run records: every call of a handler, with the
    heap as it is at the moment of the call, and every call of a promise's
    resolve function, with whether that call settled the promise. *)
Inductive Event : Type :=
| EvCall (b : BId) (this : Val) (args : list Val) (at_call : Heap)
| EvResolve (p : PId) (settled : bool).

Record State : Type := mkState {
  heap : Heap;
  trace : list Event
}.

Definition init_state : State := mkState empty_heap [].

(** ** Field reads *)

Definition next_of (h : Heap) (n : BId) : option BId :=
  b ← bindings h !! n; next b.
Definition prev_of (h : Heap) (n : BId) : option BId :=
  b ← bindings h !! n; prev b.
Definition owner_of (h : Heap) (n : BId) : option SId :=
  b ← bindings h !! n; owner b.
Definition once_of (h : Heap) (n : BId) : bool :=
  default false (once <$> bindings h !! n).
Definition fn_of (h : Heap) (n : BId) : FnId :=
  default 0 (fn <$> bindings h !! n).
Definition this_of (h : Heap) (n : BId) : Val :=
  default VUndef (thisArg <$> bindings h !! n).

Definition head_of (h : Heap) (s : SId) : option BId :=
  sg ← signals h !! s; _head sg.
Definition tail_of (h : Heap) (s : SId) : option BId :=
  sg ← signals h !! s; _tail sg.
Definition enabled_of (h : Heap) (s : SId) : bool :=
  default false (enabled <$> signals h !! s).

(** ** Field writes *)

Definition with_next (v : option BId) (b : SignalBindingImpl) :=
  mkBinding (fn b) (once b) (thisArg b) v (prev b) (owner b).
Definition with_prev (v : option BId) (b : SignalBindingImpl) :=
  mkBinding (fn b) (once b) (thisArg b) (next b) v (owner b).
Definition with_owner (v : option SId) (b : SignalBindingImpl) :=
  mkBinding (fn b) (once b) (thisArg b) (next b) (prev b) v.

Definition with_head (v : option BId) (sg : Signal) :=
  mkSignal v (_tail sg) (enabled sg).
Definition with_tail (v : option BId) (sg : Signal) :=
  mkSignal (_head sg) v (enabled sg).
Definition with_enabled (v : bool) (sg : Signal) :=
  mkSignal (_head sg) (_tail sg) v.

Definition upd_binding (f : SignalBindingImpl → SignalBindingImpl)
    (n : BId) (h : Heap) : Heap :=
  mkHeap (alter f n (bindings h)) (signals h) (promises h) (user h).
Definition upd_signal (f : Signal → Signal) (s : SId) (h : Heap) : Heap :=
  mkHeap (bindings h) (alter f s (signals h)) (promises h) (user h).

Definition set_next (n : BId) (v : option BId) := upd_binding (with_next v) n.
Definition set_prev (n : BId) (v : option BId) := upd_binding (with_prev v) n.
Definition set_owner (n : BId) (v : option SId) := upd_binding (with_owner v) n.
Definition set_head (s : SId) (v : option BId) := upd_signal (with_head v) s.
Definition set_tail (s : SId) (v : option BId) := upd_signal (with_tail v) s.
Definition set_enabled (s : SId) (v : bool) := upd_signal (with_enabled v) s.

(** ** Allocation *)

(** new SignalBindingImpl(fn, once, thisArg) *)
Definition new_binding (f : FnId) (o : bool) (this : Val) (h : Heap)
    : BId * Heap :=
  (length (bindings h),
   mkHeap (bindings h ++ [mkBinding f o this None None None])
          (signals h) (promises h) (user h)).

(** new Signal() and new AsyncSignal() *)
Definition new_signal (h : Heap) : SId * Heap :=
  (length (signals h),
   mkHeap (bindings h) (signals h ++ [mkSignal None None true])
          (promises h) (user h)).

(** new Promise(...): the promise is pending when the executor starts. *)
Definition new_promise (h : Heap) : PId * Heap :=
  (length (promises h),
   mkHeap (bindings h) (signals h) (promises h ++ [Pending]) (user h)).

Definition set_user (u : list Val) (h : Heap) : Heap :=
  mkHeap (bindings h) (signals h) (promises h) u.

(** ** Signal: the operations that need no callback *)

(** handlers(): the loop [while (node) { push(node); node = node.next }].
    On a cyclic chain the loop never ends; a chain without a cycle has at
    most [length (bindings h)] nodes, so with one step more than that
    [None] means exactly that the loop does not end. *)
Fixpoint handlers_loop (fuel : nat) (h : Heap) (node : option BId)
    : option (list BId) :=
  match node with
  | None => Some []
  | Some n =>
      match fuel with
      | 0 => None
      | S fuel' => cons n <$> handlers_loop fuel' h (next_of h n)
      end
  end.

Definition handlers (s : SId) (h : Heap) : option (list BId) :=
  handlers_loop (S (length (bindings h))) h (head_of h s).

(** hasAny(): [!!this._head] *)
Definition hasAny (s : SId) (h : Heap) : bool :=
  bool_decide (head_of h s ≠ None).

(** has(node): [node.owner === this] *)
Definition has (s : SId) (node : BId) (h : Heap) : bool :=
  bool_decide (owner_of h node = Some s).

(** detach(node), statement by statement; every read is made on the heap
    as the statements before it left it. *)
Definition detach (s : SId) (node : BId) (h : Heap) : Heap :=
  if bool_decide (owner_of h node = Some s) then
    (* if (node.prev) node.prev.next = node.next; *)
    let h1 := match prev_of h node with
              | Some p => set_next p (next_of h node) h
              | None => h
              end in
    (* if (node.next) node.next.prev = node.prev; *)
    let h2 := match next_of h1 node with
              | Some nx => set_prev nx (prev_of h1 node) h1
              | None => h1
              end in
    let h3 :=
      if bool_decide (head_of h2 s = Some node) then
        (* this._head = node.next; if (node.next === null) this._tail = null; *)
        let h' := set_head s (next_of h2 node) h2 in
        match next_of h' node with
        | None => set_tail s None h'
        | Some _ => h'
        end
      else if bool_decide (tail_of h2 s = Some node) then
        (* this._tail = node.prev; if (this._tail) this._tail.next = null; *)
        let h' := set_tail s (prev_of h2 node) h2 in
        match tail_of h' s with
        | Some t => set_next t None h'
        | None => h'
        end
      else h2 in
    (* node.owner = null; *)
    set_owner node None h3
  else h.

(** SignalBindingImpl.detach() *)
Definition binding_detach (node : BId) (h : Heap) : bool * Heap :=
  match owner_of h node with
  | None => (false, h)
  | Some o => (true, detach o node h)
  end.

(** detachAll(): the loop [while (node) { node.owner = null; node = node.next }] *)
Fixpoint detachAll_loop (fuel : nat) (node : option BId) (h : Heap)
    : option Heap :=
  match node with
  | None => Some h
  | Some n =>
      match fuel with
      | 0 => None
      | S fuel' =>
          let h' := set_owner n None h in
          detachAll_loop fuel' (next_of h' n) h'
      end
  end.

Definition detachAll (s : SId) (h : Heap) : option Heap :=
  match head_of h s with
  | None => Some h
  | Some n =>
      let h1 := set_tail s None (set_head s None h) in
      detachAll_loop (S (length (bindings h))) (Some n) h1
  end.

(** _addSignalBinding(node) *)
Definition _addSignalBinding (s : SId) (node : BId) (h : Heap) : Heap :=
  let h1 :=
    match head_of h s with
    | None => set_tail s (Some node) (set_head s (Some node) h)
    | Some _ =>
        let h' := match tail_of h s with
                  | Some t => set_next t (Some node) h
                  | None => h
                  end in
        let h'' := set_prev node (tail_of h' s) h' in
        set_tail s (Some node) h''
    end in
  set_owner node (Some s) h1.

(** The default parameter [thisArg: any = null] of add and once: the
    default is taken when the argument is left out and also when it is
    given as undefined, so the binding never stores undefined. *)
Definition or_null (v : Val) : Val :=
  match v with
  | VUndef => VNull
  | _ => v
  end.

(** add(fn, thisArg = null) and once(fn, thisArg = null); AsyncSignal.add
    is add.  The method once is [once_] here: [once] is the binding's
    field.  A caller that leaves [thisArg] out passes [VUndef]. *)
Definition add (s : SId) (f : FnId) (this : Val) (h : Heap) : BId * Heap :=
  let '(node, h0) := new_binding f false (or_null this) h in
  (node, _addSignalBinding s node h0).

Definition once_ (s : SId) (f : FnId) (this : Val) (h : Heap) : BId * Heap :=
  let '(node, h0) := new_binding f true (or_null this) h in
  (node, _addSignalBinding s node h0).

(** ** Promises *)

(** Calling the resolve function of promise [p]: it settles the promise if
    it is still pending, and does nothing otherwise. *)
Definition resolve (p : PId) (st : State) : State :=
  match promises (heap st) !! p with
  | Some Pending =>
      mkState (mkHeap (bindings (heap st)) (signals (heap st))
                      (<[p := Fulfilled]> (promises (heap st)))
                      (user (heap st)))
              (trace st ++ [EvResolve p true])
  | _ => mkState (heap st) (trace st ++ [EvResolve p false])
  end.

(** What [new Promise] does when its executor throws [e]. *)
Definition reject (p : PId) (e : Val) (h : Heap) : Heap :=
  match promises h !! p with
  | Some Pending =>
      mkHeap (bindings h) (signals h) (<[p := Rejected e]> (promises h))
             (user h)
  | _ => h
  end.

(** The promise an async function returns: already fulfilled when the body
    returned without awaiting, otherwise settled as the awaited promise. *)
Inductive AsyncResult : Type :=
| Returned
| Awaits (p : PId).

Definition awaited (h : Heap) (r : AsyncResult) : PromiseState :=
  match r with
  | Returned => Fulfilled
  | Awaits p => default Pending (promises h !! p)
  end.

(** ** User code *)

(** The calls a user's code can make. *)
Inductive Op : Type :=
| OpNewSignal
| OpAdd (s : SId) (f : FnId) (this : Val)
| OpOnce (s : SId) (f : FnId) (this : Val)
| OpDetach (s : SId) (b : BId)
| OpBindingDetach (b : BId)
| OpDetachAll (s : SId)
| OpDispatch (s : SId) (args : list Val)
| OpAsyncDispatch (s : SId) (args : list Val)
| OpSetEnabled (s : SId) (v : bool)
| OpGetEnabled (s : SId)
| OpHandlers (s : SId)
| OpHasAny (s : SId)
| OpHas (s : SId) (b : BId)
| OpCall (v : Val)
| OpGetUser
| OpSetUser (u : list Val).

Inductive Ans : Type :=
| AUnit
| ABool (b : bool)
| ARef (n : nat)
| ARefs (l : list nat)
| AVals (l : list Val)
| APromise (r : AsyncResult).

(** The signal a call is made on. *)
Definition op_signal (op : Op) : option SId :=
  match op with
  | OpAdd s _ _ | OpOnce s _ _ | OpDetach s _ | OpDetachAll s
  | OpDispatch s _ | OpAsyncDispatch s _ | OpSetEnabled s _
  | OpGetEnabled s | OpHandlers s | OpHasAny s | OpHas s _ => Some s
  | _ => None
  end.

Definition op_ok (h : Heap) (op : Op) : bool :=
  match op_signal op with
  | Some s => bool_decide (s < length (signals h))
  | None => true
  end.

(** A piece of user code: it returns, throws, or makes a call and goes on
    with the answer. *)
Inductive Prog : Type :=
| Ret
| Throw (e : Val)
| Do (op : Op) (k : Ans → Prog).

(** The functions bound as handlers: [fn.call(thisArg, ...args)]. *)
Definition Handlers := FnId → Val → list Val → Prog.

Inductive Completion : Type :=
| Normal
| Thrown (e : Val).

(** A run that does not end within its fuel is [None]. *)
Definition Result := option (Completion * State).

Definition TypeError : Val := VStr "TypeError".

(** The switch on [arguments.length] in dispatch: five special cases and
    [apply] for the rest. [args[i]] past the end is undefined. *)
Definition arg (args : list Val) (i : nat) : Val := nth i args VUndef.

Definition call_args (args : list Val) : list Val :=
  match length args with
  | 0 => []
  | 1 => [arg args 0]
  | 2 => [arg args 0; arg args 1]
  | 3 => [arg args 0; arg args 1; arg args 2]
  | 4 => [arg args 0; arg args 1; arg args 2; arg args 3]
  | 5 => [arg args 0; arg args 1; arg args 2; arg args 3; arg args 4]
  | _ => args
  end.

Definition log (e : Event) (st : State) : State :=
  mkState (heap st) (trace st ++ [e]).

Definition on_heap (f : Heap → Heap) (st : State) : State :=
  mkState (f (heap st)) (trace st).

Section Run.

Variable env : Handlers.

(** AsyncSignal.dispatch, given the dispatch of the base class. *)
Definition async_dispatch_with
    (base : SId → list Val → State → Result)
    (s : SId) (args : list Val) (st : State)
    : option (AsyncResult * State) :=
  if enabled_of (heap st) s then
    let '(p, h0) := new_promise (heap st) in
    match base s (VResolver p :: args) (mkState h0 (trace st)) with
    | None => None
    | Some (Normal, st') => Some (Awaits p, st')
    | Some (Thrown e, st') => Some (Awaits p, on_heap (reject p e) st')
    end
  else Some (Returned, st).

(** One call of the API. [base] is Signal.dispatch.  A call on a signal
    that was never created is not a call a TypeScript program can make; it
    has no result. *)
Definition exec_op (base : SId → list Val → State → Result)
    (op : Op) (st : State) : option ((Ans + Val) * State) :=
  let h := heap st in
  if negb (op_ok h op) then None else
  match op with
  | OpNewSignal =>
      let '(s, h') := new_signal h in Some (inl (ARef s), mkState h' (trace st))
  | OpAdd s f this =>
      let '(b, h') := add s f this h in Some (inl (ARef b), mkState h' (trace st))
  | OpOnce s f this =>
      let '(b, h') := once_ s f this h in Some (inl (ARef b), mkState h' (trace st))
  | OpDetach s b => Some (inl AUnit, on_heap (detach s b) st)
  | OpBindingDetach b =>
      let '(r, h') := binding_detach b h in Some (inl (ABool r), mkState h' (trace st))
  | OpDetachAll s =>
      h' ← detachAll s h; Some (inl AUnit, mkState h' (trace st))
  | OpDispatch s args =>
      match base s args st with
      | None => None
      | Some (Normal, st') => Some (inl AUnit, st')
      | Some (Thrown e, st') => Some (inr e, st')
      end
  | OpAsyncDispatch s args =>
      '(r, st') ← async_dispatch_with base s args st; Some (inl (APromise r), st')
  | OpSetEnabled s v => Some (inl AUnit, on_heap (set_enabled s v) st)
  | OpGetEnabled s => Some (inl (ABool (enabled_of h s)), st)
  | OpHandlers s => l ← handlers s h; Some (inl (ARefs l), st)
  | OpHasAny s => Some (inl (ABool (hasAny s h)), st)
  | OpHas s b => Some (inl (ABool (has s b h)), st)
  | OpCall (VResolver p) => Some (inl AUnit, resolve p st)
  | OpCall _ => Some (inr TypeError, st)
  | OpGetUser => Some (inl (AVals (user h)), st)
  | OpSetUser u => Some (inl AUnit, on_heap (set_user u) st)
  end.

Fixpoint run (base : SId → list Val → State → Result)
    (p : Prog) (st : State) : Result :=
  match p with
  | Ret => Some (Normal, st)
  | Throw e => Some (Thrown e, st)
  | Do op k =>
      match exec_op base op st with
      | None => None
      | Some (inl a, st') => run base (k a) st'
      | Some (inr e, st') => Some (Thrown e, st')
      end
  end.

(** The entry of Signal.dispatch, given its loop. *)
Definition dispatch_with
    (loop : SId → list Val → option BId → State → Result)
    (s : SId) (args : list Val) (st : State) : Result :=
  if enabled_of (heap st) s then
    match head_of (heap st) s with
    | None => Some (Normal, st)
    | Some n => loop s args (Some n) st
    end
  else Some (Normal, st).

(** The loop of Signal.dispatch, from [node] on. A handler that is called
    runs with one unit of fuel less, and so does the rest of the loop. *)
Fixpoint dispatch_loop (fuel : nat) (s : SId) (args : list Val)
    (node : option BId) (st : State) : Result :=
  match node with
  | None => Some (Normal, st)
  | Some n =>
      match fuel with
      | 0 => None
      | S fuel' =>
          (* if (node.once) this.detach(node); *)
          let h1 := if once_of (heap st) n then detach s n (heap st)
                    else heap st in
          (* node.fn.call(node.thisArg, ...) *)
          let this := this_of h1 n in
          let st1 := log (EvCall n this (call_args args) h1)
                         (mkState h1 (trace st)) in
          match run (dispatch_with (dispatch_loop fuel'))
                    (env (fn_of h1 n) this (call_args args)) st1 with
          | Some (Normal, st2) =>
              (* node = node.next; *)
              dispatch_loop fuel' s args (next_of (heap st2) n) st2
          | r => r
          end
      end
  end.

(** Signal.dispatch(...args) *)
Definition dispatch (fuel : nat) : SId → list Val → State → Result :=
  dispatch_with (dispatch_loop fuel).

(** AsyncSignal.dispatch(...args) *)
Definition async_dispatch (fuel : nat) :=
  async_dispatch_with (dispatch fuel).

(** A whole user program, run from the top. *)
Definition run_top (fuel : nat) : Prog → State → Result :=
  run (dispatch fuel).

End Run.

(** ** The shape of a heap that the API builds *)

(** [reach h n m]: following [next] from [n] arrives at [m]. *)
Inductive reach (h : Heap) : BId → BId → Prop :=
| reach_here n : reach h n n
| reach_step n k m : next_of h n = Some k → reach h k m → reach h n m.

(** The list of a signal, stated link by link.  Bindings are numbered in
    the order they are created and a binding is appended when it is
    created, so [next] goes up and [prev] goes down, also on a binding that
    was detached and keeps its old links. *)
Record wf (h : Heap) : Prop := mk_wf {
  wf_next_lt : ∀ n m, next_of h n = Some m → n < m < length (bindings h);
  wf_prev_lt : ∀ n m, prev_of h n = Some m → m < n;
  wf_owner_valid : ∀ n s, owner_of h n = Some s → s < length (signals h);
  wf_next_owned : ∀ n s m, owner_of h n = Some s → next_of h n = Some m →
      owner_of h m = Some s ∧ prev_of h m = Some n;
  wf_prev_owned : ∀ n s m, owner_of h n = Some s → prev_of h n = Some m →
      owner_of h m = Some s ∧ next_of h m = Some n;
  wf_head : ∀ n s, owner_of h n = Some s →
      (prev_of h n = None ↔ head_of h s = Some n);
  wf_tail : ∀ n s, owner_of h n = Some s →
      (next_of h n = None ↔ tail_of h s = Some n);
  wf_head_owned : ∀ s n, head_of h s = Some n → owner_of h n = Some s;
  wf_tail_owned : ∀ s n, tail_of h s = Some n → owner_of h n = Some s;
  wf_empty : ∀ s, head_of h s = None ↔ tail_of h s = None
}.

(** The invariant of a Signal as the specification words it: [_head] and
    [_tail] are null together, exactly when the list is empty; the walk
    from [_head] along [next] ends, passes no binding twice and stops at
    [_tail]; [prev] mirrors [next]; every binding on the list is owned by
    the signal. *)
Definition mirrored (h : Heap) (l : list BId) : Prop :=
  ∀ i n, l !! i = Some n →
    next_of h n = l !! (S i) ∧
    prev_of h n = match i with 0 => None | S j => l !! j end.

Definition signal_inv (h : Heap) (s : SId) : Prop :=
  ∃ l, handlers s h = Some l ∧
       (l = [] ↔ head_of h s = None) ∧
       (l = [] ↔ tail_of h s = None) ∧
       NoDup l ∧
       tail_of h s = last l ∧
       mirrored h l ∧
       (∀ n, n ∈ l → owner_of h n = Some s).

(** Two heaps with the same links have the same shape. *)
Definition same_links (h h' : Heap) : Prop :=
  (∀ n, next_of h' n = next_of h n) ∧
  (∀ n, prev_of h' n = prev_of h n) ∧
  (∀ n, owner_of h' n = owner_of h n) ∧
  (∀ s, head_of h' s = head_of h s) ∧
  (∀ s, tail_of h' s = tail_of h s) ∧
  length (bindings h) ≤ length (bindings h') ∧
  length (signals h) ≤ length (signals h').

(** A dispatch function that keeps a property of the heap. *)
Definition keeps (P : Heap → Prop)
    (base : SId → list Val → State → Result) : Prop :=
  ∀ s args st r st', P (heap st) → base s args st = Some (r, st') →
    P (heap st').

(** ** Reading the trace *)

(** The handler calls of a trace, in order: binding, [this], arguments. *)
Definition call_of (e : Event) : option (BId * Val * list Val) :=
  match e with
  | EvCall b this args _ => Some (b, this, args)
  | EvResolve _ _ => None
  end.

Definition calls (tr : list Event) : list (BId * Val * list Val) :=
  omap call_of tr.

(** How many times the handler of binding [b] was called. *)
Definition is_call_of (b : BId) (e : Event) : bool :=
  match e with
  | EvCall b' _ _ _ => bool_decide (b' = b)
  | EvResolve _ _ => false
  end.

Definition count_calls (b : BId) (tr : list Event) : nat :=
  length (filter (λ e, is_call_of b e = true) tr).

(** The calls of promise [p]'s resolve function in a trace: for each, did
    it settle the promise. *)
Definition resolve_of (p : PId) (e : Event) : option bool :=
  match e with
  | EvResolve q b => if decide (q = p) then Some b else None
  | EvCall _ _ _ _ => None
  end.

Definition resolves (p : PId) (tr : list Event) : list bool :=
  omap (resolve_of p) tr.

(** Only calls of resolve functions. *)
Definition no_calls (evs : list Event) : Prop := calls evs = [].

(** The call dispatch makes on binding [n] when it is given [args]. *)
Definition call_with (h : Heap) (args : list Val) (n : BId)
    : BId * Val * list Val :=
  (n, this_of h n, call_args args).

(** The handler of binding [n] in heap [h], called with [args]. *)
Definition handler_of (env : Handlers) (h : Heap) (args : list Val)
    (n : BId) : Prog :=
  env (fn_of h n) (this_of h n) (call_args args).

(** ** Promises along a trace *)

(** Is the promise there and still pending. *)
Definition is_pending (o : option PromiseState) : bool :=
  match o with
  | Some Pending => true
  | _ => false
  end.

(** What [k] calls of the resolve function do to a promise in state [o]:
    the first call settles a pending promise, the others do nothing;
    [flags] is what the calls report, [settle] the state they leave. *)
Definition flags (o : option PromiseState) (k : nat) : list bool :=
  match k with
  | 0 => []
  | S k' => is_pending o :: replicate k' false
  end.

Definition settle (o : option PromiseState) (k : nat) : option PromiseState :=
  match k, o with
  | S _, Some Pending => Some Fulfilled
  | _, _ => o
  end.

(** The promises of [h'] are those of [h] after the calls of resolve
    functions that [evs] records. *)
Definition promise_run (h h' : Heap) (evs : list Event) : Prop :=
  ∀ p, resolves p evs = flags (promises h !! p) (length (resolves p evs)) ∧
       promises h' !! p = settle (promises h !! p) (length (resolves p evs)).

(** ** Handlers that leave the rest of the list alone *)

(** Calls that change no list: the queries, the enabled flag, the user's
    own variables, and calling a resolve function. *)
Definition quiet_op (nsig : nat) (op : Op) : bool :=
  match op with
  | OpGetEnabled s | OpHasAny s | OpHandlers s | OpHas s _
  | OpSetEnabled s _ => bool_decide (s < nsig)
  | OpCall (VResolver _) | OpGetUser | OpSetUser _ => true
  | _ => false
  end.

(** What the handler of binding [n] may also do and still leave every
    binding after [n] where it is: detach [n] itself or a binding before
    it, and detachAll. *)
Definition tame_op (nsig : nat) (n : BId) (op : Op) : bool :=
  match op with
  | OpDetach s b => bool_decide (s < nsig ∧ b ≤ n)
  | OpBindingDetach b => bool_decide (b ≤ n)
  | OpDetachAll s => bool_decide (s < nsig)
  | _ => quiet_op nsig op
  end.

(** A tame handler of binding [n]: it returns after such calls only. It
    neither throws, nor adds a binding, nor dispatches. *)
Inductive tame (nsig : nat) (n : BId) : Prog → Prop :=
| tame_Ret : tame nsig n Ret
| tame_Do op k :
    tame_op nsig n op = true → (∀ a, tame nsig n (k a)) →
    tame nsig n (Do op k).

(** Every handler of the list may do what a tame handler does. *)
Definition all_tame (env : Handlers) (h : Heap) (args : list Val)
    (l : list BId) : Prop :=
  ∀ n, n ∈ l →
    tame (length (signals h)) n (env (fn_of h n) (this_of h n) (call_args args)).

(** A handler that throws [e], after calls a tame handler may make. *)
Inductive raises (nsig : nat) (n : BId) (e : Val) : Prog → Prop :=
| raises_Throw : raises nsig n e (Throw e)
| raises_Do op k :
    tame_op nsig n op = true → (∀ a, raises nsig n e (k a)) →
    raises nsig n e (Do op k).

(** What a tame handler of binding [n] leaves behind. *)
Record tame_post (n : BId) (h h' : Heap) : Prop := mk_tame_post {
  tp_wf : wf h';
  tp_next : ∀ m, n ≤ m → next_of h' m = next_of h m;
  tp_once : ∀ m, once_of h' m = once_of h m;
  tp_fn : ∀ m, fn_of h' m = fn_of h m;
  tp_this : ∀ m, this_of h' m = this_of h m;
  tp_lenb : length (bindings h') = length (bindings h);
  tp_lens : length (signals h') = length (signals h);
  tp_owner : ∀ m, owner_of h' m = owner_of h m ∨ owner_of h' m = None
}.

(** Tame code took [st] to [st'] and added [evs] to the trace. *)
Record ran (n : BId) (st st' : State) (evs : list Event) : Prop := mk_ran {
  ran_post : tame_post n (heap st) (heap st');
  ran_trace : trace st' = trace st ++ evs;
  ran_promises : promise_run (heap st) (heap st') evs
}.

(** [chain_seg h cur l nxt]: the loop that starts at [cur] visits the
    bindings of [l] in turn and then stands at [nxt]. *)
Fixpoint chain_seg (h : Heap) (cur : option BId) (l : list BId)
    (nxt : option BId) : Prop :=
  match l with
  | [] => cur = nxt
  | n :: l' => cur = Some n ∧ chain_seg h (next_of h n) l' nxt
  end.

(** What the heap recorded at a handler's call looks like, seen from the
    heap [h0] in which the dispatch started. *)
Definition snap_ok (s : SId) (h0 : Heap) (e : Event) : Prop :=
  match e with
  | EvCall n _ _ hs =>
      (∃ k, tame_post k h0 hs) ∧
      (once_of h0 n = true → owner_of hs n ≠ Some s)
  | EvResolve _ _ => True
  end.

(** ** User code that never dispatches *)

(** User code that never calls dispatch. *)
Definition dispatch_free_op (op : Op) : bool :=
  match op with
  | OpDispatch _ _ | OpAsyncDispatch _ _ => false
  | _ => true
  end.

Inductive dispatch_free : Prog → Prop :=
| dispatch_free_Ret : dispatch_free Ret
| dispatch_free_Throw e : dispatch_free (Throw e)
| dispatch_free_Do op k :
    dispatch_free_op op = true → (∀ a, dispatch_free (k a)) →
    dispatch_free (Do op k).

(** How one call of the API other than dispatch changes what the [next]
    links reach: a binding that existed is reached only from where it was
    reached before, and a new binding only from where the tail of its
    signal was reached. *)
Record grows (h h' : Heap) : Prop := mk_grows {
  g_len : length (bindings h) ≤ length (bindings h');
  g_once : ∀ m, m < length (bindings h) → once_of h' m = once_of h m;
  g_owner : ∀ m, m < length (bindings h) →
      owner_of h' m = owner_of h m ∨ owner_of h' m = None;
  g_reach_old : ∀ n b, b < length (bindings h) →
      reach h' n b → reach h n b;
  g_reach_new : ∀ n b s, n < length (bindings h) →
      length (bindings h) ≤ b → reach h' n b → owner_of h' b = Some s →
      ∃ t, reach h n t ∧ owner_of h t = Some s
}.

(** What the trace says about once bindings: a call is a call of a
    binding that exists; a once binding was called at most once, and not
    at all while it is attached; when it was called it had been
    detached. *)
Record counted (st : State) : Prop := mk_counted {
  c_wf : wf (heap st);
  c_valid : ∀ b this args hs, EvCall b this args hs ∈ trace st →
      b < length (bindings (heap st));
  c_once : ∀ b, once_of (heap st) b = true →
      count_calls b (trace st) ≤ 1 ∧
      (owner_of (heap st) b ≠ None → count_calls b (trace st) = 0);
  c_snap : ∀ b this args hs, EvCall b this args hs ∈ trace st →
      wf hs ∧ (once_of hs b = true → owner_of hs b = None)
}.

(** What lies ahead of the dispatch of signal [s] while the handler of
    [n] runs: every binding the loop can still reach is a binding of [s]
    or a detached one, and if it is a once binding other than [n] it has
    not been called. *)
Definition ahead (s : SId) (n : BId) (st : State) : Prop :=
  ∀ b, reach (heap st) n b →
    (owner_of (heap st) b = None ∨ owner_of (heap st) b = Some s) ∧
    (b ≠ n → once_of (heap st) b = true → count_calls b (trace st) = 0).

(** ** Runs of add and once *)

(** A run of [add] and [once] calls on one signal, each with its handler,
    its once flag ([true] for once) and its [thisArg]; the bindings they
    return, in call order. *)
Fixpoint add_all (s : SId) (specs : list (FnId * bool * Val)) (h : Heap)
    : list BId * Heap :=
  match specs with
  | [] => ([], h)
  | (f, o, this) :: rest =>
      let '(b, h1) := (if o then once_ else add) s f this h in
      let '(bs, h2) := add_all s rest h1 in
      (b :: bs, h2)
  end.

(** ** Example programs *)

Definition env_idle : Handlers := λ _ _ _, Ret.

(** [const s = new Signal(); s.once(f0); s.once(f1); s.dispatch();]
    where [f0 = () => s.dispatch()] and [f1] does nothing. *)
Definition env_redispatch : Handlers := λ f _ _,
  match f with
  | 0 => Do (OpDispatch 0 []) (λ _, Ret)
  | _ => Ret
  end.

Definition prog_once_twice : Prog :=
  Do OpNewSignal (λ _,
  Do (OpOnce 0 0 VNull) (λ _,
  Do (OpOnce 0 1 VNull) (λ _,
  Do (OpDispatch 0 []) (λ _, Ret)))).

(** [const s = new Signal(); s.once(f0); s.dispatch(); s.dispatch();] *)
Definition prog_once_dispatch_twice : Prog :=
  Do OpNewSignal (λ _,
  Do (OpOnce 0 0 VNull) (λ _,
  Do (OpDispatch 0 []) (λ _,
  Do (OpDispatch 0 []) (λ _, Ret)))).

Definition state_once_dispatch_twice : State :=
  match run_top env_idle 4 prog_once_dispatch_twice init_state with
  | Some (_, st) => st
  | None => init_state
  end.

(** [new AsyncSignal()] and nothing bound to it. *)
Definition heap_lonely : Heap := (new_signal empty_heap).2.

(** [const s = new Signal(); a = s.add(f); b = s.add(f); c = s.add(f);] *)
Definition heap_three : Heap :=
  (add 0 0 VNull (add 0 0 VNull (add 0 0 VNull (new_signal empty_heap).2).2).2).2.

(** [s.add(f0); s.add(f1); s.add(f2)] on a fresh signal. *)
Definition heap_fan : Heap :=
  (add_all 0 [(0, false, VNull); (1, false, VNull); (2, false, VNull)]
     heap_lonely).2.

(** Only [f2] calls the completion callback it is passed. *)
Definition env_last_resolves : Handlers := λ f _ args,
  match f with
  | 2 => Do (OpCall (arg args 0)) (λ _, Ret)
  | _ => Ret
  end.

(** [f1] throws; [f2] would dispatch again. *)
Definition env_boom : Handlers := λ f _ _,
  match f with
  | 0 => Ret
  | 1 => Throw (VStr "boom")
  | _ => Do (OpDispatch 0 []) (λ _, Ret)
  end.


(** ** Handlers that change no list *)

(** A quiet handler: it returns after calls that change no list. *)
Inductive quiet (nsig : nat) : Prog → Prop :=
| quiet_Ret : quiet nsig Ret
| quiet_Do op k :
    quiet_op nsig op = true → (∀ a, quiet nsig (k a)) →
    quiet nsig (Do op k).

Definition all_quiet (env : Handlers) (h : Heap) (args : list Val)
    (l : list BId) : Prop :=
  ∀ n, n ∈ l → quiet (length (signals h)) (handler_of env h args n).

(** What a quiet call leaves as it was: the bindings and the two ends of
    every list. *)
Record quiet_post (h h' : Heap) : Prop := mk_quiet_post {
  qp_bindings : bindings h' = bindings h;
  qp_head : ∀ s, head_of h' s = head_of h s;
  qp_tail : ∀ s, tail_of h' s = tail_of h s;
  qp_lens : length (signals h') = length (signals h)
}.

(** ** Handlers that never dispatch and never throw *)

(** Calls after which the caller goes on and that start no dispatch:
    every call of the API on a signal that exists, but dispatch. *)
Definition calm_op (nsig : nat) (op : Op) : bool :=
  match op with
  | OpDispatch _ _ | OpAsyncDispatch _ _ => false
  | OpCall (VResolver _) => true
  | OpCall _ => false
  | _ => match op_signal op with
         | Some s => bool_decide (s < nsig)
         | None => true
         end
  end.

(** A calm handler: it returns after such calls only.  It may add and
    detach whatever it likes. *)
Inductive calm (nsig : nat) : Prog → Prop :=
| calm_Ret : calm nsig Ret
| calm_Do op k :
    calm_op nsig op = true → (∀ a, calm nsig (k a)) → calm nsig (Do op k).

(** A handler of binding [n] that calls detachAll on signal [s]: it makes
    the calls of a tame handler, then calls [s.detachAll()], then goes on
    as a calm handler. *)
Inductive detaches_all (nsig : nat) (s : SId) (n : BId) : Prog → Prop :=
| detaches_all_now k :
    s < nsig → (∀ a, calm nsig (k a)) →
    detaches_all nsig s n (Do (OpDetachAll s) k)
| detaches_all_later op k :
    tame_op nsig n op = true → (∀ a, detaches_all nsig s n (k a)) →
    detaches_all nsig s n (Do op k).

(** What calm code leaves of a heap: the bindings that were there keep
    what they store, get no new owner and, when they are detached, keep
    their next link. *)
Record calm_post (h h' : Heap) : Prop := mk_calm_post {
  cp_wf : wf h';
  cp_lenb : length (bindings h) ≤ length (bindings h');
  cp_lens : length (signals h) ≤ length (signals h');
  cp_once : ∀ m, m < length (bindings h) → once_of h' m = once_of h m;
  cp_fn : ∀ m, m < length (bindings h) → fn_of h' m = fn_of h m;
  cp_this : ∀ m, m < length (bindings h) → this_of h' m = this_of h m;
  cp_owner : ∀ m, m < length (bindings h) →
      owner_of h' m = owner_of h m ∨ owner_of h' m = None;
  cp_next : ∀ m, m < length (bindings h) → owner_of h m = None →
      next_of h' m = next_of h m
}.

(** What the handler of a binding that detachAll has removed sees when
    it is called, [nb] being the number of bindings that existed when the
    dispatch began: its own binding is detached, and the signal has a
    handler exactly when a binding created since is attached to it. *)
Definition called_after_detachAll (s : SId) (nb : nat) (e : Event) : Prop :=
  match e with
  | EvCall n _ _ hs =>
      has s n hs = false ∧
      (hasAny s hs = true ↔ ∃ b, nb ≤ b ∧ owner_of hs b = Some s)
  | EvResolve _ _ => True
  end.

(** ** A handler that detaches its own binding first *)

(** The handler [p] of binding [a], behind a call of [a.detach()] when
    [first] is set. *)
Definition after_own_detach (first : bool) (a : BId) (p : Prog) : Prog :=
  if first then Do (OpBindingDetach a) (λ _, p) else p.

(** ** More example programs *)

(** [s.add(f0); s.once(f1); s.add(f2)] on a fresh signal. *)
Definition heap_mixed : Heap :=
  (add_all 0 [(0, false, VNull); (1, true, VNull); (2, false, VNull)]
     heap_lonely).2.

(** [const s = new Signal(); s.add(f0); s.add(f1); s.dispatch();] *)
Definition prog_boom : Prog :=
  Do OpNewSignal (λ _,
  Do (OpAdd 0 0 VNull) (λ _,
  Do (OpAdd 0 1 VNull) (λ _,
  Do (OpDispatch 0 []) (λ _, Ret)))).

(** [f2] adds a binding of [f0] to the signal. *)
Definition env_add_last : Handlers := λ f _ _,
  match f with
  | 2 => Do (OpAdd 0 0 VNull) (λ _, Ret)
  | _ => Ret
  end.

(** [f0] detaches the binding of [f2]. *)
Definition env_detach_ahead : Handlers := λ f _ _,
  match f with
  | 0 => Do (OpDetach 0 2) (λ _, Ret)
  | _ => Ret
  end.

(** [f1] calls [s.detachAll()] and then [s.add(f0)]. *)
Definition env_detach_all_add : Handlers := λ f _ _,
  match f with
  | 1 => Do (OpDetachAll 0) (λ _, Do (OpAdd 0 0 VUndef) (λ _, Ret))
  | _ => Ret
  end.

(** [f2] calls [detach()] on its own binding and then [s.add(f0)]. *)
Definition env_detach_self_add : Handlers := λ f _ _,
  match f with
  | 2 => Do (OpBindingDetach 2) (λ _, Do (OpAdd 0 0 VUndef) (λ _, Ret))
  | _ => Ret
  end.

(** [f0] calls [detach()] on its own binding and then detaches the
    binding of [f1]. *)
Definition env_detach_self_ahead : Handlers := λ f _ _,
  match f with
  | 0 => Do (OpBindingDetach 0) (λ _, Do (OpDetach 0 1) (λ _, Ret))
  | _ => Ret
  end.

(** * Properties *)

(** ** Reading a field after a write *)

Lemma lookup_alter_dec {A} (f : A → A) (l : list A) (n m : nat) :
  alter f n l !! m = if decide (m = n) then f <$> l !! m else l !! m.
Proof.
  rewrite list_lookup_alter. repeat case_decide; subst; done.
Qed.

Ltac unfold_heap :=
  unfold next_of, prev_of, owner_of, once_of, fn_of, this_of,
    head_of, tail_of, enabled_of,
    set_next, set_prev, set_owner, set_head, set_tail, set_enabled,
    upd_binding, upd_signal, set_user in *;
  cbn [bindings signals promises user] in *.

Ltac field_cases E :=
  simpl;
  first [ pose proof (lookup_lt_Some _ _ _ E)
        | pose proof (proj1 (lookup_ge_None _ _) E) ];
  repeat case_decide; simpl; rewrite ?E; simpl;
  try done; try (exfalso; intuition (subst; lia)).

Ltac field_rw h n m :=
  unfold_heap; rewrite lookup_alter_dec;
  let E := fresh "E" in
  destruct (bindings h !! m) eqn:E; field_cases E.

Ltac sfield_rw h n m :=
  unfold_heap; rewrite lookup_alter_dec;
  let E := fresh "E" in
  destruct (signals h !! m) eqn:E; field_cases E.

Lemma next_set_next h n v m :
  next_of (set_next n v h) m =
  if decide (m = n ∧ n < length (bindings h)) then v else next_of h m.
Proof. field_rw h n m. Qed.
Lemma prev_set_prev h n v m :
  prev_of (set_prev n v h) m =
  if decide (m = n ∧ n < length (bindings h)) then v else prev_of h m.
Proof. field_rw h n m. Qed.
Lemma owner_set_owner h n v m :
  owner_of (set_owner n v h) m =
  if decide (m = n ∧ n < length (bindings h)) then v else owner_of h m.
Proof. field_rw h n m. Qed.

Lemma next_set_prev h n v m : next_of (set_prev n v h) m = next_of h m.
Proof. field_rw h n m. Qed.
Lemma next_set_owner h n v m : next_of (set_owner n v h) m = next_of h m.
Proof. field_rw h n m. Qed.
Lemma prev_set_next h n v m : prev_of (set_next n v h) m = prev_of h m.
Proof. field_rw h n m. Qed.
Lemma prev_set_owner h n v m : prev_of (set_owner n v h) m = prev_of h m.
Proof. field_rw h n m. Qed.
Lemma owner_set_next h n v m : owner_of (set_next n v h) m = owner_of h m.
Proof. field_rw h n m. Qed.
Lemma owner_set_prev h n v m : owner_of (set_prev n v h) m = owner_of h m.
Proof. field_rw h n m. Qed.

Lemma once_upd_binding h f n m :
  (∀ b, once (f b) = once b) → once_of (upd_binding f n h) m = once_of h m.
Proof. intros Hf. field_rw h n m; by rewrite ?Hf. Qed.
Lemma fn_upd_binding h f n m :
  (∀ b, fn (f b) = fn b) → fn_of (upd_binding f n h) m = fn_of h m.
Proof. intros Hf. field_rw h n m; by rewrite ?Hf. Qed.
Lemma this_upd_binding h f n m :
  (∀ b, thisArg (f b) = thisArg b) → this_of (upd_binding f n h) m = this_of h m.
Proof. intros Hf. field_rw h n m; by rewrite ?Hf. Qed.

Lemma head_set_head h s v s' :
  head_of (set_head s v h) s' =
  if decide (s' = s ∧ s < length (signals h)) then v else head_of h s'.
Proof. sfield_rw h s s'. Qed.
Lemma tail_set_tail h s v s' :
  tail_of (set_tail s v h) s' =
  if decide (s' = s ∧ s < length (signals h)) then v else tail_of h s'.
Proof. sfield_rw h s s'. Qed.
Lemma head_set_tail h s v s' : head_of (set_tail s v h) s' = head_of h s'.
Proof. sfield_rw h s s'. Qed.
Lemma tail_set_head h s v s' : tail_of (set_head s v h) s' = tail_of h s'.
Proof. sfield_rw h s s'. Qed.
Lemma enabled_set_head h s v s' : enabled_of (set_head s v h) s' = enabled_of h s'.
Proof. sfield_rw h s s'. Qed.
Lemma enabled_set_tail h s v s' : enabled_of (set_tail s v h) s' = enabled_of h s'.
Proof. sfield_rw h s s'. Qed.
Lemma head_set_enabled h s v s' : head_of (set_enabled s v h) s' = head_of h s'.
Proof. sfield_rw h s s'. Qed.
Lemma tail_set_enabled h s v s' : tail_of (set_enabled s v h) s' = tail_of h s'.
Proof. sfield_rw h s s'. Qed.

Lemma length_bindings_upd_binding h f n :
  length (bindings (upd_binding f n h)) = length (bindings h).
Proof. simpl. apply length_alter. Qed.
Lemma length_signals_upd_signal h f s :
  length (signals (upd_signal f s h)) = length (signals h).
Proof. simpl. apply length_alter. Qed.

(** A write to a signal leaves the bindings alone, and conversely. *)
Lemma next_set_head h s v n : next_of (set_head s v h) n = next_of h n.
Proof. done. Qed.
Lemma next_set_tail h s v n : next_of (set_tail s v h) n = next_of h n.
Proof. done. Qed.
Lemma next_set_enabled h s v n : next_of (set_enabled s v h) n = next_of h n.
Proof. done. Qed.
Lemma prev_set_head h s v n : prev_of (set_head s v h) n = prev_of h n.
Proof. done. Qed.
Lemma prev_set_tail h s v n : prev_of (set_tail s v h) n = prev_of h n.
Proof. done. Qed.
Lemma prev_set_enabled h s v n : prev_of (set_enabled s v h) n = prev_of h n.
Proof. done. Qed.
Lemma owner_set_head h s v n : owner_of (set_head s v h) n = owner_of h n.
Proof. done. Qed.
Lemma owner_set_tail h s v n : owner_of (set_tail s v h) n = owner_of h n.
Proof. done. Qed.
Lemma owner_set_enabled h s v n : owner_of (set_enabled s v h) n = owner_of h n.
Proof. done. Qed.
Lemma once_set_head h s v n : once_of (set_head s v h) n = once_of h n.
Proof. done. Qed.
Lemma once_set_tail h s v n : once_of (set_tail s v h) n = once_of h n.
Proof. done. Qed.
Lemma once_set_enabled h s v n : once_of (set_enabled s v h) n = once_of h n.
Proof. done. Qed.
Lemma fn_set_head h s v n : fn_of (set_head s v h) n = fn_of h n.
Proof. done. Qed.
Lemma fn_set_tail h s v n : fn_of (set_tail s v h) n = fn_of h n.
Proof. done. Qed.
Lemma fn_set_enabled h s v n : fn_of (set_enabled s v h) n = fn_of h n.
Proof. done. Qed.
Lemma this_set_head h s v n : this_of (set_head s v h) n = this_of h n.
Proof. done. Qed.
Lemma this_set_tail h s v n : this_of (set_tail s v h) n = this_of h n.
Proof. done. Qed.
Lemma this_set_enabled h s v n : this_of (set_enabled s v h) n = this_of h n.
Proof. done. Qed.
Lemma head_set_next h n v s : head_of (set_next n v h) s = head_of h s.
Proof. done. Qed.
Lemma head_set_prev h n v s : head_of (set_prev n v h) s = head_of h s.
Proof. done. Qed.
Lemma head_set_owner h n v s : head_of (set_owner n v h) s = head_of h s.
Proof. done. Qed.
Lemma tail_set_next h n v s : tail_of (set_next n v h) s = tail_of h s.
Proof. done. Qed.
Lemma tail_set_prev h n v s : tail_of (set_prev n v h) s = tail_of h s.
Proof. done. Qed.
Lemma tail_set_owner h n v s : tail_of (set_owner n v h) s = tail_of h s.
Proof. done. Qed.
Lemma enabled_set_next h n v s : enabled_of (set_next n v h) s = enabled_of h s.
Proof. done. Qed.
Lemma enabled_set_prev h n v s : enabled_of (set_prev n v h) s = enabled_of h s.
Proof. done. Qed.
Lemma enabled_set_owner h n v s : enabled_of (set_owner n v h) s = enabled_of h s.
Proof. done. Qed.
Lemma once_set_next h n v m : once_of (set_next n v h) m = once_of h m.
Proof. by apply once_upd_binding. Qed.
Lemma once_set_prev h n v m : once_of (set_prev n v h) m = once_of h m.
Proof. by apply once_upd_binding. Qed.
Lemma once_set_owner h n v m : once_of (set_owner n v h) m = once_of h m.
Proof. by apply once_upd_binding. Qed.
Lemma fn_set_next h n v m : fn_of (set_next n v h) m = fn_of h m.
Proof. by apply fn_upd_binding. Qed.
Lemma fn_set_prev h n v m : fn_of (set_prev n v h) m = fn_of h m.
Proof. by apply fn_upd_binding. Qed.
Lemma fn_set_owner h n v m : fn_of (set_owner n v h) m = fn_of h m.
Proof. by apply fn_upd_binding. Qed.
Lemma this_set_next h n v m : this_of (set_next n v h) m = this_of h m.
Proof. by apply this_upd_binding. Qed.
Lemma this_set_prev h n v m : this_of (set_prev n v h) m = this_of h m.
Proof. by apply this_upd_binding. Qed.
Lemma this_set_owner h n v m : this_of (set_owner n v h) m = this_of h m.
Proof. by apply this_upd_binding. Qed.
Lemma length_set_next h n v : length (bindings (set_next n v h)) = length (bindings h).
Proof. apply length_bindings_upd_binding. Qed.
Lemma slength_set_next h n v : length (signals (set_next n v h)) = length (signals h).
Proof. done. Qed.
Lemma length_set_prev h n v : length (bindings (set_prev n v h)) = length (bindings h).
Proof. apply length_bindings_upd_binding. Qed.
Lemma slength_set_prev h n v : length (signals (set_prev n v h)) = length (signals h).
Proof. done. Qed.
Lemma length_set_owner h n v : length (bindings (set_owner n v h)) = length (bindings h).
Proof. apply length_bindings_upd_binding. Qed.
Lemma slength_set_owner h n v : length (signals (set_owner n v h)) = length (signals h).
Proof. done. Qed.
Lemma slength_set_head h s v : length (signals (set_head s v h)) = length (signals h).
Proof. apply length_signals_upd_signal. Qed.
Lemma length_set_head h s v : length (bindings (set_head s v h)) = length (bindings h).
Proof. done. Qed.
Lemma slength_set_tail h s v : length (signals (set_tail s v h)) = length (signals h).
Proof. apply length_signals_upd_signal. Qed.
Lemma length_set_tail h s v : length (bindings (set_tail s v h)) = length (bindings h).
Proof. done. Qed.
Lemma slength_set_enabled h s v : length (signals (set_enabled s v h)) = length (signals h).
Proof. apply length_signals_upd_signal. Qed.
Lemma length_set_enabled h s v : length (bindings (set_enabled s v h)) = length (bindings h).
Proof. done. Qed.
Lemma enabled_set_enabled h s v s' :
  enabled_of (set_enabled s v h) s' =
  if decide (s' = s ∧ s < length (signals h)) then v else enabled_of h s'.
Proof. sfield_rw h s s'. Qed.
Lemma next_set_next_eq h n v :
  n < length (bindings h) → next_of (set_next n v h) n = v.
Proof. intros. rewrite next_set_next. case_decide; [done|]. exfalso; intuition. Qed.
Lemma next_set_next_ne h n v m : m ≠ n → next_of (set_next n v h) m = next_of h m.
Proof. intros. rewrite next_set_next. case_decide; [|done]. exfalso; intuition. Qed.
Lemma prev_set_prev_eq h n v :
  n < length (bindings h) → prev_of (set_prev n v h) n = v.
Proof. intros. rewrite prev_set_prev. case_decide; [done|]. exfalso; intuition. Qed.
Lemma prev_set_prev_ne h n v m : m ≠ n → prev_of (set_prev n v h) m = prev_of h m.
Proof. intros. rewrite prev_set_prev. case_decide; [|done]. exfalso; intuition. Qed.
Lemma owner_set_owner_eq h n v :
  n < length (bindings h) → owner_of (set_owner n v h) n = v.
Proof. intros. rewrite owner_set_owner. case_decide; [done|]. exfalso; intuition. Qed.
Lemma owner_set_owner_ne h n v m : m ≠ n → owner_of (set_owner n v h) m = owner_of h m.
Proof. intros. rewrite owner_set_owner. case_decide; [|done]. exfalso; intuition. Qed.
Lemma head_set_head_eq h n v :
  n < length (signals h) → head_of (set_head n v h) n = v.
Proof. intros. rewrite head_set_head. case_decide; [done|]. exfalso; intuition. Qed.
Lemma head_set_head_ne h n v m : m ≠ n → head_of (set_head n v h) m = head_of h m.
Proof. intros. rewrite head_set_head. case_decide; [|done]. exfalso; intuition. Qed.
Lemma tail_set_tail_eq h n v :
  n < length (signals h) → tail_of (set_tail n v h) n = v.
Proof. intros. rewrite tail_set_tail. case_decide; [done|]. exfalso; intuition. Qed.
Lemma tail_set_tail_ne h n v m : m ≠ n → tail_of (set_tail n v h) m = tail_of h m.
Proof. intros. rewrite tail_set_tail. case_decide; [|done]. exfalso; intuition. Qed.
Lemma enabled_set_enabled_eq h n v :
  n < length (signals h) → enabled_of (set_enabled n v h) n = v.
Proof. intros. rewrite enabled_set_enabled. case_decide; [done|]. exfalso; intuition. Qed.
Lemma enabled_set_enabled_ne h n v m : m ≠ n → enabled_of (set_enabled n v h) m = enabled_of h m.
Proof. intros. rewrite enabled_set_enabled. case_decide; [|done]. exfalso; intuition. Qed.
(** Rewriting a read of a written heap; side conditions go to [lia]. *)
Ltac hs_step :=
  first
    [ rewrite next_set_head
    | rewrite next_set_tail
    | rewrite next_set_enabled
    | rewrite prev_set_head
    | rewrite prev_set_tail
    | rewrite prev_set_enabled
    | rewrite owner_set_head
    | rewrite owner_set_tail
    | rewrite owner_set_enabled
    | rewrite once_set_head
    | rewrite once_set_tail
    | rewrite once_set_enabled
    | rewrite fn_set_head
    | rewrite fn_set_tail
    | rewrite fn_set_enabled
    | rewrite this_set_head
    | rewrite this_set_tail
    | rewrite this_set_enabled
    | rewrite head_set_next
    | rewrite head_set_prev
    | rewrite head_set_owner
    | rewrite tail_set_next
    | rewrite tail_set_prev
    | rewrite tail_set_owner
    | rewrite enabled_set_next
    | rewrite enabled_set_prev
    | rewrite enabled_set_owner
    | rewrite once_set_next
    | rewrite once_set_prev
    | rewrite once_set_owner
    | rewrite fn_set_next
    | rewrite fn_set_prev
    | rewrite fn_set_owner
    | rewrite this_set_next
    | rewrite this_set_prev
    | rewrite this_set_owner
    | rewrite length_set_next
    | rewrite slength_set_next
    | rewrite length_set_prev
    | rewrite slength_set_prev
    | rewrite length_set_owner
    | rewrite slength_set_owner
    | rewrite slength_set_head
    | rewrite length_set_head
    | rewrite slength_set_tail
    | rewrite length_set_tail
    | rewrite slength_set_enabled
    | rewrite length_set_enabled
    | rewrite next_set_prev
    | rewrite next_set_owner
    | rewrite prev_set_next
    | rewrite prev_set_owner
    | rewrite owner_set_next
    | rewrite owner_set_prev
    | rewrite head_set_tail
    | rewrite tail_set_head
    | rewrite enabled_set_head
    | rewrite enabled_set_tail
    | rewrite head_set_enabled
    | rewrite tail_set_enabled
    | rewrite next_set_next_ne by lia
    | rewrite prev_set_prev_ne by lia
    | rewrite owner_set_owner_ne by lia
    | rewrite head_set_head_ne by lia
    | rewrite tail_set_tail_ne by lia
    | rewrite enabled_set_enabled_ne by lia
    | rewrite next_set_next_eq by (simpl; rewrite ?length_alter; lia)
    | rewrite prev_set_prev_eq by (simpl; rewrite ?length_alter; lia)
    | rewrite owner_set_owner_eq by (simpl; rewrite ?length_alter; lia)
    | rewrite head_set_head_eq by (simpl; rewrite ?length_alter; lia)
    | rewrite tail_set_tail_eq by (simpl; rewrite ?length_alter; lia)
    | rewrite enabled_set_enabled_eq by (simpl; rewrite ?length_alter; lia) ].
Ltac hs := repeat hs_step.

(** ** The heap shape is kept by detach *)

Lemma valid_of_next h n m : next_of h n = Some m → n < length (bindings h).
Proof.
  unfold next_of. destruct (bindings h !! n) eqn:E; [|done].
  intros _. by eapply lookup_lt_Some.
Qed.
Lemma valid_of_prev h n m : prev_of h n = Some m → n < length (bindings h).
Proof.
  unfold prev_of. destruct (bindings h !! n) eqn:E; [|done].
  intros _. by eapply lookup_lt_Some.
Qed.
Lemma valid_of_owner h n s : owner_of h n = Some s → n < length (bindings h).
Proof.
  unfold owner_of. destruct (bindings h !! n) eqn:E; [|done].
  intros _. by eapply lookup_lt_Some.
Qed.
Lemma valid_of_head h s n : head_of h s = Some n → s < length (signals h).
Proof.
  unfold head_of. destruct (signals h !! s) eqn:E; [|done].
  intros _. by eapply lookup_lt_Some.
Qed.
Lemma valid_of_tail h s n : tail_of h s = Some n → s < length (signals h).
Proof.
  unfold tail_of. destruct (signals h !! s) eqn:E; [|done].
  intros _. by eapply lookup_lt_Some.
Qed.

Lemma detach_inner h s x p nx :
  wf h → owner_of h x = Some s →
  prev_of h x = Some p → next_of h x = Some nx →
  detach s x h =
  set_owner x None (set_prev nx (Some p) (set_next p (Some nx) h)).
Proof.
  intros W Ho Ep En.
  pose proof (wf_prev_lt _ W _ _ Ep) as Lp.
  pose proof (wf_next_lt _ W _ _ En) as Ln.
  pose proof (proj2 (wf_head _ W _ _ Ho)) as Hh.
  pose proof (proj2 (wf_tail _ W _ _ Ho)) as Ht.
  unfold detach. rewrite bool_decide_eq_true_2 by done.
  rewrite Ep. cbv zeta. hs. rewrite En. hs. rewrite Ep.
  rewrite bool_decide_eq_false_2 by (intros E; apply Hh in E; congruence).
  rewrite bool_decide_eq_false_2 by (intros E; apply Ht in E; congruence).
  done.
Qed.

Lemma detach_last h s x p :
  wf h → owner_of h x = Some s →
  prev_of h x = Some p → next_of h x = None →
  detach s x h =
  set_owner x None (set_next p None (set_tail s (Some p) (set_next p None h))).
Proof.
  intros W Ho Ep En.
  pose proof (wf_prev_lt _ W _ _ Ep) as Lp.
  pose proof (valid_of_owner _ _ _ Ho) as Vx.
  pose proof (wf_owner_valid _ W _ _ Ho) as Vs.
  pose proof (proj2 (wf_head _ W _ _ Ho)) as Hh.
  pose proof (proj1 (wf_tail _ W _ _ Ho)) as Ht.
  unfold detach. rewrite bool_decide_eq_true_2 by done.
  rewrite Ep. cbv zeta. hs. rewrite En. hs.
  rewrite bool_decide_eq_false_2 by (intros E; apply Hh in E; congruence).
  rewrite bool_decide_eq_true_2 by auto.
  rewrite Ep. hs. done.
Qed.

Lemma detach_first h s x nx :
  wf h → owner_of h x = Some s →
  prev_of h x = None → next_of h x = Some nx →
  detach s x h = set_owner x None (set_head s (Some nx) (set_prev nx None h)).
Proof.
  intros W Ho Ep En.
  pose proof (wf_next_lt _ W _ _ En) as Ln.
  pose proof (valid_of_owner _ _ _ Ho) as Vx.
  pose proof (wf_owner_valid _ W _ _ Ho) as Vs.
  pose proof (proj1 (wf_head _ W _ _ Ho)) as Hh.
  unfold detach. rewrite bool_decide_eq_true_2 by done.
  rewrite Ep. cbv zeta. rewrite En. hs. rewrite Ep.
  rewrite bool_decide_eq_true_2 by auto.
  rewrite En. hs. rewrite ?En. done.
Qed.

Lemma detach_only h s x :
  wf h → owner_of h x = Some s →
  prev_of h x = None → next_of h x = None →
  detach s x h = set_owner x None (set_tail s None (set_head s None h)).
Proof.
  intros W Ho Ep En.
  pose proof (proj1 (wf_head _ W _ _ Ho)) as Hh.
  unfold detach. rewrite bool_decide_eq_true_2 by done.
  rewrite Ep. cbv zeta. rewrite En.
  rewrite bool_decide_eq_true_2 by auto.
  hs. rewrite ?En. done.
Qed.

Lemma detach_not_owner h s x : owner_of h x ≠ Some s → detach s x h = h.
Proof. intros. unfold detach. by rewrite bool_decide_eq_false_2. Qed.

Ltac neqs :=
  repeat match goal with
  | H : Some ?a ≠ Some ?b |- _ => assert (a ≠ b) by congruence; clear H
  end.

Ltac leaf :=
  first [ done | congruence | lia
        | simpl in *; rewrite ?length_alter in *; lia ].

(** Propositional reasoning over the hypotheses at hand, without
    instantiating any quantifier. *)
Ltac contra := solve [ exfalso; intuition leaf ].

Ltac learn H :=
  let T := type of H in
  lazymatch goal with
  | _ : T |- _ => fail
  | _ => pose proof H
  end.

(** Forward chaining over the clauses of [wf]. *)
Ltac wf_sat :=
  repeat match goal with
  | W : wf ?h, Ho : owner_of ?h ?n = Some ?s, Hn : next_of ?h ?n = Some ?m |- _ =>
      first [ learn (proj1 (wf_next_owned h W n s m Ho Hn))
            | learn (proj2 (wf_next_owned h W n s m Ho Hn)) ]
  | W : wf ?h, Ho : owner_of ?h ?n = Some ?s, Hn : prev_of ?h ?n = Some ?m |- _ =>
      first [ learn (proj1 (wf_prev_owned h W n s m Ho Hn))
            | learn (proj2 (wf_prev_owned h W n s m Ho Hn)) ]
  | W : wf ?h, Hn : next_of ?h ?n = Some ?m |- _ =>
      learn (wf_next_lt h W n m Hn)
  | W : wf ?h, Hn : prev_of ?h ?n = Some ?m |- _ =>
      learn (wf_prev_lt h W n m Hn)
  | W : wf ?h, Hn : head_of ?h ?s = Some ?n |- _ =>
      learn (wf_head_owned h W s n Hn)
  | W : wf ?h, Hn : tail_of ?h ?s = Some ?n |- _ =>
      learn (wf_tail_owned h W s n Hn)
  | W : wf ?h, Ho : owner_of ?h ?n = Some ?s, Hn : prev_of ?h ?n = None |- _ =>
      learn (proj1 (wf_head h W n s Ho) Hn)
  | W : wf ?h, Ho : owner_of ?h ?n = Some ?s, Hn : head_of ?h ?s = Some ?n |- _ =>
      learn (proj2 (wf_head h W n s Ho) Hn)
  | W : wf ?h, Ho : owner_of ?h ?n = Some ?s, Hn : next_of ?h ?n = None |- _ =>
      learn (proj1 (wf_tail h W n s Ho) Hn)
  | W : wf ?h, Ho : owner_of ?h ?n = Some ?s, Hn : tail_of ?h ?s = Some ?n |- _ =>
      learn (proj2 (wf_tail h W n s Ho) Hn)
  | W : wf ?h, Hn : head_of ?h ?s = None |- _ =>
      learn (proj1 (wf_empty h W s) Hn)
  | W : wf ?h, Hn : tail_of ?h ?s = None |- _ =>
      learn (proj2 (wf_empty h W s) Hn)
  | W : wf ?h, Ho : owner_of ?h ?n = Some ?s |- _ =>
      first [ learn (wf_owner_valid h W n s Ho)
            | learn (valid_of_owner h n s Ho) ]
  end.

Ltac wf_close :=
  destruct_and?; wf_sat; simplify_eq; try done; try lia; try congruence;
  try (repeat split; congruence).

Ltac fields_tac s :=
  repeat split; let k := fresh "k" in intros k;
  destruct (decide (k = s)) as [->|?];
  repeat case_decide; destruct_and?; simplify_eq; neqs; wf_sat; hs;
  try done; try congruence; try contra.

Lemma detach_fields h s x :
  wf h → owner_of h x = Some s →
  (∀ n, next_of (detach s x h) n =
        if decide (prev_of h x = Some n) then next_of h x else next_of h n) ∧
  (∀ n, prev_of (detach s x h) n =
        if decide (next_of h x = Some n) then prev_of h x else prev_of h n) ∧
  (∀ n, owner_of (detach s x h) n =
        if decide (n = x) then None else owner_of h n) ∧
  (∀ s', head_of (detach s x h) s' =
        if decide (head_of h s' = Some x) then next_of h x else head_of h s') ∧
  (∀ s', tail_of (detach s x h) s' =
        if decide (tail_of h s' = Some x) then prev_of h x else tail_of h s').
Proof.
  intros W Ho.
  pose proof (valid_of_owner _ _ _ Ho) as Vx.
  pose proof (wf_owner_valid _ W _ _ Ho) as Vs.
  pose proof (wf_head _ W _ _ Ho) as Hh.
  pose proof (wf_tail _ W _ _ Ho) as Ht.
  assert (Hhs : ∀ s', head_of h s' = Some x → s' = s).
  { intros s' E. apply (wf_head_owned _ W) in E. congruence. }
  assert (Hts : ∀ s', tail_of h s' = Some x → s' = s).
  { intros s' E. apply (wf_tail_owned _ W) in E. congruence. }
  destruct (prev_of h x) as [p|] eqn:Ep; destruct (next_of h x) as [nx|] eqn:En.
  - rewrite (detach_inner h s x p nx) by done.
    pose proof (wf_prev_lt _ W _ _ Ep) as Lp.
    pose proof (wf_next_lt _ W _ _ En) as Ln.
    repeat split; intros k; destruct (decide (k = s)) as [->|Hks];
      repeat case_decide; simplify_eq; neqs; hs; try done;
      try (exfalso; apply Hks; first [by apply Hhs | by apply Hts]); contra.
  - rewrite (detach_last h s x p) by done.
    pose proof (wf_prev_lt _ W _ _ Ep) as Lp.
    repeat split; intros k; destruct (decide (k = s)) as [->|Hks];
      repeat case_decide; simplify_eq; neqs; hs; try done;
      try (exfalso; apply Hks; first [by apply Hhs | by apply Hts]); contra.
  - rewrite (detach_first h s x nx) by done.
    pose proof (wf_next_lt _ W _ _ En) as Ln.
    repeat split; intros k; destruct (decide (k = s)) as [->|Hks];
      repeat case_decide; simplify_eq; neqs; hs; try done;
      try (exfalso; apply Hks; first [by apply Hhs | by apply Hts]); contra.
  - rewrite (detach_only h s x) by done.
    repeat split; intros k; destruct (decide (k = s)) as [->|Hks];
      repeat case_decide; simplify_eq; neqs; hs; try done;
      try (exfalso; apply Hks; first [by apply Hhs | by apply Hts]); contra.
Qed.

Lemma detach_static h s x :
  length (bindings (detach s x h)) = length (bindings h) ∧
  length (signals (detach s x h)) = length (signals h) ∧
  promises (detach s x h) = promises h ∧
  user (detach s x h) = user h ∧
  (∀ n, once_of (detach s x h) n = once_of h n) ∧
  (∀ n, fn_of (detach s x h) n = fn_of h n) ∧
  (∀ n, this_of (detach s x h) n = this_of h n) ∧
  (∀ s', enabled_of (detach s x h) s' = enabled_of h s').
Proof.
  unfold detach.
  repeat first [ case_bool_decide | case_match ];
    repeat split; intros; hs; done.
Qed.

Lemma wf_detach h s x : wf h → wf (detach s x h).
Proof.
  intros W.
  destruct (decide (owner_of h x = Some s)) as [Ho|Ho];
    [|by rewrite detach_not_owner].
  destruct (detach_fields h s x W Ho) as (Fn & Fp & Fo & Fh & Ft).
  destruct (detach_static h s x) as (Lb & Ls & _).
  split.
  - intros n m. rewrite Fn, Lb. case_decide; intros E; wf_close.
  - intros n m. rewrite Fp. case_decide; intros E; wf_close.
  - intros n s'. rewrite Fo, Ls. case_decide; intros; wf_close.
  - intros n s' m. rewrite Fo, Fn, Fo, Fp.
    repeat case_decide; intros; wf_close.
  - intros n s' m. rewrite Fo, Fp, Fo, Fn.
    repeat case_decide; intros; wf_close.
  - intros n s'. rewrite Fo, Fp, Fh.
    repeat case_decide; intros; wf_close.
    all: try (split; intros; wf_close).
  - intros n s'. rewrite Fo, Fn, Ft.
    repeat case_decide; intros; wf_close.
    all: try (split; intros; wf_close).
  - intros s' n. rewrite Fh, Fo.
    repeat case_decide; intros; wf_close.
  - intros s' n. rewrite Ft, Fo.
    repeat case_decide; intros; wf_close.
  - intros s'. rewrite Fh, Ft.
    repeat case_decide; intros; wf_close.
    all: try (split; intros; wf_close).
Qed.

(** ** The heap shape is kept by add and once *)

Lemma lookup_snoc_dec {A} (l : list A) (x : A) (n : nat) :
  (l ++ [x]) !! n = if decide (n = length l) then Some x else l !! n.
Proof.
  case_decide as E.
  - subst. by rewrite lookup_app_r, Nat.sub_diag by lia.
  - destruct (decide (n < length l)).
    + by rewrite lookup_app_l.
    + rewrite !lookup_ge_None_2; [done|lia|]. rewrite length_app. simpl. lia.
Qed.

Lemma new_binding_fields f o this h :
  let h0 := (new_binding f o this h).2 in
  (∀ n, next_of h0 n = next_of h n) ∧
  (∀ n, prev_of h0 n = prev_of h n) ∧
  (∀ n, owner_of h0 n = owner_of h n) ∧
  (∀ s, head_of h0 s = head_of h s) ∧
  (∀ s, tail_of h0 s = tail_of h s) ∧
  (∀ s, enabled_of h0 s = enabled_of h s) ∧
  length (bindings h0) = S (length (bindings h)) ∧
  length (signals h0) = length (signals h) ∧
  (∀ n, once_of h0 n = if decide (n = length (bindings h)) then o else once_of h n) ∧
  (∀ n, fn_of h0 n = if decide (n = length (bindings h)) then f else fn_of h n) ∧
  (∀ n, this_of h0 n = if decide (n = length (bindings h)) then this else this_of h n).
Proof.
  simpl. repeat split; try done; try intros n;
    unfold next_of, prev_of, owner_of, once_of, fn_of, this_of; simpl;
    rewrite ?lookup_snoc_dec, ?length_app; simpl; try lia;
    case_decide; subst; simpl; try done;
    by rewrite lookup_ge_None_2.
Qed.

Lemma add_binding_fields h s b :
  wf h → s < length (signals h) → b < length (bindings h) →
  owner_of h b = None → next_of h b = None → prev_of h b = None →
  (∀ n m, next_of h n = Some m → m ≠ b) →
  (∀ n m, prev_of h n = Some m → m ≠ b) →
  let h' := _addSignalBinding s b h in
  (∀ n, next_of h' n =
        if decide (tail_of h s = Some n) then Some b else next_of h n) ∧
  (∀ n, prev_of h' n = if decide (n = b) then tail_of h s else prev_of h n) ∧
  (∀ n, owner_of h' n = if decide (n = b) then Some s else owner_of h n) ∧
  (∀ s', head_of h' s' =
        if decide (s' = s ∧ head_of h s = None) then Some b else head_of h s') ∧
  (∀ s', tail_of h' s' = if decide (s' = s) then Some b else tail_of h s').
Proof.
  intros W Vs Vb Ho En Ep Hn Hp. unfold _addSignalBinding. simpl.
  destruct (head_of h s) as [hd|] eqn:Eh.
  - destruct (tail_of h s) as [t|] eqn:Et.
    2:{ apply (wf_empty _ W) in Et. congruence. }
    assert (t ≠ b). { intros ->. wf_sat. congruence. }
    hs. rewrite Et.
    fields_tac s.
  - assert (Et : tail_of h s = None) by by apply (wf_empty _ W).
    fields_tac s.
Qed.

Lemma add_binding_static h s b :
  length (bindings (_addSignalBinding s b h)) = length (bindings h) ∧
  length (signals (_addSignalBinding s b h)) = length (signals h) ∧
  promises (_addSignalBinding s b h) = promises h ∧
  user (_addSignalBinding s b h) = user h ∧
  (∀ n, once_of (_addSignalBinding s b h) n = once_of h n) ∧
  (∀ n, fn_of (_addSignalBinding s b h) n = fn_of h n) ∧
  (∀ n, this_of (_addSignalBinding s b h) n = this_of h n) ∧
  (∀ s', enabled_of (_addSignalBinding s b h) s' = enabled_of h s').
Proof.
  unfold _addSignalBinding.
  repeat case_match; repeat split; intros; hs; done.
Qed.

(** The heap after [add] or [once], field by field. *)
Lemma new_fields h s f o this :
  wf h → s < length (signals h) →
  let b := length (bindings h) in
  let h' := _addSignalBinding s b (new_binding f o this h).2 in
  (∀ n, next_of h' n =
        if decide (tail_of h s = Some n) then Some b else next_of h n) ∧
  (∀ n, prev_of h' n = if decide (n = b) then tail_of h s else prev_of h n) ∧
  (∀ n, owner_of h' n = if decide (n = b) then Some s else owner_of h n) ∧
  (∀ s', head_of h' s' =
        if decide (s' = s ∧ head_of h s = None) then Some b else head_of h s') ∧
  (∀ s', tail_of h' s' = if decide (s' = s) then Some b else tail_of h s') ∧
  length (bindings h') = S b ∧
  length (signals h') = length (signals h).
Proof.
  intros W Vs b h'.
  destruct (new_binding_fields f o this h)
    as (Fn & Fp & Fo & Fh & Ft & Fe & Lb & Ls & _).
  set (h0 := (new_binding f o this h).2) in *.
  assert (W0 : wf h0).
  { destruct W as [W1 W2 W3 W4 W5 W6 W7 W8 W9 W10].
    split; intros *; rewrite ?Fn, ?Fp, ?Fo, ?Fh, ?Ft, ?Lb, ?Ls; eauto.
    intros E. apply W1 in E. lia. }
  assert (Hfresh : ∀ n, b ≤ n →
            owner_of h n = None ∧ next_of h n = None ∧ prev_of h n = None).
  { intros n Hn. unfold owner_of, next_of, prev_of.
    by rewrite lookup_ge_None_2. }
  destruct (Hfresh b) as (Ho & En & Ep); [done|].
  destruct (add_binding_fields h0 s b) as (Gn & Gp & Go & Gh & Gt);
    rewrite ?Fn, ?Fp, ?Fo, ?Ls, ?Lb; try done; try lia.
  - intros n m E. rewrite Fn in E. apply (wf_next_lt _ W) in E. fold b in E. lia.
  - intros n m E. rewrite Fp in E.
    pose proof (wf_prev_lt _ W _ _ E). pose proof (valid_of_prev _ _ _ E).
    fold b in H0. lia.
  - destruct (add_binding_static h0 s b) as (Mb & Ms & _).
    fold h' in Gn, Gp, Go, Gh, Gt, Mb, Ms.
    repeat split; intros; rewrite ?Gn, ?Gp, ?Go, ?Gh, ?Gt, ?Fn, ?Fp, ?Fo, ?Fh, ?Ft;
      try done; try congruence; subst b; lia.
Qed.

Lemma wf_new h s f o this :
  wf h → s < length (signals h) →
  wf (_addSignalBinding s (length (bindings h)) (new_binding f o this h).2).
Proof.
  intros W Vs.
  destruct (new_fields h s f o this W Vs) as (Fn & Fp & Fo & Fh & Ft & Lb & Ls).
  assert (Hfresh : ∀ n, length (bindings h) ≤ n →
            owner_of h n = None ∧ next_of h n = None ∧ prev_of h n = None).
  { intros n Hn. unfold owner_of, next_of, prev_of.
    by rewrite lookup_ge_None_2. }
  destruct (Hfresh _ (Nat.le_refl _)) as (Ho & En & Ep).
  split.
  - intros n m. rewrite Fn, Lb. case_decide; intros E; wf_close.
  - intros n m. rewrite Fp. case_decide; intros E; wf_close.
  - intros n s'. rewrite Fo, Ls. case_decide; intros; wf_close.
  - intros n s' m. rewrite Fo, Fn, Fo, Fp.
    repeat case_decide; intros; wf_close.
  - intros n s' m. rewrite Fo, Fp, Fo, Fn.
    repeat case_decide; intros; wf_close.
  - intros n s'. rewrite Fo, Fp, Fh.
    repeat case_decide; intros; destruct_and?; wf_close.
    all: try (split; intros; wf_close).
    all: try contra.
  - intros n s'. rewrite Fo, Fn, Ft.
    repeat case_decide; intros; wf_close.
    all: try (split; intros; wf_close).
    all: try contra.
  - intros s' n. rewrite Fh, Fo.
    repeat case_decide; intros; wf_close.
  - intros s' n. rewrite Ft, Fo.
    repeat case_decide; intros; wf_close.
  - intros s'. rewrite Fh, Ft.
    repeat case_decide; intros; wf_close.
    all: try (split; intros; wf_close).
    all: try contra.
Qed.

(** ** The heap shape is kept by the other operations *)

Lemma wf_same_links h h' : same_links h h' → wf h → wf h'.
Proof.
  intros (Fn & Fp & Fo & Fh & Ft & Lb & Ls) [W1 W2 W3 W4 W5 W6 W7 W8 W9 W10].
  split; intros *; rewrite ?Fn, ?Fp, ?Fo, ?Fh, ?Ft; eauto.
  - intros E. apply W1 in E. lia.
  - intros E. apply W3 in E. lia.
Qed.

Lemma same_links_new_signal h : same_links h (new_signal h).2.
Proof.
  unfold same_links, head_of, tail_of. simpl.
  rewrite length_app. simpl.
  repeat split; try done; try lia; intros s; rewrite lookup_snoc_dec;
    case_decide; subst; try done; by rewrite lookup_ge_None_2.
Qed.

Lemma same_links_set_enabled h s v : same_links h (set_enabled s v h).
Proof. unfold same_links. repeat split; intros; hs; done. Qed.

Lemma same_links_set_user h u : same_links h (set_user u h).
Proof. unfold same_links. repeat split; intros; done. Qed.

Lemma same_links_new_promise h : same_links h (new_promise h).2.
Proof. unfold same_links. repeat split; intros; done. Qed.

Lemma same_links_reject h p e : same_links h (reject p e h).
Proof.
  unfold reject. repeat case_match; unfold same_links; repeat split; done.
Qed.

Lemma same_links_resolve st p : same_links (heap st) (heap (resolve p st)).
Proof.
  unfold resolve. repeat case_match; unfold same_links; repeat split; done.
Qed.

Lemma wf_empty_heap : wf empty_heap.
Proof. split; intros *; unfold_heap; try done. Qed.

(** ** Walking the list *)

Lemma reach_trans h a b c : reach h a b → reach h b c → reach h a c.
Proof. induction 1; [done|]. intros. eapply reach_step; eauto. Qed.

Lemma reach_snoc h a b c : reach h a b → next_of h b = Some c → reach h a c.
Proof.
  intros R E. eapply reach_trans; [done|].
  eapply reach_step; [done|]. constructor.
Qed.

Lemma reach_le h a b : wf h → reach h a b → a ≤ b.
Proof.
  intros W. induction 1; [done|].
  pose proof (wf_next_lt _ W _ _ H). lia.
Qed.

Lemma reach_owned h s a b :
  wf h → owner_of h a = Some s → reach h a b → owner_of h b = Some s.
Proof.
  intros W Ho R. induction R; [done|].
  apply IHR. by apply (wf_next_owned _ W _ _ _ Ho).
Qed.

(** Every binding a signal owns is on the walk from its head. *)
Lemma owned_reach h s k :
  wf h → owner_of h k = Some s →
  ∃ hd, head_of h s = Some hd ∧ reach h hd k.
Proof.
  intros W. induction k as [k IH] using lt_wf_ind. intros Ho.
  destruct (prev_of h k) as [j|] eqn:Ep.
  - destruct (wf_prev_owned _ W _ _ _ Ho Ep) as [Hj Hn].
    pose proof (wf_prev_lt _ W _ _ Ep).
    destruct (IH j) as (hd & Hh & R); [done..|].
    exists hd. split; [done|]. by eapply reach_snoc.
  - exists k. split; [|constructor]. by apply (wf_head _ W).
Qed.

Lemma handlers_loop_spec h s fuel n :
  wf h → owner_of h n = Some s → length (bindings h) - n ≤ fuel →
  ∃ l, handlers_loop (S fuel) h (Some n) = Some (n :: l) ∧
       Forall (λ k, n < k) l ∧
       NoDup (n :: l) ∧
       (∀ k, k ∈ n :: l ↔ reach h n k) ∧
       last (n :: l) = tail_of h s ∧
       (∀ i k, (n :: l) !! i = Some k → next_of h k = (n :: l) !! S i) ∧
       (∀ i k, (n :: l) !! S i = Some k → prev_of h k = (n :: l) !! i).
Proof.
  intros W. revert n. induction fuel as [|fuel IH]; intros n Ho Hf.
  { pose proof (valid_of_owner _ _ _ Ho). lia. }
  cbn [handlers_loop].
  destruct (next_of h n) as [m|] eqn:En.
  - destruct (wf_next_owned _ W _ _ _ Ho En) as [Hom Hpm].
    pose proof (wf_next_lt _ W _ _ En) as Lm.
    destruct (IH m) as (l & E & Hlt & Hnd & Hr & Hl & Hnx & Hpv);
      [done|lia|].
    cbn [handlers_loop] in E. rewrite E. simpl.
    exists (m :: l). split; [done|].
    assert (Hall : Forall (λ k, n < k) (m :: l)).
    { constructor; [lia|]. eapply Forall_impl; [done|]. simpl. lia. }
    split; [done|]. split.
    { constructor; [|done]. intros Hin.
      rewrite Forall_forall in Hall. apply Hall in Hin. lia. }
    split.
    { intros k. rewrite elem_of_cons, Hr. split.
      - intros [->|R]; [constructor|]. by eapply reach_step.
      - inversion 1; subst; [by left|]. right. congruence. }
    split; [done|]. split.
    + intros [|i] k; simpl; intros E'.
      * by simplify_eq.
      * by apply Hnx in E'.
    + intros [|i] k; simpl; intros E'.
      * by simplify_eq.
      * by apply Hpv in E'.
  - simpl. exists []. split; [done|]. split; [done|]. split.
    { constructor; [by intros ?%elem_of_nil|constructor]. }
    split.
    { intros k. rewrite list_elem_of_singleton. split.
      - intros ->. constructor.
      - inversion 1; subst; [done|congruence]. }
    split.
    { simpl. symmetry. by apply (wf_tail _ W). }
    split.
    + intros [|i] k; simpl; intros E'; by simplify_eq.
    + intros [|i] k; simpl; intros E'; by simplify_eq.
Qed.

(** Under [wf], handlers() ends and returns exactly the bindings the
    signal owns, in list order. *)
Lemma handlers_spec h s :
  wf h →
  ∃ l, handlers s h = Some l ∧
       head_of h s = head l ∧
       tail_of h s = last l ∧
       NoDup l ∧
       mirrored h l ∧
       (∀ k, k ∈ l ↔ owner_of h k = Some s).
Proof.
  intros W. unfold handlers.
  destruct (head_of h s) as [hd|] eqn:Eh.
  - pose proof (wf_head_owned _ W _ _ Eh) as Ho.
    destruct (handlers_loop_spec h s (length (bindings h)) hd W Ho)
      as (l & E & Hlt & Hnd & Hr & Hl & Hnx & Hpv); [lia|].
    exists (hd :: l). split; [done|]. split; [done|]. split; [done|].
    split; [done|]. split.
    + intros i k E'. split; [by apply Hnx|].
      destruct i as [|j]; [|by apply Hpv].
      simpl in E'. simplify_eq. by apply (wf_head _ W _ s).
    + intros k. rewrite Hr. split.
      * by apply reach_owned.
      * intros Hk. destruct (owned_reach h s k W Hk) as (hd' & E' & R).
        congruence.
  - exists []. simpl. split; [done|]. split; [done|].
    split; [by apply (wf_empty _ W)|]. split; [constructor|]. split.
    + intros i k E'. by rewrite lookup_nil in E'.
    + intros k. split; [by intros ?%elem_of_nil|].
      intros Hk. destruct (owned_reach h s k W Hk) as (hd' & E' & R).
      congruence.
Qed.

Lemma wf_signal_inv h s : wf h → signal_inv h s.
Proof.
  intros W. destruct (handlers_spec h s W) as (l & E & Hh & Ht & Hnd & Hm & Ho).
  exists l. split; [done|]. rewrite Hh, Ht.
  split; [by destruct l|]. split.
  { split; [by intros ->|]. intros E'. by apply last_None in E'. }
  split; [done|]. split; [done|]. split; [done|].
  intros n. apply Ho.
Qed.

(** detachAll walks the list handlers() returns. *)
Lemma detachAll_loop_handlers fuel h h1 cur l :
  handlers_loop fuel h cur = Some l →
  (∀ n, next_of h1 n = next_of h n) →
  detachAll_loop fuel cur h1 =
  Some (foldl (λ a n, set_owner n None a) h1 l).
Proof.
  revert h1 cur l. induction fuel as [|fuel IH]; intros h1 cur l E Hn.
  - destruct cur; simpl in *; by simplify_eq.
  - destruct cur as [n|]; simpl in *; [|by simplify_eq].
    destruct (handlers_loop fuel h (next_of h n)) as [l'|] eqn:E'; [|done].
    simpl in E. simplify_eq. simpl. rewrite next_set_owner, Hn.
    apply IH; [done|]. intros k. by rewrite next_set_owner.
Qed.

Lemma foldl_set_owner_fields h l :
  let h' := foldl (λ a n, set_owner n None a) h l in
  (∀ n, next_of h' n = next_of h n) ∧
  (∀ n, prev_of h' n = prev_of h n) ∧
  (∀ n, owner_of h' n = if decide (n ∈ l) then None else owner_of h n) ∧
  (∀ s, head_of h' s = head_of h s) ∧
  (∀ s, tail_of h' s = tail_of h s) ∧
  (∀ s, enabled_of h' s = enabled_of h s) ∧
  (∀ n, once_of h' n = once_of h n) ∧
  (∀ n, fn_of h' n = fn_of h n) ∧
  (∀ n, this_of h' n = this_of h n) ∧
  length (bindings h') = length (bindings h) ∧
  length (signals h') = length (signals h) ∧
  promises h' = promises h ∧ user h' = user h.
Proof.
  revert h. induction l as [|x l IH]; intros h; simpl.
  - repeat split; try done.
  - destruct (IH (set_owner x None h))
      as (F1 & F2 & F3 & F4 & F5 & F6 & F7 & F8 & F9 & F10 & F11 & F12 & F13).
    repeat split; intros; rewrite ?F1, ?F2, ?F3, ?F4, ?F5, ?F6, ?F7, ?F8,
      ?F9, ?F10, ?F11, ?F12, ?F13; hs; try done.
    rewrite owner_set_owner.
    destruct (decide (n ∈ l)) as [Hl|Hl];
      destruct (decide (n ∈ x :: l)) as [Hx|Hx];
      destruct (decide (n = x ∧ x < length (bindings h))) as [Hv|Hv];
      try done.
    + exfalso. apply Hx. by right.
    + exfalso. apply Hx. by right.
    + apply elem_of_cons in Hx as [->|]; [|done].
      unfold owner_of. rewrite lookup_ge_None_2; [done|].
      destruct (decide (x < length (bindings h))); [|lia].
      exfalso. by apply Hv.
    + destruct Hv as [-> _]. exfalso. apply Hx. by left.
Qed.

(** The heap after detachAll, field by field. *)
Lemma detachAll_fields h s :
  wf h →
  ∃ h', detachAll s h = Some h' ∧
    (∀ n, next_of h' n = next_of h n) ∧
    (∀ n, prev_of h' n = prev_of h n) ∧
    (∀ n, owner_of h' n =
          if decide (owner_of h n = Some s) then None else owner_of h n) ∧
    (∀ s', head_of h' s' = if decide (s' = s) then None else head_of h s') ∧
    (∀ s', tail_of h' s' = if decide (s' = s) then None else tail_of h s') ∧
    (∀ s', enabled_of h' s' = enabled_of h s') ∧
    (∀ n, once_of h' n = once_of h n) ∧
    (∀ n, fn_of h' n = fn_of h n) ∧
    (∀ n, this_of h' n = this_of h n) ∧
    length (bindings h') = length (bindings h) ∧
    length (signals h') = length (signals h) ∧
    promises h' = promises h ∧ user h' = user h.
Proof.
  intros W. destruct (handlers_spec h s W) as (l & E & Hh & Ht & Hnd & Hm & Ho).
  unfold detachAll. destruct (head_of h s) as [hd|] eqn:Eh.
  - unfold handlers in E. rewrite Eh in E.
    erewrite detachAll_loop_handlers; [|done|by intros; hs].
    eexists. split; [done|].
    destruct (foldl_set_owner_fields (set_tail s None (set_head s None h)) l)
      as (F1 & F2 & F3 & F4 & F5 & F6 & F7 & F8 & F9 & F10 & F11 & F12 & F13).
    pose proof (valid_of_head _ _ _ Eh) as Vs.
    repeat split; intros; rewrite ?F1, ?F2, ?F3, ?F4, ?F5, ?F6, ?F7, ?F8,
      ?F9, ?F10, ?F11, ?F12, ?F13; hs; try done.
    + destruct (decide (n ∈ l)) as [Hl|Hl]; rewrite Ho in Hl;
        case_decide; try done; contra.
    + rewrite head_set_head. repeat case_decide; hs; try done; contra.
    + rewrite tail_set_tail. repeat case_decide; hs; try done; contra.
  - exists h. split; [done|].
    assert (Et : tail_of h s = None) by by apply (wf_empty _ W).
    destruct l; [|done].
    repeat split; intros; try done; case_decide; subst; try done.
    exfalso. apply Ho in H. by apply elem_of_nil in H.
Qed.

Lemma wf_detachAll h s h' : wf h → detachAll s h = Some h' → wf h'.
Proof.
  intros W E.
  destruct (detachAll_fields h s W)
    as (h'' & E' & Fn & Fp & Fo & Fh & Ft & _ & _ & _ & _ & Lb & Ls & _).
  simplify_eq. split.
  - intros n m. rewrite Fn, Lb. intros; wf_close.
  - intros n m. rewrite Fp. intros; wf_close.
  - intros n s'. rewrite Fo, Ls. case_decide; intros; wf_close.
  - intros n s' m. rewrite Fo, Fn, Fo, Fp.
    repeat case_decide; intros; wf_close.
  - intros n s' m. rewrite Fo, Fp, Fo, Fn.
    repeat case_decide; intros; wf_close.
  - intros n s'. rewrite Fo, Fp, Fh.
    repeat case_decide; intros; wf_close.
    all: try (split; intros; wf_close).
  - intros n s'. rewrite Fo, Fn, Ft.
    repeat case_decide; intros; wf_close.
    all: try (split; intros; wf_close).
  - intros s' n. rewrite Fh, Fo.
    repeat case_decide; intros; wf_close.
  - intros s' n. rewrite Ft, Fo.
    repeat case_decide; intros; wf_close.
  - intros s'. rewrite Fh, Ft.
    repeat case_decide; intros; wf_close.
    all: try (split; intros; wf_close).
Qed.

(** ** The heap shape is kept by user code and by dispatch *)

Section RunWf.
Variable env : Handlers.

Lemma wf_binding_detach h b : wf h → wf (binding_detach b h).2.
Proof.
  intros W. unfold binding_detach. destruct (owner_of h b); [|done].
  by apply wf_detach.
Qed.

Lemma async_dispatch_with_wf base s args st r st' :
  keeps wf base → wf (heap st) →
  async_dispatch_with base s args st = Some (r, st') → wf (heap st').
Proof.
  intros Hb W. unfold async_dispatch_with.
  destruct (enabled_of (heap st) s); [|by intros; simplify_eq].
  simpl. intros E.
  destruct (base s _ _) as [[[|e] st1]|] eqn:Eb; simplify_eq.
  - eapply Hb; [|done]. simpl.
    eapply wf_same_links; [apply same_links_new_promise|done].
  - simpl. eapply wf_same_links; [apply same_links_reject|].
    eapply Hb; [|done]. simpl.
    eapply wf_same_links; [apply same_links_new_promise|done].
Qed.

Lemma exec_op_wf base op st r st' :
  keeps wf base → wf (heap st) →
  exec_op base op st = Some (r, st') → wf (heap st').
Proof.
  intros Hb W. unfold exec_op.
  destruct (op_ok (heap st) op) eqn:Eok; [|done]. simpl.
  destruct op; simpl; unfold op_ok in Eok; simpl in Eok;
    try apply bool_decide_eq_true_1 in Eok; intros E; simplify_eq; simpl;
    try done.
  - eapply wf_same_links; [apply same_links_new_signal|done].
  - by apply wf_new.
  - by apply wf_new.
  - by apply wf_detach.
  - pose proof (wf_binding_detach (heap st) b W) as Wb.
    destruct (binding_detach b (heap st)) as [r0 h0]. by simplify_eq.
  - destruct (detachAll s (heap st)) eqn:Ed; simpl in E; simplify_eq.
    simpl. by eapply wf_detachAll.
  - destruct (base s args st) as [[[|e] st1]|] eqn:Eb; simplify_eq;
      by eapply Hb.
  - destruct (async_dispatch_with base s args st) as [[a st1]|] eqn:Eb;
      simpl in E; simplify_eq.
    by eapply async_dispatch_with_wf.
  - eapply wf_same_links; [apply same_links_set_enabled|done].
  - destruct (handlers s (heap st)); simpl in E; by simplify_eq.
  - destruct v; simplify_eq; try done.
    eapply wf_same_links; [apply same_links_resolve|done].
  - eapply wf_same_links; [apply same_links_set_user|done].
Qed.

Lemma run_wf base p st r st' :
  keeps wf base → wf (heap st) →
  run base p st = Some (r, st') → wf (heap st').
Proof.
  intros Hb. revert st. induction p as [| |op k IH]; intros st W; simpl.
  - by intros; simplify_eq.
  - by intros; simplify_eq.
  - destruct (exec_op base op st) as [[[a|e] st1]|] eqn:Eo; [| |done].
    + apply IH. by eapply exec_op_wf.
    + intros; simplify_eq. by eapply exec_op_wf.
Qed.

Lemma dispatch_with_keeps loop :
  (∀ cur, keeps wf (λ s args, loop s args cur)) → keeps wf (dispatch_with loop).
Proof.
  intros Hl s args st r st' W. unfold dispatch_with.
  destruct (enabled_of (heap st) s); [|by intros; simplify_eq].
  destruct (head_of (heap st) s); [|by intros; simplify_eq].
  by apply Hl.
Qed.

Lemma dispatch_loop_wf fuel s args cur st r st' :
  wf (heap st) → dispatch_loop env fuel s args cur st = Some (r, st') →
  wf (heap st').
Proof.
  revert s args cur st r st'.
  induction fuel as [|fuel IH]; intros s args cur st r st' W;
    destruct cur as [n|]; simpl; try (by intros; simplify_eq).
  set (h1 := if once_of (heap st) n then detach s n (heap st) else heap st).
  assert (W1 : wf h1).
  { subst h1. destruct (once_of (heap st) n); [by apply wf_detach|done]. }
  destruct (run _ _ _) as [[[|e] st2]|] eqn:Er; [| |done].
  - intros E. eapply IH; [|done].
    eapply run_wf; [|..|done]; [|done].
    apply dispatch_with_keeps. intros c s0 a0 st0 r0 st0'. apply IH.
  - intros; simplify_eq.
    eapply run_wf; [|..|done]; [|done].
    apply dispatch_with_keeps. intros c s0 a0 st0 r0 st0'. apply IH.
Qed.

Lemma dispatch_wf fuel : keeps wf (dispatch env fuel).
Proof.
  apply dispatch_with_keeps. intros c s0 a0 st0 r0 st0'.
  apply dispatch_loop_wf.
Qed.

Lemma run_top_wf fuel p st r st' :
  wf (heap st) → run_top env fuel p st = Some (r, st') → wf (heap st').
Proof. apply run_wf, dispatch_wf. Qed.

End RunWf.

(** ** Detaching *)

Lemma owner_set_owner_None h n : owner_of (set_owner n None h) n = None.
Proof.
  rewrite owner_set_owner. case_decide as E; [done|].
  unfold owner_of. destruct (bindings h !! n) eqn:El; [|done].
  exfalso. apply E. split; [done|]. by eapply lookup_lt_Some.
Qed.

Lemma owner_detach_None h s b :
  owner_of h b = Some s → owner_of (detach s b h) b = None.
Proof.
  intros Ho. unfold detach. rewrite bool_decide_eq_true_2 by done.
  apply owner_set_owner_None.
Qed.

(** C7. Binding.detach on an attached binding returns true and clears the
    owner; called again it returns false and changes nothing, so the owner
    stays null. *)
Theorem binding_detach_twice h b s :
  owner_of h b = Some s →
  (binding_detach b h).1 = true ∧
  owner_of (binding_detach b h).2 b = None ∧
  binding_detach b (binding_detach b h).2 = (false, (binding_detach b h).2).
Proof.
  intros Ho. unfold binding_detach at 1 2 4 5. rewrite Ho. simpl.
  pose proof (owner_detach_None h s b Ho) as E.
  split; [done|]. split; [done|].
  unfold binding_detach. by rewrite E.
Qed.

Lemma binding_detach_twice_witness :
  owner_of heap_three 1 = Some 0 ∧
  (binding_detach 1 heap_three).1 = true ∧
  owner_of (binding_detach 1 heap_three).2 1 = None ∧
  binding_detach 1 (binding_detach 1 heap_three).2 =
    (false, (binding_detach 1 heap_three).2).
Proof.
  split; [reflexivity|]. apply (binding_detach_twice heap_three 1 0).
  reflexivity.
Defined.

(** C2, as stated, fails: after [s.detach(b)] on the middle one of three
    bindings, [b.next] and [b.prev] still point at its old neighbours. *)
Lemma detach_keeps_links_counterexample :
  owner_of heap_three 1 = Some 0 ∧
  ¬ (owner_of (detach 0 1 heap_three) 1 = None ∧
     next_of (detach 0 1 heap_three) 1 = None ∧
     prev_of (detach 0 1 heap_three) 1 = None).
Proof. split; [reflexivity|]. vm_compute. intros (_ & E & _). discriminate. Qed.

(** C2, amended. A detached binding has a null owner, and its [next] and
    [prev] are left as they were: through Signal.detach (which is also what
    dispatch calls on a once binding), through Binding.detach, and through
    detachAll. *)
Theorem detached_owner_null_links_kept h s b :
  wf h → owner_of h b = Some s →
  (owner_of (detach s b h) b = None ∧
   next_of (detach s b h) b = next_of h b ∧
   prev_of (detach s b h) b = prev_of h b) ∧
  (owner_of (binding_detach b h).2 b = None ∧
   next_of (binding_detach b h).2 b = next_of h b ∧
   prev_of (binding_detach b h).2 b = prev_of h b) ∧
  (∃ h', detachAll s h = Some h' ∧
     owner_of h' b = None ∧
     next_of h' b = next_of h b ∧
     prev_of h' b = prev_of h b).
Proof.
  intros W Ho.
  assert (D : owner_of (detach s b h) b = None ∧
              next_of (detach s b h) b = next_of h b ∧
              prev_of (detach s b h) b = prev_of h b).
  { destruct (detach_fields h s b W Ho) as (Fn & Fp & Fo & _).
    rewrite Fn, Fp, Fo. repeat case_decide; try done; wf_close. }
  split; [done|]. split.
  - unfold binding_detach. by rewrite Ho.
  - destruct (detachAll_fields h s W) as (h' & E & Fn & Fp & Fo & _).
    exists h'. split; [done|]. rewrite Fn, Fp, Fo.
    by rewrite decide_True.
Qed.

Lemma wf_heap_three : wf heap_three.
Proof.
  unfold heap_three.
  assert (W0 : wf (new_signal empty_heap).2).
  { eapply wf_same_links; [apply same_links_new_signal|apply wf_empty_heap]. }
  repeat (apply wf_new; [|vm_compute; lia]). done.
Qed.

Lemma detached_owner_null_links_kept_witness :
  owner_of (detach 0 1 heap_three) 1 = None ∧
  next_of (detach 0 1 heap_three) 1 = Some 2 ∧
  prev_of (detach 0 1 heap_three) 1 = Some 0.
Proof.
  pose proof (detached_owner_null_links_kept heap_three 0 1 wf_heap_three
                eq_refl) as [H _].
  exact H.
Defined.

(** C3. Every public operation keeps the invariant of every Signal:
    [_head] and [_tail] null together exactly when the list is empty, the
    walk from [_head] ends at [_tail] without passing a binding twice,
    [prev] mirrors [next], and every binding on the list is owned by the
    signal.  The operation is any call of the API ([exec_op]: add, once,
    detach, Binding.detach, detachAll, dispatch and AsyncSignal.dispatch
    with arbitrary handlers, the enabled flag), made on a heap the API
    built ([wf], which the operation keeps as well). *)
Theorem operations_preserve_invariant env fuel op st r st' :
  wf (heap st) →
  exec_op (dispatch env fuel) op st = Some (r, st') →
  wf (heap st') ∧ ∀ s, signal_inv (heap st') s.
Proof.
  intros W E.
  assert (W' : wf (heap st')).
  { eapply exec_op_wf; [apply dispatch_wf|done|done]. }
  split; [done|]. intros s. by apply wf_signal_inv.
Qed.

Lemma operations_preserve_invariant_witness :
  wf (heap (mkState (detach 0 1 heap_three) [])) ∧
  ∀ s, signal_inv (heap (mkState (detach 0 1 heap_three) [])) s.
Proof.
  apply (operations_preserve_invariant env_idle 0 (OpDetach 0 1)
           (mkState heap_three []) (inl AUnit)).
  - exact wf_heap_three.
  - reflexivity.
Defined.

(** C4. The code breaks the claim: AsyncSignal.dispatch on an enabled
    signal with no handler bound calls nobody, so nobody calls [resolve],
    and the promise it awaits stays pending. *)
Theorem async_dispatch_no_handlers_pending env fuel s args h tr :
  enabled_of h s = true → head_of h s = None →
  ∃ st', async_dispatch env fuel s args (mkState h tr) =
           Some (Awaits (length (promises h)), st') ∧
         trace st' = tr ∧
         awaited (heap st') (Awaits (length (promises h))) = Pending.
Proof.
  intros En Eh. unfold async_dispatch, async_dispatch_with. simpl.
  rewrite En. unfold dispatch, dispatch_with. simpl.
  replace (enabled_of _ s) with true by done.
  replace (head_of _ s) with (@None nat) by done.
  eexists. split; [done|]. split; [done|]. simpl.
  by rewrite lookup_app_r, Nat.sub_diag by lia.
Qed.

Lemma async_dispatch_no_handlers_pending_witness :
  ∃ st', async_dispatch env_idle 5 0 [VNum 1] (mkState heap_lonely []) =
           Some (Awaits 0, st') ∧
         trace st' = [] ∧
         awaited (heap st') (Awaits 0) = Pending.
Proof.
  apply (async_dispatch_no_handlers_pending env_idle 5 0 [VNum 1]
           heap_lonely []); reflexivity.
Defined.

(** C1. The code breaks the claim when a handler dispatches again: [f0]
    dispatches the signal from inside its own call; the once binding of
    [f1] is called by the inner dispatch and, through the [next] link
    that the detached binding of [f0] keeps, once more by the outer
    one. *)
Lemma once_called_twice_counterexample :
  ∃ st, run_top env_redispatch 4 prog_once_twice init_state =
          Some (Normal, st) ∧
        once_of (heap st) 1 = true ∧
        count_calls 1 (trace st) = 2.
Proof. eexists. split; [vm_compute; reflexivity|]. split; reflexivity. Qed.

(** ** Handlers that leave the rest of the list alone *)

Lemma tame_post_refl n h : wf h → tame_post n h h.
Proof. intros W. split; try done. by left. Qed.

Lemma tame_post_trans n h1 h2 h3 :
  tame_post n h1 h2 → tame_post n h2 h3 → tame_post n h1 h3.
Proof.
  intros [A1 A2 A3 A4 A5 A6 A7 A8] [B1 B2 B3 B4 B5 B6 B7 B8].
  split; try done; try congruence; try (intros m; congruence).
  - intros m Hm. rewrite B2, A2; done.
  - intros m. destruct (B8 m) as [E|E]; rewrite E; [apply A8|by right].
Qed.

Lemma tame_post_le n n' h h' : n ≤ n' → tame_post n h h' → tame_post n' h h'.
Proof.
  intros Hn [A1 A2 A3 A4 A5 A6 A7 A8]. split; try done.
  intros m Hm. apply A2. lia.
Qed.

Lemma tame_post_same_links n h h' :
  same_links h h' → wf h →
  (∀ m, once_of h' m = once_of h m) → (∀ m, fn_of h' m = fn_of h m) →
  (∀ m, this_of h' m = this_of h m) →
  length (bindings h') = length (bindings h) →
  length (signals h') = length (signals h) →
  tame_post n h h'.
Proof.
  intros S W ?????. pose proof (wf_same_links _ _ S W).
  destruct S as (Fn & Fp & Fo & _). split; try done. by left.
Qed.

Lemma tame_post_detach n h s b : wf h → b ≤ n → tame_post n h (detach s b h).
Proof.
  intros W Hb.
  destruct (decide (owner_of h b = Some s)) as [Ho|Ho];
    [|rewrite detach_not_owner by done; by apply tame_post_refl].
  destruct (detach_fields h s b W Ho) as (Fn & Fp & Fo & Fh & Ft).
  destruct (detach_static h s b) as (Lb & Ls & _ & _ & F1 & F2 & F3 & _).
  split; try done.
  - by apply wf_detach.
  - intros m Hm. rewrite Fn. case_decide; [|done]. wf_close.
  - intros m. rewrite Fo. case_decide; [by right|by left].
Qed.

Lemma tame_post_detachAll n h s h' :
  wf h → detachAll s h = Some h' → tame_post n h h'.
Proof.
  intros W E.
  destruct (detachAll_fields h s W)
    as (h'' & E' & Fn & Fp & Fo & Fh & Ft & Fe & F1 & F2 & F3 & Lb & Ls & _).
  simplify_eq. split; try done.
  - by eapply wf_detachAll.
  - intros m. rewrite Fo. case_decide; [by right|by left].
Qed.

(** ** Promises along a trace *)

Lemma settle_not_pending o k : is_pending (settle o (S k)) = false.
Proof. by destruct o as [[]|]. Qed.

Lemma flags_not_pending o k : is_pending o = false → flags o k = replicate k false.
Proof. intros E. destruct k; simpl; [done|]. by rewrite E. Qed.

Lemma flags_add o k1 k2 :
  flags o k1 ++ flags (settle o k1) k2 = flags o (k1 + k2).
Proof.
  destruct k1 as [|k1]; [done|].
  rewrite (flags_not_pending (settle o (S k1))) by apply settle_not_pending.
  simpl. by rewrite replicate_add.
Qed.

Lemma settle_add o k1 k2 : settle (settle o k1) k2 = settle o (k1 + k2).
Proof. destruct k1, k2, o as [[]|]; done. Qed.

Lemma promise_run_nil h h' : promises h' = promises h → promise_run h h' [].
Proof. intros E p. simpl. by rewrite E. Qed.

Lemma promise_run_call h h' b this args hs :
  promises h' = promises h → promise_run h h' [EvCall b this args hs].
Proof. intros E p. simpl. by rewrite E. Qed.

Lemma promise_run_app h h1 h2 e1 e2 :
  promise_run h h1 e1 → promise_run h1 h2 e2 → promise_run h h2 (e1 ++ e2).
Proof.
  intros R1 R2 p. destruct (R1 p) as [A1 A2]. destruct (R2 p) as [B1 B2].
  unfold resolves in *. rewrite omap_app, length_app.
  rewrite A2 in B1, B2. split.
  - rewrite <- flags_add. by rewrite <- A1, <- B1.
  - by rewrite <- settle_add.
Qed.

Lemma promise_run_resolve st p :
  ∃ b, trace (resolve p st) = trace st ++ [EvResolve p b] ∧
       promise_run (heap st) (heap (resolve p st)) [EvResolve p b].
Proof.
  unfold resolve.
  destruct (promises (heap st) !! p) as [[]|] eqn:E; simpl;
    eexists; (split; [done|]); intros q; simpl;
    destruct (decide (p = q)) as [->|Hq]; simpl;
    rewrite ?E; try done.
  - split; [done|]. apply list_lookup_insert_eq. by eapply lookup_lt_Some.
  - split; [done|]. by apply list_lookup_insert_ne.
Qed.

Lemma calls_app t1 t2 : calls (t1 ++ t2) = calls t1 ++ calls t2.
Proof. apply omap_app. Qed.

Lemma ran_refl n st : wf (heap st) → ran n st st [].
Proof.
  intros W. split; [by apply tame_post_refl|by rewrite app_nil_r|].
  by apply promise_run_nil.
Qed.

Lemma ran_trans n st1 st2 st3 e1 e2 :
  ran n st1 st2 e1 → ran n st2 st3 e2 → ran n st1 st3 (e1 ++ e2).
Proof.
  intros [A T1 P1] [B T2 P2]. split.
  - by eapply tame_post_trans.
  - by rewrite T2, T1, app_assoc.
  - by eapply promise_run_app.
Qed.

Lemma ran_le n n' st st' evs : n ≤ n' → ran n st st' evs → ran n' st st' evs.
Proof. intros Hn [A T P]. split; [by eapply tame_post_le|done..]. Qed.

Lemma ran_heap n st h' :
  tame_post n (heap st) h' → promises h' = promises (heap st) →
  ran n st (mkState h' (trace st)) [].
Proof.
  intros T E. split; [done|by simpl; rewrite app_nil_r|].
  by apply promise_run_nil.
Qed.

Lemma exec_op_tame base n op st :
  tame_op (length (signals (heap st))) n op = true → wf (heap st) →
  ∃ a st' evs, exec_op base op st = Some (inl a, st') ∧ ran n st st' evs ∧
    no_calls evs.
Proof.
  intros Ht W. unfold exec_op.
  assert (Hok : op_ok (heap st) op = true).
  { unfold op_ok. destruct op; simpl in *; try done;
      apply bool_decide_eq_true_1 in Ht; apply bool_decide_eq_true_2;
      try done. by destruct Ht. }
  rewrite Hok. simpl.
  destruct op; simpl in Ht; try done;
    try apply bool_decide_eq_true_1 in Ht.
  - destruct Ht as [Hs Hb]. eexists _, _, []. split; [done|]. split; [|done].
    apply ran_heap; [by apply tame_post_detach|].
    by destruct (detach_static (heap st) s b) as (_ & _ & ? & _).
  - unfold binding_detach. destruct (owner_of (heap st) b) eqn:Eo.
    + eexists _, _, []. split; [done|]. split; [|done].
      apply ran_heap; [by apply tame_post_detach|].
      by destruct (detach_static (heap st) n0 b) as (_ & _ & ? & _).
    + eexists _, _, []. split; [done|]. split; [|done]. destruct st. by apply ran_refl.
  - destruct (detachAll_fields (heap st) s W) as (h' & E & F).
    rewrite E. simpl. eexists _, _, []. split; [done|]. split; [|done].
    apply ran_heap; [by eapply tame_post_detachAll|].
    by destruct F as (_ & _ & _ & _ & _ & _ & _ & _ & _ & _ & _ & ? & _).
  - eexists _, _, []. split; [done|]. split; [|done].
    apply ran_heap; [|done].
    apply tame_post_same_links; try done; [apply same_links_set_enabled|..];
      intros; hs; done.
  - eexists _, _, []. split; [done|]. split; [|done]. by apply ran_refl.
  - destruct (handlers_spec (heap st) s W) as (l & E & _). rewrite E. simpl.
    eexists _, _, []. split; [done|]. split; [|done]. by apply ran_refl.
  - eexists _, _, []. split; [done|]. split; [|done]. by apply ran_refl.
  - eexists _, _, []. split; [done|]. split; [|done]. by apply ran_refl.
  - destruct v; try done.
    destruct (promise_run_resolve st p) as (b & T & P).
    exists AUnit, (resolve p st), [EvResolve p b].
    split; [done|]. split; [|done]. split; [|done|done].
    apply tame_post_same_links; try done; [apply same_links_resolve|..];
      unfold resolve; repeat case_match; done.
  - eexists _, _, []. split; [done|]. split; [|done]. by apply ran_refl.
  - eexists _, _, []. split; [done|]. split; [|done].
    apply ran_heap; [|done].
    apply tame_post_same_links; try done; apply same_links_set_user.
Qed.

Lemma run_tame base n p st :
  tame (length (signals (heap st))) n p → wf (heap st) →
  ∃ st' evs, run base p st = Some (Normal, st') ∧ ran n st st' evs ∧
    no_calls evs.
Proof.
  intros T. revert st T. induction p as [| |op k IH]; intros st T W.
  - exists st, []. split; [done|]. split; [by apply ran_refl|done].
  - inversion T.
  - inversion T as [|? ? Hop Hk]; subst. simpl.
    destruct (exec_op_tame base n op st Hop W) as (a & st1 & e1 & E & R1 & C1).
    rewrite E.
    destruct (IH a st1) as (st2 & e2 & E2 & R2 & C2).
    + rewrite (tp_lens _ _ _ (ran_post _ _ _ _ R1)). apply Hk.
    + apply (tp_wf _ _ _ (ran_post _ _ _ _ R1)).
    + exists st2, (e1 ++ e2). split; [done|].
      split; [by eapply ran_trans|].
      unfold no_calls in *. by rewrite calls_app, C1, C2.
Qed.

Lemma chain_seg_gt h n l nxt :
  wf h → chain_seg h (next_of h n) l nxt → Forall (λ m, n < m) l.
Proof.
  intros W. revert n. induction l as [|m l IH]; intros n; simpl; [done|].
  intros [E C]. pose proof (wf_next_lt _ W _ _ E).
  constructor; [lia|]. eapply Forall_impl; [by apply IH|]. simpl. lia.
Qed.

Lemma chain_seg_stable h h' cur l nxt :
  (∀ m, m ∈ l → next_of h' m = next_of h m) →
  chain_seg h cur l nxt → chain_seg h' cur l nxt.
Proof.
  revert cur. induction l as [|n l IH]; intros cur Hs; simpl; [done|].
  intros [E C]. split; [done|]. rewrite Hs by by left.
  apply IH; [|done]. intros m Hm. apply Hs. by right.
Qed.

Lemma handlers_loop_chain fuel h cur l :
  handlers_loop fuel h cur = Some l → chain_seg h cur l None.
Proof.
  revert cur l. induction fuel as [|fuel IH]; intros [n|] l; simpl;
    intros E; simplify_eq; try done.
  destruct (handlers_loop fuel h (next_of h n)) eqn:E'; simpl in E;
    simplify_eq. simpl. split; [done|]. by apply IH.
Qed.

Lemma snap_ok_trans s h0 h1 k e :
  tame_post k h0 h1 → snap_ok s h1 e → snap_ok s h0 e.
Proof.
  intros T. destruct e as [n this args hs|]; simpl; [|done].
  intros [[k' T'] Ho]. split.
  - exists (Nat.max k k'). eapply tame_post_trans.
    + eapply tame_post_le; [|done]. lia.
    + eapply tame_post_le; [|done]. lia.
  - intros Hn. apply Ho. by rewrite (tp_once _ _ _ T).
Qed.

Lemma snap_ok_no_calls s h0 evs : no_calls evs → Forall (snap_ok s h0) evs.
Proof.
  unfold no_calls, calls. induction evs as [|[] evs IH]; simpl; [done|done|].
  intros E. constructor; [done|]. by apply IH.
Qed.

Section Loop.
Variable env : Handlers.

(** One turn of the loop on a binding whose handler is tame. *)
Lemma dispatch_loop_step fuel s args n st :
  wf (heap st) →
  tame (length (signals (heap st))) n
       (env (fn_of (heap st) n) (this_of (heap st) n) (call_args args)) →
  ∃ st' evs,
    dispatch_loop env (S fuel) s args (Some n) st =
    dispatch_loop env fuel s args (next_of (heap st) n) st' ∧
    ran n st st' evs ∧
    calls evs = [call_with (heap st) args n] ∧
    Forall (snap_ok s (heap st)) evs ∧
    (once_of (heap st) n = true → owner_of (heap st') n ≠ Some s) ∧
    (∃ h1, tame_post n (heap st) h1 ∧
       run (dispatch_with (dispatch_loop env fuel))
           (env (fn_of (heap st) n) (this_of (heap st) n) (call_args args))
           (log (EvCall n (this_of (heap st) n) (call_args args) h1)
                (mkState h1 (trace st))) = Some (Normal, st')).
Proof.
  intros W T. simpl.
  set (h1 := if once_of (heap st) n then detach s n (heap st) else heap st).
  assert (T1 : tame_post n (heap st) h1).
  { subst h1. destruct (once_of (heap st) n);
      [by apply tame_post_detach|by apply tame_post_refl]. }
  assert (P1 : promises h1 = promises (heap st)).
  { subst h1. destruct (once_of (heap st) n); [|done].
    by destruct (detach_static (heap st) s n) as (_ & _ & ? & _). }
  assert (O1 : once_of (heap st) n = true → owner_of h1 n ≠ Some s).
  { subst h1. intros ->.
    destruct (decide (owner_of (heap st) n = Some s)) as [Ho|Ho].
    - by rewrite owner_detach_None.
    - by rewrite detach_not_owner. }
  rewrite (tp_fn _ _ _ T1), (tp_this _ _ _ T1).
  set (ev := EvCall n (this_of (heap st) n) (call_args args) h1).
  destruct (run_tame (dispatch_with (dispatch_loop env fuel)) n
              (env (fn_of (heap st) n) (this_of (heap st) n) (call_args args))
              (log ev (mkState h1 (trace st))))
    as (st2 & evs & E & R & C).
  { simpl. by rewrite (tp_lens _ _ _ T1). }
  { simpl. apply (tp_wf _ _ _ T1). }
  rewrite E. exists st2, (ev :: evs).
  destruct R as [T2 Tr2 P2]. simpl in T2, Tr2, P2.
  split.
  { by rewrite (tp_next _ _ _ T2 n), (tp_next _ _ _ T1 n). }
  split.
  { split.
    - by eapply tame_post_trans.
    - by rewrite Tr2, <- app_assoc.
    - change (ev :: evs) with ([ev] ++ evs).
      eapply promise_run_app; [|done]. by apply promise_run_call. }
  split.
  { unfold no_calls in C. change (ev :: evs) with ([ev] ++ evs).
    rewrite calls_app, C. done. }
  split.
  { constructor.
    - simpl. split; [by exists n|done].
    - eapply Forall_impl; [by apply (snap_ok_no_calls s h1)|].
      intros e. by apply snap_ok_trans with n. }
  split; [|by exists h1].
  intros Hn. specialize (O1 Hn).
  destruct (tp_owner _ _ _ T2 n) as [Eo|Eo]; rewrite Eo; [done|done].
Qed.

(** The loop over a run of bindings whose handlers are tame: every one of
    them is called, in order, and the loop goes on from where the run
    ends. *)
Lemma dispatch_loop_tame s args pre :
  ∀ cur nxt fuel st,
  wf (heap st) → chain_seg (heap st) cur pre nxt →
  (∀ n, n ∈ pre →
     tame (length (signals (heap st))) n
          (env (fn_of (heap st) n) (this_of (heap st) n) (call_args args))) →
  ∃ st' evs,
    dispatch_loop env (length pre + fuel) s args cur st =
    dispatch_loop env fuel s args nxt st' ∧
    (∀ k, Forall (λ n, n ≤ k) pre → ran k st st' evs) ∧
    calls evs = map (call_with (heap st) args) pre ∧
    Forall (snap_ok s (heap st)) evs ∧
    (∀ n, n ∈ pre → once_of (heap st) n = true →
          owner_of (heap st') n ≠ Some s).
Proof.
  induction pre as [|n pre IH]; intros cur nxt fuel st W C T.
  - simpl in C. subst. exists st, []. split; [done|].
    split; [intros; by apply ran_refl|]. split; [done|]. split; [done|].
    intros n Hn. by apply elem_of_nil in Hn.
  - simpl in C. destruct C as [-> C].
    destruct (dispatch_loop_step (length pre + fuel) s args n st W)
      as (st1 & e1 & E1 & R1 & C1 & S1 & O1 & _); [apply T; by left|].
    pose proof (chain_seg_gt _ _ _ _ W C) as Hgt.
    rewrite Forall_forall in Hgt.
    destruct R1 as [T1 Tr1 P1].
    destruct (IH (next_of (heap st) n) nxt fuel st1)
      as (st2 & e2 & E2 & R2 & C2 & S2 & O2).
    { apply (tp_wf _ _ _ T1). }
    { eapply chain_seg_stable; [|done]. intros m Hm.
      apply (tp_next _ _ _ T1). apply Hgt in Hm. lia. }
    { intros m Hm.
      rewrite (tp_lens _ _ _ T1), (tp_fn _ _ _ T1), (tp_this _ _ _ T1).
      apply T. by right. }
    exists st2, (e1 ++ e2).
    split.
    { change (length (n :: pre) + fuel) with (S (length pre + fuel)).
      by rewrite E1, E2. }
    split.
    { intros k Hk. apply Forall_cons in Hk as [Hn Hk].
      eapply ran_trans; [|by apply R2].
      eapply ran_le; [done|]. by split. }
    split.
    { rewrite calls_app, C1, C2. simpl. f_equal.
      apply map_ext. intros m. unfold call_with.
      by rewrite (tp_this _ _ _ T1). }
    split.
    { apply Forall_app. split; [done|].
      eapply Forall_impl; [done|]. intros e. by apply snap_ok_trans with n. }
    intros m Hm Hom. apply elem_of_cons in Hm as [->|Hm].
    + specialize (O1 Hom).
      assert (R2' : ran (foldr Nat.max 0 pre) st1 st2 e2).
      { apply R2. apply Forall_forall. intros x Hx.
        clear -Hx. induction pre as [|y pre IH]; [by apply elem_of_nil in Hx|].
        simpl. apply elem_of_cons in Hx as [->|Hx]; [lia|].
        specialize (IH Hx). lia. }
      destruct (tp_owner _ _ _ (ran_post _ _ _ _ R2') n) as [Eo|Eo];
        rewrite Eo; done.
    + apply O2; [done|]. by rewrite (tp_once _ _ _ T1).
Qed.

End Loop.

(** ** Insertion order *)

Lemma call_args_id args : call_args args = args.
Proof.
  unfold call_args, arg.
  do 6 (destruct args as [|? args]; [done|]). done.
Qed.

Lemma handlers_sorted h s l : wf h → handlers s h = Some l → StronglySorted lt l.
Proof.
  intros W. unfold handlers.
  generalize (S (length (bindings h))) (head_of h s). intros fuel.
  revert l. induction fuel as [|fuel IH]; intros l [n|]; simpl;
    intros E; simplify_eq; try constructor.
  - destruct (handlers_loop fuel h (next_of h n)) as [l'|] eqn:E';
      simpl in E; simplify_eq.
    constructor; [by eapply IH|].
    eapply chain_seg_gt; [done|]. by eapply handlers_loop_chain.
Qed.

(** handlers() is the list of the bindings the signal owns, in the order
    of their creation. *)
Lemma handlers_unique h s l l' :
  wf h → handlers s h = Some l →
  StronglySorted lt l' → (∀ k, k ∈ l' ↔ owner_of h k = Some s) → l = l'.
Proof.
  intros W E Hs Hm.
  destruct (handlers_spec h s W) as (l0 & E0 & _ & _ & Hnd & _ & Ho).
  simplify_eq.
  apply (StronglySorted_unique_strong lt);
    [intros; lia|exact (handlers_sorted _ _ _ W E)|done|].
  apply NoDup_Permutation; [done| |].
  - clear -Hs. induction Hs as [|x l' Hs IH Hx]; constructor; [|done].
    intros Hin. rewrite Forall_forall in Hx. apply Hx in Hin. lia.
  - intros k. by rewrite Ho, Hm.
Qed.

Lemma handlers_new h s f o this l :
  wf h → s < length (signals h) → handlers s h = Some l →
  handlers s (_addSignalBinding s (length (bindings h))
                (new_binding f o this h).2) =
  Some (l ++ [length (bindings h)]).
Proof.
  intros W Vs E.
  pose proof (wf_new h s f o this W Vs) as W'.
  destruct (new_fields h s f o this W Vs) as (_ & _ & Fo & _).
  destruct (handlers_spec _ s W') as (l' & E' & _).
  rewrite E'. f_equal. eapply handlers_unique; [done..| |].
  - destruct (handlers_spec h s W) as (l0 & E0 & _ & _ & _ & _ & Ho).
    simplify_eq. apply StronglySorted_app. split; [|split].
    + intros x1 x2 H1 ->%list_elem_of_singleton.
      apply Ho in H1. exact (valid_of_owner _ _ _ H1).
    + exact (handlers_sorted _ _ _ W E).
    + repeat constructor.
  - intros k. rewrite Fo, elem_of_app, list_elem_of_singleton.
    destruct (handlers_spec h s W) as (l0 & E0 & _ & _ & _ & _ & Ho).
    simplify_eq. rewrite Ho. case_decide as Hk.
    + split; [done|intros _; by right].
    + split; [|intros; by left]. by intros [|].
Qed.

Lemma add_all_spec s specs : ∀ h l,
  wf h → s < length (signals h) → handlers s h = Some l →
  wf (add_all s specs h).2 ∧
  (add_all s specs h).1 = seq (length (bindings h)) (length specs) ∧
  handlers s (add_all s specs h).2 = Some (l ++ (add_all s specs h).1) ∧
  length (signals (add_all s specs h).2) = length (signals h) ∧
  enabled_of (add_all s specs h).2 s = enabled_of h s.
Proof.
  induction specs as [|[[f o] this] specs IH]; intros h l W Vs E; simpl.
  { by rewrite app_nil_r. }
  set (h1 := _addSignalBinding s (length (bindings h))
               (new_binding f o (or_null this) h).2).
  assert (E1 : (if o then once_ else add) s f this h =
               (length (bindings h), h1)) by by destruct o.
  rewrite E1.
  destruct (new_fields h s f o (or_null this) W Vs)
    as (_ & _ & _ & _ & _ & Lb & Ls).
  fold h1 in Lb, Ls.
  destruct (IH h1 (l ++ [length (bindings h)])) as (W2 & B2 & H2 & L2 & En2).
  { by apply wf_new. }
  { by rewrite Ls. }
  { by apply handlers_new. }
  destruct (add_all s specs h1) as [bs h2]. simpl in *.
  split; [done|]. split; [by rewrite B2, Lb|].
  split; [by rewrite H2, <- app_assoc|]. split; [congruence|].
  rewrite En2. subst h1.
  destruct (add_binding_static (new_binding f o (or_null this) h).2 s
              (length (bindings h))) as (_ & _ & _ & _ & _ & _ & _ & Fe).
  rewrite Fe.
  by destruct (new_binding_fields f o (or_null this) h)
    as (_ & _ & _ & _ & _ & Fe' & _).
Qed.

(** What the bindings of a run of add and once calls store: the handler
    and the once flag of the call, and its [thisArg], null when it was
    left out or undefined; the bindings that were there are as they
    were. *)
Lemma add_all_static s specs : ∀ h,
  (∀ n, n < length (bindings h) →
     fn_of (add_all s specs h).2 n = fn_of h n ∧
     once_of (add_all s specs h).2 n = once_of h n ∧
     this_of (add_all s specs h).2 n = this_of h n) ∧
  (∀ i f o this, specs !! i = Some (f, o, this) →
     fn_of (add_all s specs h).2 (length (bindings h) + i) = f ∧
     once_of (add_all s specs h).2 (length (bindings h) + i) = o ∧
     this_of (add_all s specs h).2 (length (bindings h) + i) = or_null this).
Proof.
  induction specs as [|[[f o] this] specs IH]; intros h; simpl.
  { split; [done|]. intros i ? ? ? Hi. by rewrite lookup_nil in Hi. }
  set (h1 := _addSignalBinding s (length (bindings h))
               (new_binding f o (or_null this) h).2).
  assert (E1 : (if o then once_ else add) s f this h =
               (length (bindings h), h1)) by by destruct o.
  rewrite E1.
  destruct (add_binding_static (new_binding f o (or_null this) h).2 s
              (length (bindings h))) as (Lb & _ & _ & _ & S1 & S2 & S3 & _).
  destruct (new_binding_fields f o (or_null this) h)
    as (_ & _ & _ & _ & _ & _ & Lb' & _ & N1 & N2 & N3).
  cbv zeta in Lb', N1, N2, N3. fold h1 in Lb, S1, S2, S3.
  rewrite Lb' in Lb.
  destruct (IH h1) as [Old New].
  destruct (add_all s specs h1) as [bs h2]. simpl in *.
  split.
  - intros n Hn. destruct (Old n) as (A1 & A2 & A3); [lia|].
    rewrite A1, A2, A3, S1, S2, S3, N1, N2, N3.
    by rewrite !decide_False by lia.
  - intros [|i] f' o' this' Hi; simpl in Hi.
    + simplify_eq. rewrite Nat.add_0_r.
      destruct (Old (length (bindings h))) as (A1 & A2 & A3); [lia|].
      rewrite A1, A2, A3, S1, S2, S3, N1, N2, N3.
      by rewrite !decide_True.
    + destruct (New i f' o' this' Hi) as (A1 & A2 & A3).
      rewrite Lb in A1, A2, A3.
      by replace (length (bindings h) + S i)
        with (S (length (bindings h)) + i) by lia.
Qed.

Lemma chain_seg_app h cur l1 l2 nxt :
  chain_seg h cur (l1 ++ l2) nxt ↔
  ∃ mid, chain_seg h cur l1 mid ∧ chain_seg h mid l2 nxt.
Proof.
  revert cur. induction l1 as [|n l1 IH]; intros cur; simpl.
  - split; [intros C; by exists cur|]. by intros (mid & -> & C).
  - rewrite (and_comm (cur = Some n)).
    setoid_rewrite IH. split.
    + intros ((mid & C1 & C2) & ->). by exists mid.
    + intros (mid & (-> & C1) & C2). split; [by exists mid|done].
Qed.

Lemma bound_exists (l : list nat) : ∃ k, Forall (λ n, n ≤ k) l.
Proof.
  exists (max_list l). apply Forall_forall. intros x Hx.
  by apply max_list_elem_of_le.
Qed.

Section Dispatch.
Variable env : Handlers.

(** Signal.dispatch when the handlers are tame: it ends, and it has
    called the handler of every binding handlers() lists, in that order. *)
Lemma dispatch_tame fuel s args h tr l :
  wf h → enabled_of h s = true → handlers s h = Some l →
  all_tame env h args l → length l ≤ fuel →
  ∃ st' evs,
    dispatch env fuel s args (mkState h tr) = Some (Normal, st') ∧
    (∀ k, Forall (λ n, n ≤ k) l → ran k (mkState h tr) st' evs) ∧
    calls evs = map (call_with h args) l ∧
    Forall (snap_ok s h) evs ∧
    (∀ n, n ∈ l → once_of h n = true → owner_of (heap st') n ≠ Some s).
Proof.
  intros W En E T Hf. unfold dispatch, dispatch_with. simpl. rewrite En.
  pose proof (handlers_loop_chain _ _ _ _ E) as C.
  destruct (dispatch_loop_tame env s args l (head_of h s) None
              (fuel - length l) (mkState h tr) W C T)
    as (st' & evs & E' & R).
  replace (length l + (fuel - length l)) with fuel in E' by lia.
  assert (E2 : dispatch_loop env (fuel - length l) s args None st' =
               Some (Normal, st')) by by destruct (fuel - length l).
  rewrite E2 in E'.
  destruct (head_of h s) as [hd|] eqn:Eh.
  - exists st', evs. by rewrite E'.
  - destruct l as [|n l]; [|by destruct C].
    exists st', evs. split; [|done].
    destruct fuel; simpl in E'; by simplify_eq.
Qed.

(** C6. After any run of add and once calls on a signal, handlers()
    lists what it listed before followed by the new bindings in the order
    of the calls; each new binding stores the handler and the once flag
    of its call and the [thisArg] it was given, null when that was left
    out or undefined; and dispatch calls the handlers in that same order,
    each with the [thisArg] its binding stores (the handlers being tame,
    so that none of them throws or changes the rest of the list). *)
Theorem insertion_order fuel s specs h l args tr :
  wf h → s < length (signals h) → enabled_of h s = true →
  handlers s h = Some l →
  (add_all s specs h).1 = seq (length (bindings h)) (length specs) ∧
  handlers s (add_all s specs h).2 = Some (l ++ (add_all s specs h).1) ∧
  (∀ i f o this, specs !! i = Some (f, o, this) →
     fn_of (add_all s specs h).2 (length (bindings h) + i) = f ∧
     once_of (add_all s specs h).2 (length (bindings h) + i) = o ∧
     this_of (add_all s specs h).2 (length (bindings h) + i) = or_null this) ∧
  (all_tame env (add_all s specs h).2 args (l ++ (add_all s specs h).1) →
   length (l ++ (add_all s specs h).1) ≤ fuel →
   ∃ st' evs,
     dispatch env fuel s args (mkState (add_all s specs h).2 tr) =
       Some (Normal, st') ∧
     trace st' = tr ++ evs ∧
     calls evs = map (call_with (add_all s specs h).2 args)
                     (l ++ (add_all s specs h).1)).
Proof.
  intros W Vs En E.
  destruct (add_all_spec s specs h l W Vs E) as (W' & B & H' & L' & En').
  split; [done|]. split; [done|].
  split; [apply (add_all_static s specs h)|]. intros T Hf.
  destruct (dispatch_tame fuel s args _ tr _ W' (eq_trans En' En) H' T Hf)
    as (st' & evs & E' & R & C & _).
  exists st', evs. split; [done|]. split; [|done].
  destruct (bound_exists (l ++ (add_all s specs h).1)) as [k Hk].
  apply (ran_trace _ _ _ _ (R k Hk)).
Qed.

Lemma all_tame_idle h args l : all_tame env_idle h args l.
Proof. intros n _. constructor. Qed.

End Dispatch.

Lemma wf_heap_lonely : wf heap_lonely.
Proof.
  eapply wf_same_links; [apply same_links_new_signal|apply wf_empty_heap].
Qed.

Lemma insertion_order_witness :
  (add_all 0 [(0, false, VUndef); (1, true, VNum 7)] heap_lonely).1 = [0; 1] ∧
  handlers 0 (add_all 0 [(0, false, VUndef); (1, true, VNum 7)] heap_lonely).2
    = Some [0; 1] ∧
  this_of (add_all 0 [(0, false, VUndef); (1, true, VNum 7)] heap_lonely).2 0
    = VNull ∧
  ∃ st' evs,
    dispatch env_idle 2 0 [VNum 1; VStr "a"]
      (mkState (add_all 0 [(0, false, VUndef); (1, true, VNum 7)]
                  heap_lonely).2 []) = Some (Normal, st') ∧
    trace st' = evs ∧
    calls evs = [(0, VNull, [VNum 1; VStr "a"]);
                 (1, VNum 7, [VNum 1; VStr "a"])].
Proof.
  destruct (insertion_order env_idle 2 0
              [(0, false, VUndef); (1, true, VNum 7)] heap_lonely []
              [VNum 1; VStr "a"] [] wf_heap_lonely)
    as (B & H & F & D); [vm_compute; lia|reflexivity|reflexivity|].
  split; [exact B|]. split; [exact H|].
  split; [exact (proj2 (proj2 (F 0 0 false VUndef eq_refl)))|].
  apply D; [apply all_tame_idle|vm_compute; lia].
Defined.

(** ** Dispatch with handlers that throw, detach themselves or detach all *)

Lemma run_raises base n e p st :
  raises (length (signals (heap st))) n e p → wf (heap st) →
  ∃ st' evs, run base p st = Some (Thrown e, st') ∧ ran n st st' evs ∧
    no_calls evs.
Proof.
  intros T. revert st T. induction p as [| |op k IH]; intros st T W.
  - inversion T.
  - inversion T; subst. exists st, []. split; [done|].
    split; [by apply ran_refl|done].
  - inversion T as [|? ? Hop Hk]; subst. simpl.
    destruct (exec_op_tame base n op st Hop W) as (a & st1 & e1 & E & R1 & C1).
    rewrite E.
    destruct (IH a st1) as (st2 & e2 & E2 & R2 & C2).
    + rewrite (tp_lens _ _ _ (ran_post _ _ _ _ R1)). apply Hk.
    + apply (tp_wf _ _ _ (ran_post _ _ _ _ R1)).
    + exists st2, (e1 ++ e2). split; [done|].
      split; [by eapply ran_trans|].
      unfold no_calls in *. by rewrite calls_app, C1, C2.
Qed.

Lemma handlers_loop_ext fuel h h' cur :
  (∀ n, next_of h' n = next_of h n) →
  handlers_loop fuel h' cur = handlers_loop fuel h cur.
Proof.
  intros Hn. revert cur. induction fuel as [|fuel IH]; intros [n|]; simpl;
    try done. by rewrite Hn, IH.
Qed.

Section Claims.
Variable env : Handlers.

Lemma dispatch_nonempty fuel s args st n :
  enabled_of (heap st) s = true → head_of (heap st) s = Some n →
  dispatch env fuel s args st = dispatch_loop env fuel s args (Some n) st.
Proof. intros En Eh. unfold dispatch, dispatch_with. by rewrite En, Eh. Qed.


(** C5. AsyncSignal.dispatch on an enabled signal calls the handler of
    every bound binding, in order, each with the one resolve function of
    the promise it awaits followed by the arguments; all of these calls
    are made before dispatch hands its promise back.  The promise is
    fulfilled by the first call of that function and by no other: if no
    handler called it during the loop the promise is still pending and
    the first later call fulfils it. (Handlers being tame: they do not
    throw or change the rest of the list.) *)
Theorem async_dispatch_fan_out fuel s args h tr l :
  wf h → enabled_of h s = true → handlers s h = Some l →
  all_tame env h (VResolver (length (promises h)) :: args) l →
  length l ≤ fuel →
  ∃ st' evs,
    async_dispatch env fuel s args (mkState h tr) =
      Some (Awaits (length (promises h)), st') ∧
    trace st' = tr ++ evs ∧
    calls evs =
      map (λ n, (n, this_of h n, VResolver (length (promises h)) :: args)) l ∧
    ((resolves (length (promises h)) evs = [] ∧
      awaited (heap st') (Awaits (length (promises h))) = Pending ∧
      awaited (heap (resolve (length (promises h)) st'))
              (Awaits (length (promises h))) = Fulfilled) ∨
     (∃ k, resolves (length (promises h)) evs = true :: replicate k false ∧
           awaited (heap st') (Awaits (length (promises h))) = Fulfilled)).
Proof.
  intros W En E T Hf. unfold async_dispatch, async_dispatch_with. simpl.
  rewrite En.
  set (p := length (promises h)).
  set (h0 := mkHeap (bindings h) (signals h) (promises h ++ [Pending]) (user h)).
  assert (W0 : wf h0).
  { eapply wf_same_links; [apply (same_links_new_promise h)|done]. }
  assert (E0' : handlers s h0 = Some l).
  { rewrite <- E. unfold handlers. by apply handlers_loop_ext. }
  destruct (dispatch_tame env fuel s (VResolver p :: args) h0 tr l W0 En E0' T Hf)
    as (st' & evs & E' & R & C & _).
  rewrite E'. exists st', evs. split; [done|].
  destruct (bound_exists l) as [k Hk].
  destruct (R k Hk) as [_ Tr P]. simpl in Tr, P.
  split; [done|]. split.
  { rewrite C. apply map_ext. intros n. unfold call_with.
    by rewrite call_args_id. }
  destruct (P p) as [Pf Ps]. simpl in Pf, Ps.
  assert (E0 : (promises h ++ [Pending]) !! p = Some Pending).
  { subst p. by rewrite lookup_app_r, Nat.sub_diag by lia. }
  rewrite E0 in Pf, Ps. unfold awaited.
  destruct (length (resolves p evs)) as [|j] eqn:El; simpl in Pf, Ps.
  - left. split; [done|]. rewrite Ps. split; [done|].
    unfold resolve. rewrite Ps. simpl.
    rewrite list_lookup_insert_eq; [done|]. by eapply lookup_lt_Some.
  - right. exists j. by rewrite Ps.
Qed.

(** C8. When the handler of a binding throws, Signal.dispatch ends with
    that exception: the handlers before it were called, the handlers of
    the bindings after it are not, whatever they are. *)
Theorem handler_exception_propagates fuel s args h tr pre b post e :
  wf h → enabled_of h s = true → handlers s h = Some (pre ++ b :: post) →
  all_tame env h args pre →
  raises (length (signals h)) b e (handler_of env h args b) →
  length pre < fuel →
  ∃ st' evs,
    dispatch env fuel s args (mkState h tr) = Some (Thrown e, st') ∧
    trace st' = tr ++ evs ∧
    calls evs = map (call_with h args) (pre ++ [b]).
Proof.
  intros W En E T Hr Hf.
  pose proof (handlers_loop_chain _ _ _ _ E) as C.
  apply chain_seg_app in C as (mid & C1 & C2).
  destruct C2 as [-> C2].
  assert (Hhd : ∃ hd, head_of h s = Some hd).
  { destruct pre; simpl in C1; [by exists b|]. destruct C1 as [-> _]. eauto. }
  destruct Hhd as [hd Hhd].
  rewrite (dispatch_nonempty fuel s args (mkState h tr) hd En Hhd).
  rewrite <- Hhd.
  destruct (dispatch_loop_tame env s args pre (head_of h s) (Some b)
              (fuel - length pre) (mkState h tr) W C1 T)
    as (st1 & e1 & E1 & R1 & Ca1 & _).
  replace (length pre + (fuel - length pre)) with fuel in E1 by lia.
  destruct (bound_exists pre) as [kp Hkp].
  destruct (R1 kp Hkp) as [T1 Tr1 P1]. simpl in T1, Tr1, P1.
  pose proof (tp_wf _ _ _ T1) as W1.
  rewrite E1.
  destruct (fuel - length pre) as [|f] eqn:Ef; [lia|]. simpl.
  set (h1 := if once_of (heap st1) b then detach s b (heap st1) else heap st1).
  assert (Th1 : tame_post b (heap st1) h1).
  { subst h1. destruct (once_of (heap st1) b);
      [by apply tame_post_detach|by apply tame_post_refl]. }
  rewrite (tp_fn _ _ _ Th1), (tp_this _ _ _ Th1).
  rewrite (tp_fn _ _ _ T1), (tp_this _ _ _ T1).
  set (ev := EvCall b (this_of h b) (call_args args) h1).
  destruct (run_raises (dispatch_with (dispatch_loop env f)) b e
              (handler_of env h args b) (log ev (mkState h1 (trace st1))))
    as (st2 & e2 & E2 & R2 & C2').
  { simpl. by rewrite (tp_lens _ _ _ Th1), (tp_lens _ _ _ T1). }
  { simpl. apply (tp_wf _ _ _ Th1). }
  unfold handler_of in E2. rewrite E2.
  exists st2, (e1 ++ ev :: e2). split; [done|].
  destruct R2 as [_ Tr2 _]. simpl in Tr2.
  split.
  { by rewrite Tr2, Tr1, <- !app_assoc. }
  unfold no_calls in C2'.
  change (ev :: e2) with ([ev] ++ e2).
  by rewrite !calls_app, Ca1, C2', map_app.
Qed.


End Claims.

Lemma wf_heap_fan : wf heap_fan.
Proof.
  apply (add_all_spec 0 _ heap_lonely []); [apply wf_heap_lonely| |done].
  vm_compute. lia.
Qed.

Ltac tame_tac :=
  vm_compute;
  repeat first [ apply tame_Ret | apply tame_Do; [reflexivity|intros ?] ].

Ltac all_tame_tac :=
  let n := fresh "n" in let Hn := fresh "Hn" in
  intros n Hn;
  repeat (apply elem_of_cons in Hn as [->|Hn]; [tame_tac|]);
  by apply elem_of_nil in Hn.

Lemma async_dispatch_fan_out_witness :
  ∃ st' evs,
    async_dispatch env_last_resolves 3 0 [VNum 1] (mkState heap_fan []) =
      Some (Awaits 0, st') ∧
    trace st' = evs ∧
    calls evs = [(0, VNull, [VResolver 0; VNum 1]);
                 (1, VNull, [VResolver 0; VNum 1]);
                 (2, VNull, [VResolver 0; VNum 1])] ∧
    ((resolves 0 evs = [] ∧
      awaited (heap st') (Awaits 0) = Pending ∧
      awaited (heap (resolve 0 st')) (Awaits 0) = Fulfilled) ∨
     (∃ k, resolves 0 evs = true :: replicate k false ∧
           awaited (heap st') (Awaits 0) = Fulfilled)).
Proof.
  apply (async_dispatch_fan_out env_last_resolves 3 0 [VNum 1] heap_fan []
           [0; 1; 2] wf_heap_fan).
  - reflexivity.
  - reflexivity.
  - all_tame_tac.
  - simpl; lia.
Defined.

Lemma handler_exception_propagates_witness :
  ∃ st' evs,
    dispatch env_boom 2 0 [VNum 1] (mkState heap_fan []) =
      Some (Thrown (VStr "boom"), st') ∧
    trace st' = evs ∧
    calls evs = [(0, VNull, [VNum 1]); (1, VNull, [VNum 1])].
Proof.
  apply (handler_exception_propagates env_boom 2 0 [VNum 1] heap_fan []
           [0] 1 [2] (VStr "boom") wf_heap_fan).
  - reflexivity.
  - reflexivity.
  - all_tame_tac.
  - vm_compute. constructor.
  - simpl; lia.
Defined.


(** ** Once bindings *)

Lemma reach_valid h n b :
  wf h → n < length (bindings h) → reach h n b → b < length (bindings h).
Proof.
  intros W Hn R. induction R as [|n k b E R IH]; [done|].
  apply IH. apply (wf_next_lt _ W) in E. lia.
Qed.

Lemma reach_ext h h' n b :
  (∀ m, next_of h' m = next_of h m) → reach h' n b → reach h n b.
Proof.
  intros Hn R. induction R; [constructor|].
  eapply reach_step; [|done]. by rewrite <- Hn.
Qed.

Lemma grows_refl h : grows h h.
Proof. split; try done; [by left|]. intros. by exists b. Qed.

Lemma grows_same_bindings h h' : bindings h' = bindings h → grows h h'.
Proof.
  intros E.
  assert (Hn : ∀ m, next_of h' m = next_of h m)
    by by intros; unfold next_of; rewrite E.
  split.
  - by rewrite E.
  - intros. unfold once_of. by rewrite E.
  - intros. left. unfold owner_of. by rewrite E.
  - intros n b _ R. by eapply reach_ext.
  - intros n b s _ _ R Ho. exists b. split; [by eapply reach_ext|].
    revert Ho. unfold owner_of. by rewrite E.
Qed.

Lemma grows_detach h s x : wf h → grows h (detach s x h).
Proof.
  intros W.
  destruct (decide (owner_of h x = Some s)) as [Ho|Ho];
    [|rewrite detach_not_owner by done; apply grows_refl].
  destruct (detach_fields h s x W Ho) as (Fn & Fp & Fo & Fh & Ft).
  destruct (detach_static h s x) as (Lb & Ls & _ & _ & F1 & _).
  assert (R : ∀ n b, reach (detach s x h) n b → reach h n b).
  { intros n b R. induction R as [|n k b E R IH]; [constructor|].
    rewrite Fn in E. case_decide as Ep.
    - destruct (wf_prev_owned _ W _ _ _ Ho Ep) as [_ En].
      eapply reach_step; [done|]. by eapply reach_step.
    - by eapply reach_step. }
  split.
  - by rewrite Lb.
  - intros. apply F1.
  - intros m _. rewrite Fo. case_decide; [by right|by left].
  - intros n b _. apply R.
  - intros n b s' _ Hb Rb. apply R in Rb.
    pose proof (valid_of_owner _ _ _ Ho).
    rewrite Fo. case_decide; [done|]. intros Hob. by exists b.
Qed.

Lemma grows_new h s f o this :
  wf h → s < length (signals h) →
  grows h (_addSignalBinding s (length (bindings h)) (new_binding f o this h).2).
Proof.
  intros W Vs.
  destruct (new_fields h s f o this W Vs) as (Fn & Fp & Fo & Fh & Ft & Lb & Ls).
  set (h' := _addSignalBinding s (length (bindings h))
               (new_binding f o this h).2) in *.
  assert (Hfresh : next_of h (length (bindings h)) = None).
  { unfold next_of. by rewrite lookup_ge_None_2. }
  assert (R : ∀ n b, reach h' n b →
            n = b ∨ (b < length (bindings h) ∧ reach h n b) ∨
            (b = length (bindings h) ∧
             ∃ t, tail_of h s = Some t ∧ reach h n t)).
  { intros n b R. induction R as [|n k b E R IH]; [by left|].
    right. rewrite Fn in E. case_decide as Et.
    - simplify_eq. right.
      assert (b = length (bindings h)).
      { inversion R as [|? k' ? E']; subst; [done|].
        rewrite Fn in E'. case_decide as Et'.
        - apply (wf_tail_owned _ W) in Et'.
          apply valid_of_owner in Et'. lia.
        - congruence. }
      split; [done|]. exists n. split; [done|constructor].
    - pose proof (wf_next_lt _ W _ _ E) as Hk.
      destruct IH as [->|[[Hb Rb]|[Hb (t & Et' & Rt)]]].
      + left. split; [lia|]. eapply reach_step; [done|constructor].
      + left. split; [done|]. by eapply reach_step.
      + right. split; [done|]. exists t. split; [done|].
        by eapply reach_step. }
  split.
  - lia.
  - intros m Hm.
    destruct (add_binding_static (new_binding f o this h).2 s
                (length (bindings h))) as (_ & _ & _ & _ & F1 & _).
    fold h' in F1. rewrite F1.
    destruct (new_binding_fields f o this h)
      as (_ & _ & _ & _ & _ & _ & _ & _ & F2 & _).
    rewrite F2. case_decide; [lia|done].
  - intros m Hm. rewrite Fo. case_decide; [lia|by left].
  - intros n b Hb Rb. destruct (R n b Rb) as [->|[[_ Rb']|[Hb' _]]];
      [constructor|done|lia].
  - intros n b s' Hn Hb Rb. rewrite Fo.
    destruct (R n b Rb) as [->|[[Hb' _]|[-> (t & Et & Rt)]]]; [lia|lia|].
    rewrite decide_True by done. intros ?; simplify_eq.
    exists t. split; [done|]. by apply (wf_tail_owned _ W).
Qed.

Lemma grows_detachAll h s h' : wf h → detachAll s h = Some h' → grows h h'.
Proof.
  intros W E.
  destruct (detachAll_fields h s W)
    as (h'' & E' & Fn & Fp & Fo & Fh & Ft & Fe & F1 & F2 & F3 & Lb & Ls & _).
  simplify_eq. split.
  - by rewrite Lb.
  - intros. apply F1.
  - intros m _. rewrite Fo. case_decide; [by right|by left].
  - intros n b _ R. by eapply reach_ext.
  - intros n b s' _ _ R. rewrite Fo. case_decide; [done|].
    intros Ho. exists b. split; [by eapply reach_ext|done].
Qed.

Lemma count_calls_app b t1 t2 :
  count_calls b (t1 ++ t2) = count_calls b t1 + count_calls b t2.
Proof. unfold count_calls. by rewrite filter_app, length_app. Qed.

Lemma count_calls_none b tr :
  (∀ this args hs, EvCall b this args hs ∉ tr) → count_calls b tr = 0.
Proof.
  unfold count_calls. induction tr as [|e tr IH]; intros Hn; [done|].
  rewrite filter_cons.
  assert (IH' : length (filter (λ e, is_call_of b e = true) tr) = 0).
  { apply IH. intros this args hs Hin. eapply Hn. by right. }
  destruct (decide (is_call_of b e = true)) as [E|E]; [|done].
  exfalso. destruct e as [b' this args hs|]; simpl in E; [|done].
  apply bool_decide_eq_true_1 in E. subst. eapply Hn. by left.
Qed.

Lemma no_calls_not_in evs b this args hs :
  no_calls evs → EvCall b this args hs ∉ evs.
Proof.
  unfold no_calls, calls. intros E Hin.
  assert (Hc : (b, this, args) ∈ omap call_of evs).
  { apply list_elem_of_omap. by exists (EvCall b this args hs). }
  rewrite E in Hc. by apply elem_of_nil in Hc.
Qed.

Lemma counted_step st st' evs :
  counted st → wf (heap st') → grows (heap st) (heap st') →
  trace st' = trace st ++ evs → no_calls evs → counted st'.
Proof.
  intros [W V O Sn] W' G T C.
  assert (Hc : ∀ b, count_calls b (trace st') = count_calls b (trace st)).
  { intros b. rewrite T, count_calls_app.
    rewrite (count_calls_none b evs); [lia|].
    intros. by apply no_calls_not_in. }
  assert (Hin : ∀ b this args hs, EvCall b this args hs ∈ trace st' →
                  EvCall b this args hs ∈ trace st).
  { intros b this args hs. rewrite T, elem_of_app. intros [|Hin]; [done|].
    by apply no_calls_not_in in Hin. }
  split; [done|..].
  - intros b this args hs Hb. apply Hin, V in Hb.
    pose proof (g_len _ _ G). lia.
  - intros b Hb. rewrite Hc.
    destruct (decide (b < length (bindings (heap st)))) as [Hv|Hv].
    + rewrite (g_once _ _ G) in Hb by done.
      destruct (O b Hb) as [O1 O2]. split; [done|]. intros Ho. apply O2.
      destruct (g_owner _ _ G b Hv) as [E|E]; congruence.
    + rewrite count_calls_none; [split; [lia|done]|].
      intros this args hs Hi. apply V in Hi. lia.
  - intros b this args hs Hb. apply Hin in Hb. by eapply Sn.
Qed.

Lemma ahead_step s n st st' evs :
  counted st → ahead s n st → n < length (bindings (heap st)) →
  grows (heap st) (heap st') →
  trace st' = trace st ++ evs → no_calls evs → ahead s n st'.
Proof.
  intros [W V O Sn] A Hn G T C b R.
  assert (Hc : count_calls b (trace st') = count_calls b (trace st)).
  { rewrite T, count_calls_app.
    rewrite (count_calls_none b evs); [lia|].
    intros. by apply no_calls_not_in. }
  rewrite Hc.
  destruct (decide (b < length (bindings (heap st)))) as [Hv|Hv].
  - apply (g_reach_old _ _ G) in R; [|done].
    destruct (A b R) as [A1 A2]. split.
    + destruct (g_owner _ _ G b Hv) as [E|E]; rewrite E; [done|by left].
    + intros Hb. rewrite (g_once _ _ G) by done. by apply A2.
  - split.
    + destruct (owner_of (heap st') b) as [s'|] eqn:Eo; [|by left].
      destruct (g_reach_new _ _ G n b s' Hn) as (t & Rt & Et); [lia|done..|].
      destruct (A t Rt) as [[E|E] _]; [congruence|]. right. congruence.
    + intros _ _. apply count_calls_none.
      intros this args hs Hi. apply V in Hi. lia.
Qed.

Lemma exec_op_free base op st r st' :
  dispatch_free_op op = true → wf (heap st) →
  exec_op base op st = Some (r, st') →
  grows (heap st) (heap st') ∧
  ∃ evs, trace st' = trace st ++ evs ∧ no_calls evs.
Proof.
  intros Hop W. unfold exec_op.
  destruct (op_ok (heap st) op) eqn:Eok; [|done]. simpl.
  assert (Hnil : ∀ tr : list Event, ∃ evs, tr = tr ++ evs ∧ no_calls evs).
  { intros tr. exists []. by rewrite app_nil_r. }
  destruct op; simpl in Hop; try done; unfold op_ok in Eok; simpl in Eok;
    try apply bool_decide_eq_true_1 in Eok; simpl; intros E.
  - simplify_eq. split; [by apply grows_same_bindings|apply Hnil].
  - simplify_eq. split; [by apply grows_new|apply Hnil].
  - simplify_eq. split; [by apply grows_new|apply Hnil].
  - simplify_eq. split; [by apply grows_detach|apply Hnil].
  - unfold binding_detach in E. destruct (owner_of (heap st) b);
      simplify_eq; (split; [|apply Hnil]);
      [by apply grows_detach|apply grows_refl].
  - destruct (detachAll s (heap st)) eqn:Ed; simpl in E; simplify_eq.
    split; [by eapply grows_detachAll|apply Hnil].
  - simplify_eq. split; [by apply grows_same_bindings|apply Hnil].
  - simplify_eq. split; [apply grows_refl|apply Hnil].
  - destruct (handlers s (heap st)); simpl in E; simplify_eq.
    split; [apply grows_refl|apply Hnil].
  - simplify_eq. split; [apply grows_refl|apply Hnil].
  - simplify_eq. split; [apply grows_refl|apply Hnil].
  - destruct v; simplify_eq; try (split; [apply grows_refl|apply Hnil]).
    destruct (promise_run_resolve st p) as (b & T & _).
    split; [|by exists [EvResolve p b]].
    apply grows_same_bindings. unfold resolve. by repeat case_match.
  - simplify_eq. split; [apply grows_refl|apply Hnil].
  - simplify_eq. split; [by apply grows_same_bindings|apply Hnil].
Qed.

Lemma run_free base p st r st' :
  dispatch_free p → keeps wf base → counted st →
  run base p st = Some (r, st') →
  counted st' ∧
  length (bindings (heap st)) ≤ length (bindings (heap st')) ∧
  ∀ s n, n < length (bindings (heap st)) → ahead s n st → ahead s n st'.
Proof.
  intros F Hb. revert st. induction F as [|e|op k Hop Hk IH]; intros st C;
    simpl.
  - by intros; simplify_eq.
  - by intros; simplify_eq.
  - destruct (exec_op base op st) as [[[a|e] st1]|] eqn:Eo; [| |done].
    + pose proof (exec_op_wf base op st _ _ Hb (c_wf _ C) Eo) as W1.
      destruct (exec_op_free base op st _ _ Hop (c_wf _ C) Eo)
        as (G & evs & T & Cn).
      pose proof (counted_step st st1 evs C W1 G T Cn) as C1.
      intros E. destruct (IH a st1 C1 E) as (C' & L' & A').
      pose proof (g_len _ _ G).
      split; [done|]. split; [lia|]. intros s n Hn A.
      apply A'; [lia|]. exact (ahead_step s n st st1 evs C A Hn G T Cn).
    + intros E. simplify_eq.
      pose proof (exec_op_wf base op st _ _ Hb (c_wf _ C) Eo) as W1.
      destruct (exec_op_free base op st _ _ Hop (c_wf _ C) Eo)
        as (G & evs & T & Cn).
      split; [by eapply counted_step|]. split; [apply (g_len _ _ G)|].
      intros s n Hn A. exact (ahead_step s n st st' evs C A Hn G T Cn).
Qed.

Lemma count_calls_single b n this args hs :
  count_calls b [EvCall n this args hs] = if decide (n = b) then 1 else 0.
Proof.
  unfold count_calls. rewrite filter_cons, filter_nil. simpl.
  repeat case_decide; try done; exfalso.
  all: try (apply bool_decide_eq_true_1 in H; done).
  all: try (apply H; by apply bool_decide_eq_true_2).
Qed.

Lemma counted_init : counted init_state.
Proof.
  split; simpl.
  - apply wf_empty_heap.
  - intros b this args hs Hin. by apply elem_of_nil in Hin.
  - intros b Hb. done.
  - intros b this args hs Hin. by apply elem_of_nil in Hin.
Qed.

Section Once.
Variable env : Handlers.
Hypothesis env_free : ∀ f this args, dispatch_free (env f this args).

Lemma dispatch_loop_counted fuel : ∀ s args cur st r st',
  counted st →
  (∀ n, cur = Some n →
     n < length (bindings (heap st)) ∧ ahead s n st ∧
     (once_of (heap st) n = true → count_calls n (trace st) = 0)) →
  dispatch_loop env fuel s args cur st = Some (r, st') → counted st'.
Proof.
  induction fuel as [|fuel IH]; intros s args cur st r st' C Hcur;
    destruct cur as [n|]; simpl; try (by intros; simplify_eq).
  destruct (Hcur n eq_refl) as (Hn & A & Zn). clear Hcur.
  destruct C as [W V O Sn].
  set (h := heap st) in *.
  set (h1 := if once_of h n then detach s n h else h).
  assert (G1 : grows h h1).
  { subst h1. destruct (once_of h n); [by apply grows_detach|apply grows_refl]. }
  assert (W1 : wf h1).
  { subst h1. destruct (once_of h n); [by apply wf_detach|done]. }
  assert (L1 : length (bindings h1) = length (bindings h)).
  { subst h1. destruct (once_of h n); [|done].
    by destruct (detach_static h s n) as (? & _). }
  assert (On : ∀ m, once_of h1 m = once_of h m).
  { subst h1. destruct (once_of h n); [|done].
    by destruct (detach_static h s n) as (_ & _ & _ & _ & ? & _). }
  assert (O1 : once_of h n = true → owner_of h1 n = None).
  { subst h1. intros ->.
    destruct (A n (reach_here _ _)) as [[Eo|Eo] _]; fold h in Eo.
    - rewrite detach_not_owner; [done|congruence].
    - by apply owner_detach_None. }
  set (ev := EvCall n (this_of h1 n) (call_args args) h1).
  set (st1 := log ev (mkState h1 (trace st))).
  assert (Hc : ∀ b, count_calls b (trace st1) =
                    count_calls b (trace st) + if decide (n = b) then 1 else 0).
  { intros b. subst st1 ev. simpl.
    by rewrite count_calls_app, count_calls_single. }
  assert (C1 : counted st1).
  { split; simpl.
    - done.
    - intros b this args' hs [Hin|Hin%list_elem_of_singleton]%elem_of_app.
      + apply V in Hin. fold h in Hin. lia.
      + subst ev. simplify_eq. lia.
    - intros b Hb. rewrite On in Hb. specialize (Hc b). simpl in Hc.
      rewrite Hc. destruct (O b Hb) as [Ob1 Ob2]. case_decide as Enb.
      + subst b. rewrite (Zn Hb). split; [lia|].
        intros Ho. by rewrite O1 in Ho.
      + split; [lia|]. intros Ho. rewrite Ob2; [lia|].
        destruct (decide (b < length (bindings h))) as [Hv|Hv].
        * destruct (g_owner _ _ G1 b Hv) as [E|E]; congruence.
        * exfalso. apply Ho. unfold owner_of.
          rewrite lookup_ge_None_2; [done|lia].
    - intros b this args' hs [Hin|Hin%list_elem_of_singleton]%elem_of_app.
      + by eapply Sn.
      + subst ev. simplify_eq. split; [done|]. rewrite On. apply O1. }
  assert (A1 : ahead s n st1).
  { intros b R. simpl in R.
    assert (Hb : b < length (bindings h)).
    { rewrite <- L1. apply (reach_valid h1 n); [done|lia|done]. }
    apply (g_reach_old _ _ G1) in R; [|done].
    destruct (A b R) as [A1 A2]. split.
    - simpl. destruct (g_owner _ _ G1 b Hb) as [E|E]; rewrite E;
        [done|by left].
    - intros Hnb. simpl heap. rewrite On. intros Hob.
      rewrite Hc, A2 by done. by rewrite decide_False. }
  destruct (run _ _ _) as [[[|e] st2]|] eqn:Er; [| |done].
  - destruct (run_free _ _ _ _ _ (env_free _ _ _)
                (dispatch_with_keeps _ (λ c s0 a0 st0 r0 st0',
                   dispatch_loop_wf env fuel s0 a0 c st0 r0 st0'))
                C1 Er) as (C2 & L2 & A2).
    apply IH; [done|]. intros m Em.
    pose proof (wf_next_lt _ (c_wf _ C2) _ _ Em) as Hm.
    assert (A2' : ahead s n st2).
    { apply A2; [simpl; lia|done]. }
    assert (Rm : reach (heap st2) n m).
    { eapply reach_step; [done|constructor]. }
    split; [lia|]. split.
    + intros b Rb.
      pose proof (reach_le _ _ _ (c_wf _ C2) Rb).
      destruct (A2' b (reach_trans _ _ _ _ Rm Rb)) as [Ao Ac].
      split; [done|]. intros _. apply Ac. lia.
    + intros Hom. destruct (A2' m Rm) as [_ Ac]. apply Ac; [lia|done].
  - intros; simplify_eq.
    by destruct (run_free _ _ _ _ _ (env_free _ _ _)
                (dispatch_with_keeps _ (λ c s0 a0 st0 r0 st0',
                   dispatch_loop_wf env fuel s0 a0 c st0 r0 st0'))
                C1 Er) as (C2 & _).
Qed.

Lemma dispatch_counted fuel s args st r st' :
  counted st → dispatch env fuel s args st = Some (r, st') → counted st'.
Proof.
  intros C. unfold dispatch, dispatch_with.
  destruct (enabled_of (heap st) s); [|by intros; simplify_eq].
  destruct (head_of (heap st) s) as [hd|] eqn:Eh; [|by intros; simplify_eq].
  apply dispatch_loop_counted; [done|]. intros n ?; simplify_eq.
  pose proof (wf_head_owned _ (c_wf _ C) _ _ Eh) as Ho.
  split; [by eapply valid_of_owner|]. split.
  - intros b R. pose proof (reach_owned _ _ _ _ (c_wf _ C) Ho R) as Hb.
    split; [by right|]. intros _ Hob.
    apply (c_once _ C b Hob). congruence.
  - intros Hon. apply (c_once _ C n Hon). congruence.
Qed.

Lemma exec_op_counted fuel op st r st' :
  counted st → exec_op (dispatch env fuel) op st = Some (r, st') →
  counted st'.
Proof.
  intros C E.
  destruct (dispatch_free_op op) eqn:Hop.
  - pose proof (exec_op_wf _ op st _ _ (dispatch_wf env fuel) (c_wf _ C) E).
    destruct (exec_op_free _ op st _ _ Hop (c_wf _ C) E) as (G & evs & T & Cn).
    by eapply counted_step.
  - unfold exec_op in E. destruct (op_ok (heap st) op); [|done]. simpl in E.
    destruct op; simpl in Hop; try done.
    + destruct (dispatch env fuel s args st) as [[[|e] st1]|] eqn:Ed;
        simplify_eq; by eapply dispatch_counted.
    + unfold async_dispatch_with in E.
      destruct (enabled_of (heap st) s); [|by simpl in E; simplify_eq].
      simpl in E.
      match type of E with
      | context [dispatch env fuel s ?a ?st0] =>
          assert (C0 : counted st0);
          [|destruct (dispatch env fuel s a st0) as [[[|e] st1]|] eqn:Ed]
      end.
      * eapply (counted_step st _ []); [done| |by apply grows_same_bindings
                                        |by simpl; rewrite app_nil_r|done].
        simpl. eapply wf_same_links;
          [apply (same_links_new_promise (heap st))|apply (c_wf _ C)].
      * simpl in E. simplify_eq. by eapply dispatch_counted.
      * simpl in E. simplify_eq.
        pose proof (dispatch_counted _ _ _ _ _ _ C0 Ed) as C1.
        eapply (counted_step st1 _ []); [done| | |by simpl; rewrite app_nil_r
                                         |done].
        -- simpl. eapply wf_same_links; [apply same_links_reject|].
           apply (c_wf _ C1).
        -- apply grows_same_bindings. simpl. unfold reject.
           by repeat case_match.
      * done.
Qed.

Lemma run_top_counted fuel p : ∀ st r st',
  counted st → run_top env fuel p st = Some (r, st') → counted st'.
Proof.
  unfold run_top. induction p as [| |op k IH]; intros st r st' C; simpl.
  - by intros; simplify_eq.
  - by intros; simplify_eq.
  - destruct (exec_op (dispatch env fuel) op st) as [[[a|e] st1]|] eqn:Eo;
      [| |done].
    + apply IH. by eapply exec_op_counted.
    + intros; simplify_eq. by eapply exec_op_counted.
Qed.

(** X2. The once contract without nested dispatch.  When no handler calls
    dispatch, then in any program every once binding is called at most
    once, however many times dispatch is called; and whenever the handler
    of a once binding is called the binding has already been detached:
    the signal does not have it and handlers() does not list it. *)
Theorem once_called_at_most_once fuel p r st' :
  run_top env fuel p init_state = Some (r, st') →
  (∀ b, once_of (heap st') b = true → count_calls b (trace st') ≤ 1) ∧
  (∀ b this args hs, EvCall b this args hs ∈ trace st' →
     once_of hs b = true →
     ∀ s, has s b hs = false ∧ ∀ l, handlers s hs = Some l → b ∉ l).
Proof.
  intros E. pose proof (run_top_counted fuel p _ _ _ counted_init E) as C.
  split.
  - intros b Hb. apply (c_once _ C b Hb).
  - intros b this args hs Hin Hob s.
    destruct (c_snap _ C _ _ _ _ Hin) as [Whs Ho]. specialize (Ho Hob).
    split.
    + unfold has. apply bool_decide_eq_false_2. congruence.
    + intros l El Hl.
      destruct (handlers_spec hs s Whs) as (l' & El' & _ & _ & _ & _ & Hm).
      simplify_eq. apply Hm in Hl. congruence.
Qed.

End Once.

Lemma env_idle_free : ∀ f this args, dispatch_free (env_idle f this args).
Proof. intros. constructor. Qed.

Lemma once_called_at_most_once_witness :
  (∀ b, once_of (heap state_once_dispatch_twice) b = true →
        count_calls b (trace state_once_dispatch_twice) ≤ 1) ∧
  (∀ b this args hs,
     EvCall b this args hs ∈ trace state_once_dispatch_twice →
     once_of hs b = true →
     ∀ s, has s b hs = false ∧ ∀ l, handlers s hs = Some l → b ∉ l).
Proof.
  apply (once_called_at_most_once env_idle env_idle_free 4
           prog_once_dispatch_twice Normal state_once_dispatch_twice).
  vm_compute. reflexivity.
Defined.

Example once_dispatch_twice_calls :
  calls (trace state_once_dispatch_twice) = [(0, VNull, [])].
Proof. reflexivity. Qed.

(** * More properties of the operations *)

(** ** What detach, detachAll and add do to handlers() *)

Lemma sorted_filter (P : nat → Prop) `{∀ x, Decision (P x)} (l : list nat) :
  StronglySorted lt l → StronglySorted lt (filter P l).
Proof.
  induction 1 as [|x l Hs IH Hx]; [constructor|].
  rewrite filter_cons. case_decide; [|done].
  constructor; [done|].
  apply Forall_forall. intros y [_ Hy]%list_elem_of_filter.
  rewrite Forall_forall in Hx. by apply Hx.
Qed.

(** handlers() of a heap, from handlers() of another heap in which the
    signal owned more. *)
Lemma handlers_restrict (P : nat → Prop) `{∀ x, Decision (P x)} h h' s l :
  wf h → wf h' → handlers s h = Some l →
  (∀ k, owner_of h' k = Some s ↔ P k ∧ owner_of h k = Some s) →
  handlers s h' = Some (filter P l).
Proof.
  intros W W' E Ho.
  destruct (handlers_spec h' s W') as (l' & E' & _).
  rewrite E'. f_equal. eapply handlers_unique; [done..| |].
  - apply sorted_filter. exact (handlers_sorted _ _ _ W E).
  - intros k. rewrite list_elem_of_filter, Ho.
    destruct (handlers_spec h s W) as (l0 & E0 & _ & _ & _ & _ & Hm).
    simplify_eq. by rewrite Hm.
Qed.

Lemma handlers_same_owners h h' s :
  wf h → wf h' →
  (∀ k, owner_of h' k = Some s ↔ owner_of h k = Some s) →
  handlers s h' = handlers s h.
Proof.
  intros W W' Ho.
  destruct (handlers_spec h s W) as (l & E & _).
  rewrite E, (handlers_restrict (λ _, True) h h' s l W W' E).
  - f_equal. clear. induction l as [|x l IH]; [done|].
    rewrite filter_cons. simpl. by rewrite IH.
  - intros k. rewrite Ho. split; [done|by intros [_ ?]].
Qed.

Lemma handlers_after_detach_aux h s b l :
  wf h → handlers s h = Some l →
  handlers s (detach s b h) = Some (filter (λ n, n ≠ b) l) ∧
  ∀ s', s' ≠ s → handlers s' (detach s b h) = handlers s' h.
Proof.
  intros W E. pose proof (wf_detach h s b W) as W'.
  destruct (decide (owner_of h b = Some s)) as [Ho|Ho].
  - destruct (detach_fields h s b W Ho) as (_ & _ & Fo & _). split.
    + apply (handlers_restrict (λ n, n ≠ b) h); [done..|].
      intros k. rewrite Fo. case_decide; [subst; by split; [|intros []]|].
      split; [done|by intros [_ ?]].
    + intros s' Hs. apply handlers_same_owners; [done..|].
      intros k. rewrite Fo. case_decide; [|done]. subst.
      split; [done|congruence].
  - rewrite detach_not_owner by done. split; [|done].
    rewrite E. f_equal. symmetry.
    destruct (handlers_spec h s W) as (l0 & E0 & _ & _ & _ & _ & Hm).
    simplify_eq.
    assert (Hb : b ∉ l) by by rewrite Hm.
    clear -Hb. induction l as [|x l IH]; [done|].
    rewrite filter_cons. apply not_elem_of_cons in Hb as [Hx Hl].
    rewrite decide_True by done. by rewrite IH.
Qed.

(** X5. Signal.detach takes exactly the given binding out of handlers()
    and keeps the others in their order; the lists of the other signals
    are as they were. *)
Theorem handlers_after_detach h s b l :
  wf h → handlers s h = Some l →
  handlers s (detach s b h) = Some (filter (λ n, n ≠ b) l) ∧
  ∀ s', s' ≠ s → handlers s' (detach s b h) = handlers s' h.
Proof. apply handlers_after_detach_aux. Qed.

Lemma handlers_after_detach_witness :
  handlers 0 (detach 0 1 heap_three) = Some [0; 2] ∧
  ∀ s', s' ≠ 0 → handlers s' (detach 0 1 heap_three) = handlers s' heap_three.
Proof.
  apply (handlers_after_detach heap_three 0 1 [0; 1; 2] wf_heap_three).
  reflexivity.
Defined.

(** X4. Signal.detach is idempotent, on any heap: a second detach of the
    same binding changes nothing; so does a detach of a binding that the
    signal does not own. *)
Theorem detach_idempotent h s b :
  detach s b (detach s b h) = detach s b h ∧
  (owner_of h b ≠ Some s → detach s b h = h).
Proof.
  split; [|apply detach_not_owner].
  destruct (decide (owner_of h b = Some s)) as [Ho|Ho].
  - apply detach_not_owner. by rewrite owner_detach_None.
  - by rewrite !(detach_not_owner h s b Ho).
Qed.

(** X3. detachAll empties the signal: afterwards hasAny is false,
    handlers() is empty, has is false for every binding, a second
    detachAll changes nothing and a dispatch calls nobody and changes
    nothing; the lists of the other signals are as they were. *)
Theorem detachAll_empties h s :
  wf h →
  ∃ h', detachAll s h = Some h' ∧
        hasAny s h' = false ∧
        handlers s h' = Some [] ∧
        (∀ b, has s b h' = false) ∧
        detachAll s h' = Some h' ∧
        (∀ env fuel args tr,
           dispatch env fuel s args (mkState h' tr) =
             Some (Normal, mkState h' tr)) ∧
        (∀ s', s' ≠ s → handlers s' h' = handlers s' h).
Proof.
  intros W.
  destruct (detachAll_fields h s W) as (h' & E & _ & _ & Fo & Fh & _).
  pose proof (wf_detachAll h s h' W E) as W'.
  assert (Hh : head_of h' s = None) by by rewrite Fh, decide_True.
  exists h'. split; [done|]. split.
  { unfold hasAny. rewrite Hh. apply bool_decide_eq_false_2. by intros []. }
  split.
  { unfold handlers. by rewrite Hh. }
  split.
  { intros b. unfold has. apply bool_decide_eq_false_2.
    rewrite Fo. by case_decide. }
  split.
  { unfold detachAll. by rewrite Hh. }
  split.
  { intros env fuel args tr. unfold dispatch, dispatch_with. simpl.
    rewrite Hh. by destruct (enabled_of h' s). }
  intros s' Hs. apply handlers_same_owners; [done..|].
  intros k. rewrite Fo. case_decide; [|done]. split; [done|congruence].
Qed.

Lemma detachAll_empties_witness :
  ∃ h', detachAll 0 heap_three = Some h' ∧
        hasAny 0 h' = false ∧
        handlers 0 h' = Some [] ∧
        (∀ b, has 0 b h' = false) ∧
        detachAll 0 h' = Some h' ∧
        (∀ env fuel args tr,
           dispatch env fuel 0 args (mkState h' tr) =
             Some (Normal, mkState h' tr)) ∧
        (∀ s', s' ≠ 0 → handlers s' h' = handlers s' heap_three).
Proof. apply (detachAll_empties heap_three 0 wf_heap_three). Defined.

(** X7. On a heap the API built, handlers() ends, has(b) is true exactly
    for the bindings handlers() lists, and hasAny() is true exactly when
    that list is not empty. *)
Theorem has_iff_listed h s :
  wf h →
  ∃ l, handlers s h = Some l ∧
       (∀ b, has s b h = true ↔ b ∈ l) ∧
       (hasAny s h = true ↔ l ≠ []).
Proof.
  intros W.
  destruct (handlers_spec h s W) as (l & E & Hh & _ & _ & _ & Hm).
  exists l. split; [done|]. split.
  - intros b. unfold has. rewrite bool_decide_eq_true. by rewrite Hm.
  - unfold hasAny. rewrite bool_decide_eq_true, Hh. by destruct l.
Qed.

Lemma has_iff_listed_witness :
  ∃ l, handlers 0 heap_three = Some l ∧
       (∀ b, has 0 b heap_three = true ↔ b ∈ l) ∧
       (hasAny 0 heap_three = true ↔ l ≠ []).
Proof. apply (has_iff_listed heap_three 0 wf_heap_three). Defined.

(** X6. add (and once) returns a new binding, appends it to handlers(),
    and leaves the other signals alone; the signal has it and hasAny is
    true.  Detaching it again, through the signal or through the binding,
    gives handlers() back as it was. *)
Theorem add_then_detach register h s f this l :
  register = add ∨ register = once_ →
  wf h → s < length (signals h) → handlers s h = Some l →
  let b := (register s f this h).1 in
  let h' := (register s f this h).2 in
  b = length (bindings h) ∧
  (b ∉ l) ∧
  handlers s h' = Some (l ++ [b]) ∧
  has s b h' = true ∧
  hasAny s h' = true ∧
  (∀ s', s' ≠ s → handlers s' h' = handlers s' h) ∧
  handlers s (detach s b h') = Some l ∧
  binding_detach b h' = (true, detach s b h').
Proof.
  intros Hr W Vs E.
  assert (Ea : ∃ o, register s f this h =
               (length (bindings h),
                _addSignalBinding s (length (bindings h))
                  (new_binding f o (or_null this) h).2)).
  { destruct Hr as [->| ->]; [by exists false|by exists true]. }
  destruct Ea as [o Ea]. rewrite Ea. simpl.
  set (b := length (bindings h)).
  set (h' := _addSignalBinding s b (new_binding f o (or_null this) h).2).
  pose proof (wf_new h s f o (or_null this) W Vs) as W'. fold b h' in W'.
  destruct (new_fields h s f o (or_null this) W Vs) as (_ & _ & Fo & Fh & _).
  fold b h' in Fo, Fh.
  pose proof (handlers_new h s f o (or_null this) l W Vs E) as E'. fold b h' in E'.
  destruct (handlers_spec h s W) as (l0 & E0 & _ & _ & _ & _ & Hm).
  simplify_eq.
  assert (Hb : b ∉ l).
  { intros Hin. apply Hm, valid_of_owner in Hin. subst b. lia. }
  assert (Hob : owner_of h' b = Some s) by by rewrite Fo, decide_True.
  split; [done|]. split; [done|]. split; [done|]. split.
  { unfold has. by apply bool_decide_eq_true_2. }
  split.
  { unfold hasAny. apply bool_decide_eq_true_2. rewrite Fh.
    case_decide; [done|]. intros Hn. apply H. split; [done|].
    by rewrite Hn. }
  split.
  { intros s' Hs. apply handlers_same_owners; [done..|].
    intros k. rewrite Fo. case_decide; [|done]. subst k.
    split; [congruence|]. intros Hk. apply valid_of_owner in Hk.
    subst b. lia. }
  split.
  { destruct (handlers_after_detach_aux h' s b _ W' E') as [Ed _].
    change (handlers s (detach s b h') = Some l). rewrite Ed. f_equal. rewrite filter_app, filter_cons, filter_nil.
    rewrite decide_False by (intros Hn; by apply Hn).
    rewrite app_nil_r.
    clear -Hb. induction l as [|x l IH]; [done|].
    rewrite filter_cons. apply not_elem_of_cons in Hb as [Hx Hl].
    rewrite decide_True by done. by rewrite IH. }
  change (binding_detach b h' = (true, detach s b h')).
  unfold binding_detach. by rewrite Hob.
Qed.

Lemma add_then_detach_witness :
  (add 0 7 VNull heap_three).1 = 3 ∧
  (3 ∉ [0; 1; 2]) ∧
  handlers 0 (add 0 7 VNull heap_three).2 = Some [0; 1; 2; 3] ∧
  has 0 3 (add 0 7 VNull heap_three).2 = true ∧
  hasAny 0 (add 0 7 VNull heap_three).2 = true ∧
  (∀ s', s' ≠ 0 →
     handlers s' (add 0 7 VNull heap_three).2 = handlers s' heap_three) ∧
  handlers 0 (detach 0 3 (add 0 7 VNull heap_three).2) = Some [0; 1; 2] ∧
  binding_detach 3 (add 0 7 VNull heap_three).2 =
    (true, detach 0 3 (add 0 7 VNull heap_three).2).
Proof.
  apply (add_then_detach add heap_three 0 7 VNull [0; 1; 2]).
  - by left.
  - exact wf_heap_three.
  - vm_compute. lia.
  - reflexivity.
Defined.

(** ** Gates and arguments *)

(** X1. After [s.enabled = false], dispatch and AsyncSignal.dispatch do
    nothing at all: no handler is called, no once binding is taken off,
    the trace and the heap are as before, and the async dispatch has
    returned, not awaiting anything.  Setting enabled back to true gives
    the heap that setting it to true directly gives. *)
Theorem disabled_dispatch_does_nothing env fuel s args st :
  s < length (signals (heap st)) →
  dispatch env fuel s args (on_heap (set_enabled s false) st) =
    Some (Normal, on_heap (set_enabled s false) st) ∧
  async_dispatch env fuel s args (on_heap (set_enabled s false) st) =
    Some (Returned, on_heap (set_enabled s false) st) ∧
  bindings (set_enabled s false (heap st)) = bindings (heap st) ∧
  handlers s (set_enabled s false (heap st)) = handlers s (heap st) ∧
  set_enabled s true (set_enabled s false (heap st)) =
    set_enabled s true (heap st) ∧
  enabled_of (set_enabled s true (heap st)) s = true.
Proof.
  intros Vs.
  assert (En : enabled_of (set_enabled s false (heap st)) s = false)
    by by apply enabled_set_enabled_eq.
  split.
  { unfold dispatch, dispatch_with. simpl. by rewrite En. }
  split.
  { unfold async_dispatch, async_dispatch_with. simpl. by rewrite En. }
  split; [done|]. split.
  { unfold handlers. rewrite head_set_enabled.
    change (bindings (set_enabled s false (heap st))) with (bindings (heap st)).
    by apply handlers_loop_ext. }
  split.
  { unfold set_enabled, upd_signal. simpl. f_equal.
    rewrite list_alter_alter_eq. by apply list_alter_ext. }
  by apply enabled_set_enabled_eq.
Qed.

Lemma disabled_dispatch_does_nothing_witness :
  dispatch env_boom 5 0 [VNum 1]
      (on_heap (set_enabled 0 false) (mkState heap_fan [])) =
    Some (Normal, on_heap (set_enabled 0 false) (mkState heap_fan [])) ∧
  async_dispatch env_boom 5 0 [VNum 1]
      (on_heap (set_enabled 0 false) (mkState heap_fan [])) =
    Some (Returned, on_heap (set_enabled 0 false) (mkState heap_fan [])) ∧
  bindings (set_enabled 0 false heap_fan) = bindings heap_fan ∧
  handlers 0 (set_enabled 0 false heap_fan) = handlers 0 heap_fan ∧
  set_enabled 0 true (set_enabled 0 false heap_fan) =
    set_enabled 0 true heap_fan ∧
  enabled_of (set_enabled 0 true heap_fan) 0 = true.
Proof.
  apply (disabled_dispatch_does_nothing env_boom 5 0 [VNum 1]
           (mkState heap_fan [])).
  vm_compute. lia.
Defined.

Section Extras.
Variable env : Handlers.

(** X8. dispatch forwards its arguments as they are, whatever their
    number: the switch on [arguments.length] neither pads nor cuts, and
    every handler is called with its own [thisArg] and exactly the
    arguments dispatch was given (handlers tame). *)
Theorem dispatch_forwards_arguments fuel s args h tr l :
  wf h → enabled_of h s = true → handlers s h = Some l →
  all_tame env h args l → length l ≤ fuel →
  call_args args = args ∧
  ∃ st' evs,
    dispatch env fuel s args (mkState h tr) = Some (Normal, st') ∧
    trace st' = tr ++ evs ∧
    calls evs = map (λ n, (n, this_of h n, args)) l.
Proof.
  intros W En E T Hf. split; [apply call_args_id|].
  destruct (dispatch_tame env fuel s args h tr l W En E T Hf)
    as (st' & evs & E' & R & C & _).
  exists st', evs. split; [done|].
  destruct (bound_exists l) as [k Hk].
  split; [apply (ran_trace _ _ _ _ (R k Hk))|].
  rewrite C. apply map_ext. intros n. unfold call_with.
  by rewrite call_args_id.
Qed.

(** X9. A dispatch takes the once bindings off the list: when it has
    returned, every binding handlers() still lists was listed before and
    is not a once binding (handlers tame). *)
Theorem dispatch_consumes_once fuel s args h tr l :
  wf h → enabled_of h s = true → handlers s h = Some l →
  all_tame env h args l → length l ≤ fuel →
  ∃ st' l',
    dispatch env fuel s args (mkState h tr) = Some (Normal, st') ∧
    handlers s (heap st') = Some l' ∧
    ∀ n, n ∈ l' → n ∈ l ∧ once_of h n = false.
Proof.
  intros W En E T Hf.
  destruct (dispatch_tame env fuel s args h tr l W En E T Hf)
    as (st' & evs & E' & R & _ & _ & O).
  destruct (bound_exists l) as [k Hk].
  destruct (R k Hk) as [T' _ _]. simpl in T'.
  destruct (handlers_spec (heap st') s (tp_wf _ _ _ T'))
    as (l' & El' & _ & _ & _ & _ & Hm').
  destruct (handlers_spec h s W) as (l0 & E0 & _ & _ & _ & _ & Hm).
  simplify_eq.
  exists st', l'. split; [done|]. split; [done|].
  intros n Hn. apply Hm' in Hn.
  assert (Hl : n ∈ l).
  { apply Hm. destruct (tp_owner _ _ _ T' n) as [Eo|Eo]; congruence. }
  split; [done|].
  destruct (once_of h n) eqn:Eon; [|done].
  exfalso. by apply (O n Hl Eon).
Qed.

(** X16. Whatever program runs from the empty heap, with whatever
    handlers, and whether it ends normally or with an exception thrown
    out of a dispatch, the heap it leaves is well linked and every signal
    satisfies its invariant. *)
Theorem reachable_heap_invariant fuel p r st' :
  run_top env fuel p init_state = Some (r, st') →
  wf (heap st') ∧ ∀ s, signal_inv (heap st') s.
Proof.
  intros E.
  assert (W : wf (heap st')).
  { eapply run_top_wf; [|done]. apply wf_empty_heap. }
  split; [done|]. intros s. by apply wf_signal_inv.
Qed.

End Extras.

Lemma dispatch_forwards_arguments_witness :
  call_args [VNum 1; VStr "x"] = [VNum 1; VStr "x"] ∧
  ∃ st' evs,
    dispatch env_idle 3 0 [VNum 1; VStr "x"] (mkState heap_fan []) =
      Some (Normal, st') ∧
    trace st' = [] ++ evs ∧
    calls evs = map (λ n, (n, this_of heap_fan n, [VNum 1; VStr "x"]))
                    [0; 1; 2].
Proof.
  apply (dispatch_forwards_arguments env_idle 3 0 [VNum 1; VStr "x"]
           heap_fan [] [0; 1; 2] wf_heap_fan).
  - reflexivity.
  - reflexivity.
  - apply all_tame_idle.
  - simpl; lia.
Defined.

Lemma wf_heap_mixed : wf heap_mixed.
Proof.
  apply (add_all_spec 0 _ heap_lonely []); [apply wf_heap_lonely| |done].
  vm_compute. lia.
Qed.

Lemma dispatch_consumes_once_witness :
  ∃ st' l',
    dispatch env_idle 3 0 [] (mkState heap_mixed []) = Some (Normal, st') ∧
    handlers 0 (heap st') = Some l' ∧
    ∀ n, n ∈ l' → n ∈ [0; 1; 2] ∧ once_of heap_mixed n = false.
Proof.
  apply (dispatch_consumes_once env_idle 3 0 [] heap_mixed [] [0; 1; 2]
           wf_heap_mixed).
  - reflexivity.
  - reflexivity.
  - apply all_tame_idle.
  - simpl; lia.
Defined.

Lemma reachable_heap_invariant_witness :
  ∃ st', run_top env_boom 3 prog_boom init_state =
           Some (Thrown (VStr "boom"), st') ∧
         wf (heap st') ∧ ∀ s, signal_inv (heap st') s.
Proof.
  eexists. split; [vm_compute; reflexivity|].
  apply (reachable_heap_invariant env_boom 3 prog_boom (Thrown (VStr "boom"))).
  vm_compute. reflexivity.
Defined.

(** ** Handlers that change no list *)

Lemma quiet_op_tame nsig n op : quiet_op nsig op = true → tame_op nsig n op = true.
Proof. by destruct op. Qed.

Lemma quiet_tame nsig n p : quiet nsig p → tame nsig n p.
Proof.
  induction 1 as [|op k Hop _ IH]; constructor; [|done].
  by apply quiet_op_tame.
Qed.

Lemma all_quiet_tame env h args l : all_quiet env h args l → all_tame env h args l.
Proof. intros Q n Hn. apply quiet_tame. by apply Q. Qed.

Lemma quiet_post_refl h : quiet_post h h.
Proof. by split. Qed.

Lemma quiet_post_trans h1 h2 h3 :
  quiet_post h1 h2 → quiet_post h2 h3 → quiet_post h1 h3.
Proof.
  intros [A1 A2 A3 A4] [B1 B2 B3 B4]. split; intros; congruence.
Qed.

Lemma quiet_post_next h h' n : quiet_post h h' → next_of h' n = next_of h n.
Proof. intros [E _ _ _]. unfold next_of. by rewrite E. Qed.

Lemma quiet_post_prev h h' n : quiet_post h h' → prev_of h' n = prev_of h n.
Proof. intros [E _ _ _]. unfold prev_of. by rewrite E. Qed.

Lemma quiet_post_owner h h' n : quiet_post h h' → owner_of h' n = owner_of h n.
Proof. intros [E _ _ _]. unfold owner_of. by rewrite E. Qed.

Lemma quiet_post_wf h h' : quiet_post h h' → wf h → wf h'.
Proof.
  intros Q. apply wf_same_links. destruct Q as [E Fh Ft Ls].
  unfold same_links, next_of, prev_of, owner_of. rewrite E.
  repeat split; try done. lia.
Qed.

Lemma exec_op_quiet_post base nsig op st x st' :
  quiet_op nsig op = true → exec_op base op st = Some (x, st') →
  quiet_post (heap st) (heap st').
Proof.
  unfold exec_op. destruct (negb (op_ok (heap st) op)); [done|].
  destruct op; simpl; try done; intros _ E; simplify_eq;
    try apply quiet_post_refl.
  - split; simpl; try done; intros; hs; try done.
    unfold set_enabled, upd_signal. simpl. by rewrite length_alter.
  - destruct (handlers s (heap st)); simpl in E; simplify_eq.
    apply quiet_post_refl.
  - destruct v; simplify_eq; try apply quiet_post_refl.
    unfold resolve. repeat case_match; by split.
  - by split.
Qed.

Lemma run_quiet_post base nsig p : ∀ st r st',
  quiet nsig p → run base p st = Some (r, st') →
  quiet_post (heap st) (heap st').
Proof.
  induction p as [| |op k IH]; intros st r st' Q E.
  - simpl in E. simplify_eq. apply quiet_post_refl.
  - inversion Q.
  - inversion Q as [|? ? Hop Hk]; subst. simpl in E.
    destruct (exec_op base op st) as [[[a|e] st1]|] eqn:Ee; [| |done].
    + eapply quiet_post_trans; [by eapply exec_op_quiet_post|].
      eapply IH; [apply Hk|done].
    + simplify_eq. by eapply exec_op_quiet_post.
Qed.

(** The owner of [m] after [if (node.once) this.detach(node)] on [n]. *)
Lemma owner_once_detach h s n m :
  wf h →
  owner_of (if once_of h n then detach s n h else h) m =
  if decide (m = n ∧ once_of h n = true ∧ owner_of h n = Some s)
  then None else owner_of h m.
Proof.
  intros W. destruct (once_of h n) eqn:Eo.
  - destruct (decide (owner_of h n = Some s)) as [Ho|Ho].
    + destruct (detach_fields h s n W Ho) as (_ & _ & Fo & _).
      rewrite Fo. repeat case_decide; try done; contra.
    + rewrite detach_not_owner by done. case_decide; [contra|done].
  - case_decide; [contra|done].
Qed.

Section Quiet.
Variable env : Handlers.

(** One turn of the loop on a binding whose handler is quiet. *)
Lemma dispatch_loop_step_quiet fuel s args n st :
  wf (heap st) →
  quiet (length (signals (heap st))) (handler_of env (heap st) args n) →
  ∃ st' evs,
    dispatch_loop env (S fuel) s args (Some n) st =
    dispatch_loop env fuel s args (next_of (heap st) n) st' ∧
    ran n st st' evs ∧
    calls evs = [call_with (heap st) args n] ∧
    quiet_post (if once_of (heap st) n then detach s n (heap st) else heap st)
               (heap st').
Proof.
  intros W Q. unfold handler_of in Q. simpl.
  set (h1 := if once_of (heap st) n then detach s n (heap st) else heap st).
  assert (T1 : tame_post n (heap st) h1).
  { subst h1. destruct (once_of (heap st) n);
      [by apply tame_post_detach|by apply tame_post_refl]. }
  assert (P1 : promises h1 = promises (heap st)).
  { subst h1. destruct (once_of (heap st) n); [|done].
    by destruct (detach_static (heap st) s n) as (_ & _ & ? & _). }
  rewrite (tp_fn _ _ _ T1), (tp_this _ _ _ T1).
  set (ev := EvCall n (this_of (heap st) n) (call_args args) h1).
  destruct (run_tame (dispatch_with (dispatch_loop env fuel)) n
              (env (fn_of (heap st) n) (this_of (heap st) n) (call_args args))
              (log ev (mkState h1 (trace st))))
    as (st2 & evs & E & R & C).
  { simpl. rewrite (tp_lens _ _ _ T1). by apply quiet_tame. }
  { simpl. apply (tp_wf _ _ _ T1). }
  pose proof (run_quiet_post _ _ _ _ _ _ Q E) as QP. simpl in QP.
  rewrite E. exists st2, (ev :: evs).
  destruct R as [T2 Tr2 P2]. simpl in T2, Tr2, P2.
  split.
  { by rewrite (tp_next _ _ _ T2 n), (tp_next _ _ _ T1 n). }
  split.
  { split.
    - by eapply tame_post_trans.
    - by rewrite Tr2, <- app_assoc.
    - change (ev :: evs) with ([ev] ++ evs).
      eapply promise_run_app; [|done]. by apply promise_run_call. }
  split; [|done].
  unfold no_calls in C. change (ev :: evs) with ([ev] ++ evs).
  rewrite calls_app, C. done.
Qed.

(** The loop over a run of bindings whose handlers are quiet: every one
    of them is called, in order, and exactly the once bindings among them
    have left the list. *)
Lemma dispatch_loop_quiet s args pre :
  ∀ cur nxt fuel st,
  wf (heap st) → chain_seg (heap st) cur pre nxt →
  all_quiet env (heap st) args pre →
  ∃ st' evs,
    dispatch_loop env (length pre + fuel) s args cur st =
    dispatch_loop env fuel s args nxt st' ∧
    (∀ k, Forall (λ n, n ≤ k) pre → ran k st st' evs) ∧
    calls evs = map (call_with (heap st) args) pre ∧
    (∀ m, owner_of (heap st') m =
          if decide (m ∈ pre ∧ once_of (heap st) m = true ∧
                     owner_of (heap st) m = Some s)
          then None else owner_of (heap st) m).
Proof.
  induction pre as [|n pre IH]; intros cur nxt fuel st W C Q.
  - simpl in C. subst. exists st, []. split; [done|].
    split; [intros; by apply ran_refl|]. split; [done|].
    intros m. case_decide as H; [|done].
    destruct H as [H _]. by apply elem_of_nil in H.
  - simpl in C. destruct C as [-> C].
    destruct (dispatch_loop_step_quiet (length pre + fuel) s args n st W)
      as (st1 & e1 & E1 & R1 & C1 & Q1); [apply Q; by left|].
    pose proof (chain_seg_gt _ _ _ _ W C) as Hgt.
    rewrite Forall_forall in Hgt.
    destruct R1 as [T1 Tr1 P1].
    destruct (IH (next_of (heap st) n) nxt fuel st1)
      as (st2 & e2 & E2 & R2 & C2 & O2).
    { apply (tp_wf _ _ _ T1). }
    { eapply chain_seg_stable; [|done]. intros m Hm.
      apply (tp_next _ _ _ T1). apply Hgt in Hm. lia. }
    { intros m Hm. unfold handler_of.
      rewrite (tp_lens _ _ _ T1), (tp_fn _ _ _ T1), (tp_this _ _ _ T1).
      apply Q. by right. }
    exists st2, (e1 ++ e2).
    split.
    { change (length (n :: pre) + fuel) with (S (length pre + fuel)).
      by rewrite E1, E2. }
    split.
    { intros k Hk. apply Forall_cons in Hk as [Hn Hk].
      eapply ran_trans; [|by apply R2].
      eapply ran_le; [done|]. by split. }
    split.
    { rewrite calls_app, C1, C2. simpl. f_equal.
      apply map_ext. intros m. unfold call_with.
      by rewrite (tp_this _ _ _ T1). }
    intros m. rewrite O2, (tp_once _ _ _ T1).
    rewrite (quiet_post_owner _ _ m Q1), (owner_once_detach _ s n m W).
    assert (Hnm : m ∈ pre → m ≠ n).
    { intros Hm. apply Hgt in Hm. lia. }
    pose proof (elem_of_cons pre m n) as Hc.
    repeat case_decide; try done; exfalso; destruct_and?; simplify_eq;
      try match goal with
          | H : _ ∈ _ :: _ |- _ => apply elem_of_cons in H as [->|?]
          end;
      intuition leaf.
Qed.

End Quiet.

Section QuietDispatch.
Variable env : Handlers.

Lemma all_quiet_post h h' args l l' k :
  tame_post k h h' → (∀ n, n ∈ l' → n ∈ l) →
  all_quiet env h args l → all_quiet env h' args l'.
Proof.
  intros T Hl Q n Hn. unfold handler_of.
  rewrite (tp_lens _ _ _ T), (tp_fn _ _ _ T), (tp_this _ _ _ T).
  apply Q. by apply Hl.
Qed.

(** A dispatch with quiet handlers: what it calls and what it leaves. *)
Lemma dispatch_quiet fuel s args st l :
  wf (heap st) → enabled_of (heap st) s = true →
  handlers s (heap st) = Some l →
  all_quiet env (heap st) args l → length l ≤ fuel →
  ∃ st' evs,
    dispatch env fuel s args st = Some (Normal, st') ∧
    (∀ k, Forall (λ n, n ≤ k) l → ran k st st' evs) ∧
    calls evs = map (call_with (heap st) args) l ∧
    handlers s (heap st') =
      Some (filter (λ n, once_of (heap st) n = false) l) ∧
    (∀ n, owner_of (heap st') n = Some s ↔
          once_of (heap st) n = false ∧ owner_of (heap st) n = Some s) ∧
    (∀ s', s' ≠ s → handlers s' (heap st') = handlers s' (heap st)).
Proof.
  intros W En E Q Hf. unfold dispatch, dispatch_with. rewrite En.
  pose proof (handlers_loop_chain _ _ _ _ E) as C.
  destruct (dispatch_loop_quiet env s args l (head_of (heap st) s) None
              (fuel - length l) st W C Q)
    as (st' & evs & E' & R & Ca & O).
  replace (length l + (fuel - length l)) with fuel in E' by lia.
  assert (E2 : dispatch_loop env (fuel - length l) s args None st' =
               Some (Normal, st')) by by destruct (fuel - length l).
  rewrite E2 in E'.
  assert (El : match head_of (heap st) s with
               | Some n => dispatch_loop env fuel s args (Some n) st
               | None => Some (Normal, st)
               end = Some (Normal, st')).
  { destruct (head_of (heap st) s) as [hd|] eqn:Eh; [done|].
    destruct l as [|n l]; [|by destruct C].
    destruct fuel; simpl in E'; by simplify_eq. }
  destruct (bound_exists l) as [k Hk].
  destruct (R k Hk) as [T _ _].
  pose proof (tp_wf _ _ _ T) as W'.
  destruct (handlers_spec (heap st) s W) as (l0 & E0 & _ & _ & _ & _ & Hm).
  simplify_eq.
  assert (Ho : ∀ n, owner_of (heap st') n = Some s ↔
                 once_of (heap st) n = false ∧ owner_of (heap st) n = Some s).
  { intros n. rewrite O. specialize (Hm n).
    destruct (once_of (heap st) n); case_decide; split; intros; destruct_and?;
      try done; contra. }
  exists st', evs. split; [done|]. split; [done|]. split; [done|].
  split; [|split; [done|]].
  - by apply (handlers_restrict (λ n, once_of (heap st) n = false) (heap st)).
  - intros s' Hs. apply handlers_same_owners; [done..|].
    intros n. rewrite O. case_decide; [|done]. split; intros; destruct_and?;
      congruence.
Qed.

(** X10. With handlers that change no list, a dispatch calls every handler
    of the list once, in order, and takes exactly the once bindings off
    it: afterwards handlers() lists the bindings that are not once
    bindings, in their old order, has() is false for the once bindings
    and true for the others, and the lists of other signals are as they
    were. *)
Theorem dispatch_leaves_non_once fuel s args h tr l :
  wf h → enabled_of h s = true → handlers s h = Some l →
  all_quiet env h args l → length l ≤ fuel →
  ∃ st' evs,
    dispatch env fuel s args (mkState h tr) = Some (Normal, st') ∧
    trace st' = tr ++ evs ∧
    calls evs = map (call_with h args) l ∧
    handlers s (heap st') = Some (filter (λ n, once_of h n = false) l) ∧
    (∀ n, n ∈ l → has s n (heap st') = negb (once_of h n)) ∧
    (∀ s', s' ≠ s → handlers s' (heap st') = handlers s' h).
Proof.
  intros W En E Q Hf.
  destruct (dispatch_quiet fuel s args (mkState h tr) l W En E Q Hf)
    as (st' & evs & E' & R & C & H' & Ho & Hs).
  simpl in *.
  destruct (bound_exists l) as [k Hk].
  exists st', evs. split; [done|].
  split; [apply (ran_trace _ _ _ _ (R k Hk))|].
  split; [done|]. split; [done|]. split; [|done].
  intros n Hn.
  destruct (handlers_spec h s W) as (l0 & E0 & _ & _ & _ & _ & Hm).
  simplify_eq. apply Hm in Hn.
  unfold has. destruct (once_of h n) eqn:Eo; simpl.
  - apply bool_decide_eq_false_2. rewrite Ho. intros [? _]. congruence.
  - apply bool_decide_eq_true_2. by apply Ho.
Qed.

(** X11. Two dispatches in a row with handlers that change no list: the
    first calls every handler, the second, if the signal is still
    enabled, calls the handlers of the bindings that are not once
    bindings and no other; a once handler is called in the first dispatch
    only. *)
Theorem second_dispatch_skips_once fuel s args args' h tr l :
  wf h → enabled_of h s = true → handlers s h = Some l →
  all_quiet env h args l → all_quiet env h args' l → length l ≤ fuel →
  ∃ st1 e1,
    dispatch env fuel s args (mkState h tr) = Some (Normal, st1) ∧
    trace st1 = tr ++ e1 ∧
    calls e1 = map (call_with h args) l ∧
    (enabled_of (heap st1) s = true →
     ∃ st2 e2,
       dispatch env fuel s args' st1 = Some (Normal, st2) ∧
       trace st2 = tr ++ e1 ++ e2 ∧
       calls e2 = map (call_with h args')
                      (filter (λ n, once_of h n = false) l) ∧
       handlers s (heap st2) = Some (filter (λ n, once_of h n = false) l)).
Proof.
  intros W En E Q Q' Hf.
  destruct (dispatch_quiet fuel s args (mkState h tr) l W En E Q Hf)
    as (st1 & e1 & E1 & R1 & C1 & H1 & _).
  simpl in *.
  destruct (bound_exists l) as [k Hk].
  destruct (R1 k Hk) as [T1 Tr1 _]. simpl in T1, Tr1.
  exists st1, e1. split; [done|]. split; [done|]. split; [done|].
  intros En1.
  set (l1 := filter (λ n, once_of h n = false) l) in *.
  assert (Hin : ∀ n, n ∈ l1 → n ∈ l).
  { intros n Hn. apply list_elem_of_filter in Hn. by destruct Hn. }
  destruct (dispatch_quiet fuel s args' st1 l1 (tp_wf _ _ _ T1) En1 H1)
    as (st2 & e2 & E2 & R2 & C2 & H2 & _).
  { by apply (all_quiet_post h _ _ l _ k). }
  { pose proof (length_filter (λ n, once_of h n = false) l). fold l1 in H.
    lia. }
  destruct (bound_exists l1) as [k1 Hk1].
  destruct (R2 k1 Hk1) as [_ Tr2 _].
  exists st2, e2. split; [done|].
  split; [by rewrite Tr2, Tr1, app_assoc|].
  split.
  { rewrite C2. apply map_ext. intros n. unfold call_with.
    by rewrite (tp_this _ _ _ T1). }
  rewrite H2. f_equal. subst l1.
  rewrite list_filter_filter. apply list_filter_iff.
  intros n. rewrite (tp_once _ _ _ T1). by split; [intros [? _]|].
Qed.

End QuietDispatch.

(** ** Chains, and one turn of the loop *)

Lemma chain_seg_lt h cur l a :
  wf h → chain_seg h cur l (Some a) → Forall (λ n, n < a) l.
Proof.
  intros W. revert cur. induction l as [|n l IH]; intros cur; simpl; [done|].
  intros [-> C]. pose proof (IH _ C) as Hl. constructor; [|done].
  destruct l as [|m l]; simpl in C.
  - pose proof (wf_next_lt _ W _ _ C). lia.
  - destruct C as [E C]. pose proof (wf_next_lt _ W _ _ E).
    apply Forall_cons in Hl as [Hm _]. lia.
Qed.

Lemma fresh_fields h n :
  length (bindings h) ≤ n →
  owner_of h n = None ∧ next_of h n = None ∧ prev_of h n = None.
Proof.
  intros Hn. unfold owner_of, next_of, prev_of. by rewrite lookup_ge_None_2.
Qed.

Lemma quiet_post_static h h' :
  quiet_post h h' →
  (∀ n, fn_of h' n = fn_of h n) ∧ (∀ n, this_of h' n = this_of h n) ∧
  (∀ n, once_of h' n = once_of h n) ∧
  length (bindings h') = length (bindings h).
Proof.
  intros [E _ _ _]. unfold fn_of, this_of, once_of. by rewrite E.
Qed.

Section Unfold.
Variable env : Handlers.

Lemma dispatch_loop_unfold fuel s args n st :
  dispatch_loop env (S fuel) s args (Some n) st =
  let h1 := if once_of (heap st) n then detach s n (heap st) else heap st in
  match run (dispatch_with (dispatch_loop env fuel))
            (env (fn_of h1 n) (this_of h1 n) (call_args args))
            (log (EvCall n (this_of h1 n) (call_args args) h1)
                 (mkState h1 (trace st))) with
  | Some (Normal, st2) => dispatch_loop env fuel s args (next_of (heap st2) n) st2
  | r => r
  end.
Proof. done. Qed.

End Unfold.

(** ** A handler that calls detachAll *)

Lemma calm_post_refl h : wf h → calm_post h h.
Proof. intros W. split; try done. by left. Qed.

Lemma calm_post_trans h1 h2 h3 :
  calm_post h1 h2 → calm_post h2 h3 → calm_post h1 h3.
Proof.
  intros [A1 A2 A3 A4 A5 A6 A7 A8] [B1 B2 B3 B4 B5 B6 B7 B8].
  split; try done; try lia.
  - intros m Hm. rewrite B4, A4; [done|lia..].
  - intros m Hm. rewrite B5, A5; [done|lia..].
  - intros m Hm. rewrite B6, A6; [done|lia..].
  - intros m Hm. assert (Hm' : m < length (bindings h2)) by lia.
    destruct (B7 m Hm') as [E|E]; [|by right].
    rewrite E. by apply A7.
  - intros m Hm Ho. rewrite B8, A8; [done..|lia|].
    destruct (A7 m Hm) as [E|E]; congruence.
Qed.

Lemma calm_post_same h h' :
  bindings h' = bindings h → wf h' →
  length (signals h) ≤ length (signals h') → calm_post h h'.
Proof.
  intros E W Ls.
  split; try done; intros;
    unfold once_of, fn_of, this_of, owner_of, next_of; rewrite ?E;
    try done; try lia.
  by left.
Qed.

Lemma calm_post_detach h s x : wf h → calm_post h (detach s x h).
Proof.
  intros W.
  destruct (decide (owner_of h x = Some s)) as [Ho|Ho];
    [|rewrite detach_not_owner by done; by apply calm_post_refl].
  destruct (detach_fields h s x W Ho) as (Fn & Fp & Fo & Fh & Ft).
  destruct (detach_static h s x) as (Lb & Ls & _ & _ & F1 & F2 & F3 & _).
  split; try done; try lia.
  - by apply wf_detach.
  - intros m _. rewrite Fo. case_decide; [by right|by left].
  - intros m _ Hm. rewrite Fn. case_decide as Ep; [|done].
    destruct (wf_prev_owned _ W _ _ _ Ho Ep) as [Hom _]. congruence.
Qed.

Lemma calm_post_new h s f o this :
  wf h → s < length (signals h) →
  calm_post h (_addSignalBinding s (length (bindings h))
                 (new_binding f o this h).2).
Proof.
  intros W Vs.
  destruct (new_fields h s f o this W Vs) as (Fn & Fp & Fo & Fh & Ft & Lb & Ls).
  destruct (add_binding_static (new_binding f o this h).2 s
              (length (bindings h))) as (_ & _ & _ & _ & S1 & S2 & S3 & _).
  destruct (new_binding_fields f o this h)
    as (_ & _ & _ & _ & _ & _ & _ & _ & N1 & N2 & N3).
  cbv zeta in *.
  split.
  - by apply wf_new.
  - lia.
  - lia.
  - intros m Hm. rewrite S1, N1. by rewrite decide_False by lia.
  - intros m Hm. rewrite S2, N2. by rewrite decide_False by lia.
  - intros m Hm. rewrite S3, N3. by rewrite decide_False by lia.
  - intros m Hm. rewrite Fo. rewrite decide_False by lia. by left.
  - intros m Hm Ho. rewrite Fn. case_decide as Et; [|done].
    apply (wf_tail_owned _ W) in Et. congruence.
Qed.

Lemma calm_post_detachAll h s h' :
  wf h → detachAll s h = Some h' → calm_post h h'.
Proof.
  intros W E.
  destruct (detachAll_fields h s W)
    as (h'' & E' & Fn & Fp & Fo & Fh & Ft & Fe & F1 & F2 & F3 & Lb & Ls & _).
  simplify_eq. split; try done; try lia.
  - by eapply wf_detachAll.
  - intros m _. rewrite Fo. case_decide; [by right|by left].
Qed.

Lemma exec_op_calm base nsig op st :
  calm_op nsig op = true → nsig ≤ length (signals (heap st)) →
  wf (heap st) →
  ∃ a st' evs, exec_op base op st = Some (inl a, st') ∧
    calm_post (heap st) (heap st') ∧
    trace st' = trace st ++ evs ∧ no_calls evs.
Proof.
  intros Hc Hn W. unfold exec_op.
  assert (Hok : op_ok (heap st) op = true).
  { unfold op_ok. destruct op; simpl in *; try done;
      try (apply bool_decide_eq_true_1 in Hc; apply bool_decide_eq_true_2; lia). }
  assert (Hs : ∀ s, op_signal op = Some s → s < length (signals (heap st))).
  { intros s Es. unfold op_ok in Hok. rewrite Es in Hok.
    by apply bool_decide_eq_true_1 in Hok. }
  rewrite Hok. simpl.
  destruct op; simpl in Hc; try done.
  - (* new Signal *)
    eexists _, _, []. split; [done|]. simpl. rewrite app_nil_r.
    split; [|done]. apply calm_post_same; [done| |simpl; rewrite length_app; lia].
    eapply wf_same_links; [apply (same_links_new_signal (heap st))|done].
  - (* add *)
    eexists _, _, []. split; [done|]. simpl. rewrite app_nil_r.
    split; [|done].
    apply (calm_post_new (heap st) s f false (or_null this) W).
    by apply Hs.
  - (* once *)
    eexists _, _, []. split; [done|]. simpl. rewrite app_nil_r.
    split; [|done].
    apply (calm_post_new (heap st) s f true (or_null this) W).
    by apply Hs.
  - (* detach *)
    eexists _, _, []. split; [done|]. simpl. rewrite app_nil_r.
    split; [|done]. by apply calm_post_detach.
  - (* Binding.detach *)
    unfold binding_detach. destruct (owner_of (heap st) b) eqn:Eo.
    + eexists _, _, []. split; [done|]. simpl. rewrite app_nil_r.
      split; [|done]. by apply calm_post_detach.
    + eexists _, _, []. split; [done|]. simpl. rewrite app_nil_r.
      split; [|done]. by apply calm_post_refl.
  - (* detachAll *)
    destruct (detachAll_fields (heap st) s W) as (h' & E & _).
    rewrite E. simpl. eexists _, _, []. split; [done|]. simpl.
    rewrite app_nil_r. split; [|done]. by eapply calm_post_detachAll.
  - (* enabled = v *)
    eexists _, _, []. split; [done|]. simpl. rewrite app_nil_r.
    split; [|done]. apply calm_post_same; [done| |].
    + eapply wf_same_links; [apply same_links_set_enabled|done].
    + unfold set_enabled, upd_signal. simpl. by rewrite length_alter.
  - eexists _, _, []. split; [done|]. rewrite app_nil_r.
    split; [|done]. by apply calm_post_refl.
  - destruct (handlers_spec (heap st) s W) as (l & E & _). rewrite E. simpl.
    eexists _, _, []. split; [done|]. rewrite app_nil_r.
    split; [|done]. by apply calm_post_refl.
  - eexists _, _, []. split; [done|]. rewrite app_nil_r.
    split; [|done]. by apply calm_post_refl.
  - eexists _, _, []. split; [done|]. rewrite app_nil_r.
    split; [|done]. by apply calm_post_refl.
  - (* a resolve function *)
    destruct v; try done.
    destruct (promise_run_resolve st p) as (b & T & _).
    exists AUnit, (resolve p st), [EvResolve p b].
    split; [done|]. split; [|done].
    apply calm_post_same.
    + unfold resolve. repeat case_match; done.
    + eapply wf_same_links; [apply same_links_resolve|done].
    + unfold resolve. repeat case_match; done.
  - eexists _, _, []. split; [done|]. rewrite app_nil_r.
    split; [|done]. by apply calm_post_refl.
  - eexists _, _, []. split; [done|]. simpl. rewrite app_nil_r.
    split; [|done]. apply calm_post_same; [done| |done].
    eapply wf_same_links; [apply same_links_set_user|done].
Qed.

Lemma run_calm base nsig p : ∀ st,
  calm nsig p → nsig ≤ length (signals (heap st)) → wf (heap st) →
  ∃ st' evs, run base p st = Some (Normal, st') ∧
    calm_post (heap st) (heap st') ∧
    trace st' = trace st ++ evs ∧ no_calls evs.
Proof.
  induction p as [| |op k IH]; intros st C Hn W.
  - exists st, []. split; [done|]. split; [by apply calm_post_refl|].
    by rewrite app_nil_r.
  - inversion C.
  - inversion C as [|? ? Hop Hk]; subst. simpl.
    destruct (exec_op_calm base nsig op st Hop Hn W)
      as (a & st1 & e1 & E & P1 & T1 & C1).
    rewrite E.
    destruct (IH a st1 (Hk a)) as (st2 & e2 & E2 & P2 & T2 & C2).
    { pose proof (cp_lens _ _ P1). lia. }
    { apply (cp_wf _ _ P1). }
    exists st2, (e1 ++ e2). split; [done|].
    split; [by eapply calm_post_trans|].
    split; [by rewrite T2, T1, app_assoc|].
    unfold no_calls in *. by rewrite calls_app, C1, C2.
Qed.

Lemma tame_op_calm nsig n op : tame_op nsig n op = true → calm_op nsig op = true.
Proof.
  destruct op; simpl; try done.
  intros H. apply bool_decide_eq_true_1 in H. destruct H.
  by apply bool_decide_eq_true_2.
Qed.

Lemma tame_calm nsig n p : tame nsig n p → calm nsig p.
Proof.
  induction 1 as [|op k Hop _ IH]; constructor; [|done].
  by eapply tame_op_calm.
Qed.

Lemma run_detaches_all base nsig s n p : ∀ st,
  detaches_all nsig s n p → nsig = length (signals (heap st)) →
  wf (heap st) →
  ∃ st' evs h2,
    run base p st = Some (Normal, st') ∧
    trace st' = trace st ++ evs ∧ no_calls evs ∧
    tame_post n (heap st) h2 ∧
    (∀ m, owner_of h2 m ≠ Some s) ∧
    calm_post h2 (heap st').
Proof.
  induction p as [| |op k IH]; intros st D Hn W.
  - inversion D.
  - inversion D.
  - inversion D as [k' Vs Hk|op' k' Hop Hk]; subst.
    + (* s.detachAll() *)
      destruct (detachAll_fields (heap st) s W)
        as (h2 & E & Fn & Fp & Fo & Fh & Ft & Fe & F1 & F2 & F3 & Lb & Ls & _).
      simpl. unfold exec_op, op_ok. simpl.
      rewrite bool_decide_eq_true_2 by done. simpl. rewrite E. simpl.
      destruct (run_calm base (length (signals (heap st))) (k AUnit)
                  (mkState h2 (trace st)) (Hk AUnit))
        as (st' & evs & Er & P & T & C).
      { simpl. lia. }
      { simpl. by eapply wf_detachAll. }
      exists st', evs, h2. split; [done|]. split; [done|]. split; [done|].
      split; [by eapply tame_post_detachAll|]. split; [|done].
      intros m. rewrite Fo. by case_decide.
    + simpl.
      destruct (exec_op_tame base n op st Hop W)
        as (a & st1 & e1 & E & R1 & C1).
      rewrite E. destruct R1 as [T1 Tr1 _].
      destruct (IH a st1 (Hk a)) as (st' & e2 & h2 & Er & Tr2 & C2 & T2 & O2 & P2).
      { by rewrite (tp_lens _ _ _ T1). }
      { apply (tp_wf _ _ _ T1). }
      exists st', (e1 ++ e2), h2. split; [done|].
      split; [by rewrite Tr2, Tr1, app_assoc|].
      split; [unfold no_calls in *; by rewrite calls_app, C1, C2|].
      split; [by eapply tame_post_trans|done].
Qed.

Lemma called_after_detachAll_no_calls s nb evs :
  no_calls evs → Forall (called_after_detachAll s nb) evs.
Proof.
  unfold no_calls, calls. induction evs as [|[] evs IH]; simpl; [done|done|].
  intros E. constructor; [done|]. by apply IH.
Qed.

(** A binding that may not exist before [nb] is attached to [s]: what
    hasAny() says then. *)
Lemma hasAny_new h s nb :
  wf h → (∀ m, m < nb → owner_of h m ≠ Some s) →
  hasAny s h = true ↔ ∃ b, nb ≤ b ∧ owner_of h b = Some s.
Proof.
  intros W Ho. unfold hasAny. split.
  - intros H. apply bool_decide_eq_true_1 in H.
    destruct (head_of h s) as [hd|] eqn:Eh; [|done].
    apply (wf_head_owned _ W) in Eh. exists hd. split; [|done].
    destruct (decide (nb ≤ hd)) as [|Hlt]; [done|].
    exfalso. apply (Ho hd); [lia|done].
  - intros (b & _ & Hb). apply bool_decide_eq_true_2.
    destruct (handlers_spec h s W) as (l & _ & Hh & _ & _ & _ & Hm).
    apply Hm in Hb. rewrite Hh. destruct l; [by apply elem_of_nil in Hb|done].
Qed.

Section DetachAll.
Variable env : Handlers.

(** The loop over bindings that have been detached, their handlers being
    calm: the loop follows their old next links and calls every one. *)
Lemma dispatch_loop_detached s args nsig nb post :
  ∀ cur fuel st,
  wf (heap st) → nsig ≤ length (signals (heap st)) →
  nb ≤ length (bindings (heap st)) →
  (∀ m, m < nb → owner_of (heap st) m ≠ Some s) →
  chain_seg (heap st) cur post None →
  (∀ n, n ∈ post → n < nb ∧ owner_of (heap st) n = None) →
  (∀ n, n ∈ post → calm nsig (handler_of env (heap st) args n)) →
  ∃ st' evs,
    dispatch_loop env (length post + fuel) s args cur st = Some (Normal, st') ∧
    calm_post (heap st) (heap st') ∧
    trace st' = trace st ++ evs ∧
    calls evs = map (call_with (heap st) args) post ∧
    Forall (called_after_detachAll s nb) evs.
Proof.
  induction post as [|n post IH]; intros cur fuel st W Hs Hb Ho C D Q.
  - simpl in C. subst. exists st, []. split; [by destruct fuel|].
    split; [by apply calm_post_refl|]. by rewrite app_nil_r.
  - simpl in C. destruct C as [-> C].
    destruct (D n (list_elem_of_here _ _)) as [Hn Hon].
    change (length (n :: post) + fuel) with (S (length post + fuel)).
    rewrite dispatch_loop_unfold. cbv zeta.
    assert (Eh : (if once_of (heap st) n then detach s n (heap st)
                  else heap st) = heap st).
    { destruct (once_of (heap st) n); [|done].
      apply detach_not_owner. congruence. }
    rewrite Eh.
    set (ev := EvCall n (this_of (heap st) n) (call_args args) (heap st)).
    destruct (run_calm (dispatch_with (dispatch_loop env (length post + fuel)))
                nsig (env (fn_of (heap st) n) (this_of (heap st) n)
                          (call_args args))
                (log ev (mkState (heap st) (trace st))))
      as (st2 & e2 & E2 & P2 & T2 & C2).
    { apply Q. by left. }
    { done. }
    { done. }
    rewrite E2.
    change (heap (log ev (mkState (heap st) (trace st)))) with (heap st) in P2.
    change (trace (log ev (mkState (heap st) (trace st))))
      with (trace st ++ [ev]) in T2.
    destruct P2 as [W2 Lb2 Ls2 S1 S2 S3 Ow2 Nx2].
    assert (Dn : ∀ m, m ∈ n :: post →
              m < length (bindings (heap st)) ∧ owner_of (heap st) m = None).
    { intros m Hm. destruct (D m Hm). split; [lia|done]. }
    destruct (IH (next_of (heap st2) n) fuel st2)
      as (st3 & e3 & E3 & P3 & T3 & C3 & F3); [done|lia|lia| | | | |].
    { intros m Hm. destruct (Ow2 m) as [Eo|Eo]; [lia| |]; rewrite Eo;
        [by apply Ho|done]. }
    { rewrite Nx2 by (by apply Dn; left).
      eapply chain_seg_stable; [|done]. intros m Hm.
      apply Nx2; apply Dn; by right. }
    { intros m Hm. destruct (D m) as [Hm1 Hm2]; [by right|].
      split; [done|].
      destruct (Ow2 m) as [Eo|Eo]; [lia| |done]. by rewrite Eo. }
    { intros m Hm. unfold handler_of.
      destruct (Dn m) as [Hm1 _]; [by right|].
      rewrite S2, S3 by done. apply Q. by right. }
    exists st3, (ev :: e2 ++ e3).
    split; [done|].
    split.
    { eapply calm_post_trans; [|done]. by split. }
    split; [by rewrite T3, T2, <- !app_assoc|].
    split.
    { change (ev :: e2 ++ e3) with ([ev] ++ e2 ++ e3).
      unfold no_calls in C2. rewrite !calls_app, C2, C3. simpl. f_equal.
      apply map_ext_in. intros m Hm. unfold call_with.
      destruct (Dn m) as [Hm1 _]; [right; by apply list_elem_of_In|].
      by rewrite S3. }
    constructor.
    { simpl. split.
      - unfold has. apply bool_decide_eq_false_2. congruence.
      - by apply hasAny_new. }
    apply Forall_app. split; [by apply called_after_detachAll_no_calls|done].
Qed.

(** C10. A handler that calls detachAll() on the dispatching signal does
    not stop the dispatch: the handlers of the bindings that followed it
    are still called, in order, each on a heap in which its own binding
    is detached ([has] is false).  [hasAny] is false at that moment as
    well, unless a binding created since the dispatch began is attached
    to the signal: then it is true.  (The handlers before are tame; the
    handler that calls detachAll is tame until that call; from then on
    the handlers may do what they like short of throwing and of
    dispatching.) *)
Theorem detachAll_mid_dispatch fuel s args h tr pre a post :
  wf h → enabled_of h s = true → handlers s h = Some (pre ++ a :: post) →
  all_tame env h args pre →
  detaches_all (length (signals h)) s a (handler_of env h args a) →
  (∀ n, n ∈ post → calm (length (signals h)) (handler_of env h args n)) →
  length (pre ++ a :: post) ≤ fuel →
  ∃ st' e1 e2,
    dispatch env fuel s args (mkState h tr) = Some (Normal, st') ∧
    trace st' = tr ++ e1 ++ e2 ∧
    calls e1 = map (call_with h args) (pre ++ [a]) ∧
    calls e2 = map (call_with h args) post ∧
    Forall (called_after_detachAll s (length (bindings h))) e2.
Proof.
  intros W En E T Da Q Hfuel.
  pose proof (handlers_loop_chain _ _ _ _ E) as C.
  apply chain_seg_app in C as (x & C1 & C2).
  destruct C2 as [-> C2].
  assert (Hhd : ∃ hd, head_of h s = Some hd).
  { destruct pre; simpl in C1; [by exists a|]. destruct C1 as [-> _]. eauto. }
  destruct Hhd as [hd Hhd].
  rewrite (dispatch_nonempty env fuel s args (mkState h tr) hd En Hhd).
  rewrite <- Hhd.
  rewrite length_app in Hfuel. simpl in Hfuel.
  (* the bindings before [a] *)
  destruct (dispatch_loop_tame env s args pre (head_of h s) (Some a)
              (fuel - length pre) (mkState h tr) W C1 T)
    as (st1 & e1 & E1 & R1 & Ca1 & _).
  replace (length pre + (fuel - length pre)) with fuel in E1 by lia.
  simpl in Ca1.
  pose proof (chain_seg_lt _ _ _ _ W C1) as Hlt.
  assert (Hle : Forall (λ n, n ≤ a) pre).
  { eapply Forall_impl; [done|]. simpl. lia. }
  destruct (R1 a Hle) as [T1 Tr1 _]. simpl in T1, Tr1.
  pose proof (tp_wf _ _ _ T1) as W1.
  rewrite E1.
  destruct (fuel - length pre) as [|f'] eqn:Ef; [lia|].
  (* the binding whose handler calls detachAll *)
  rewrite dispatch_loop_unfold. cbv zeta.
  set (h1 := if once_of (heap st1) a then detach s a (heap st1)
             else heap st1).
  assert (Th1 : tame_post a (heap st1) h1).
  { subst h1. destruct (once_of (heap st1) a);
      [by apply tame_post_detach|by apply tame_post_refl]. }
  assert (T01 : tame_post a h h1) by by eapply tame_post_trans.
  rewrite (tp_fn _ _ _ T01), (tp_this _ _ _ T01).
  set (ev := EvCall a (this_of h a) (call_args args) h1).
  destruct (run_detaches_all (dispatch_with (dispatch_loop env f'))
              (length (signals h)) s a (handler_of env h args a)
              (log ev (mkState h1 (trace st1))) Da)
    as (st2 & e2 & h2 & E2 & Tr2 & C2' & T2 & O2 & P2).
  { simpl. by rewrite (tp_lens _ _ _ T01). }
  { simpl. apply (tp_wf _ _ _ T01). }
  unfold handler_of in E2. rewrite E2.
  change (heap (log ev (mkState h1 (trace st1)))) with h1 in T2.
  change (trace (log ev (mkState h1 (trace st1))))
    with (trace st1 ++ [ev]) in Tr2.
  assert (T02 : tame_post a h h2) by by eapply tame_post_trans.
  destruct P2 as [W3 Lb3 Ls3 S1 S2 S3 Ow3 Nx3].
  rewrite (tp_lenb _ _ _ T02) in Lb3, S1, S2, S3, Ow3, Nx3.
  rewrite (tp_lens _ _ _ T02) in Ls3.
  destruct (handlers_spec h s W) as (l0 & E0 & _ & _ & _ & _ & Hm).
  simplify_eq.
  (* the bindings of the list, from [a] on, are detached in [h2] *)
  assert (Hdet : ∀ m, m ∈ a :: post →
            m < length (bindings h) ∧ owner_of h2 m = None ∧
            next_of h2 m = next_of h m).
  { intros m Hin.
    assert (Hom : owner_of h m = Some s).
    { apply Hm. apply elem_of_app. by right. }
    split; [exact (valid_of_owner _ _ _ Hom)|]. split.
    - destruct (tp_owner _ _ _ T02 m) as [Eo|Eo]; [|done].
      exfalso. apply (O2 m). congruence.
    - apply (tp_next _ _ _ T02).
      apply elem_of_cons in Hin as [->|Hin]; [done|].
      pose proof (chain_seg_gt _ _ _ _ W C2) as Hgt.
      rewrite Forall_forall in Hgt. apply Hgt in Hin. lia. }
  assert (Hpost : ∀ m, m ∈ post → m ∈ a :: post) by (intros; by right).
  destruct (Hdet a (list_elem_of_here _ _)) as (Va & Oa & Na).
  (* the bindings behind [a] *)
  destruct (dispatch_loop_detached s args (length (signals h))
              (length (bindings h)) post (next_of (heap st2) a)
              (f' - length post) st2)
    as (st3 & e3 & E3 & P3 & Tr3 & Ca3 & F3); [done|lia|lia| | | | |].
  { intros m Hm'. destruct (Ow3 m Hm') as [Eo|Eo]; rewrite Eo; [apply O2|done]. }
  { rewrite Nx3, Na by done.
    eapply chain_seg_stable; [|done]. intros m Hin.
    destruct (Hdet m (Hpost m Hin)) as (Vm & Om & Nm).
    by rewrite Nx3, Nm. }
  { intros m Hin. destruct (Hdet m (Hpost m Hin)) as (Vm & Om & Nm).
    split; [done|]. destruct (Ow3 m Vm) as [Eo|Eo]; [|done]. by rewrite Eo. }
  { intros m Hin. destruct (Hdet m (Hpost m Hin)) as (Vm & Om & Nm).
    unfold handler_of. rewrite S2, S3 by done.
    rewrite (tp_fn _ _ _ T02), (tp_this _ _ _ T02). by apply Q. }
  replace (length post + (f' - length post)) with f' in E3 by lia.
  rewrite E3.
  exists st3, (e1 ++ ev :: e2), e3. split; [done|].
  split; [by rewrite Tr3, Tr2, Tr1, <- !app_assoc|].
  split.
  { unfold no_calls in C2'. change (ev :: e2) with ([ev] ++ e2).
    by rewrite !calls_app, Ca1, C2', map_app. }
  split; [|done].
  rewrite Ca3. apply map_ext_in. intros m Hin. apply list_elem_of_In in Hin.
  destruct (Hdet m (Hpost m Hin)) as (Vm & _).
  unfold call_with. by rewrite S3, (tp_this _ _ _ T02).
Qed.

End DetachAll.

(** ** A handler that detaches its own binding first *)

Lemma detach_detach h s b : detach s b (detach s b h) = detach s b h.
Proof.
  destruct (decide (owner_of h b = Some s)) as [Ho|Ho].
  - apply detach_not_owner. by rewrite owner_detach_None.
  - by rewrite !(detach_not_owner h s b Ho).
Qed.

(** The owner of [m] after [n] was or was not detached. *)
Lemma owner_if_detach (d : bool) h s n m :
  wf h →
  owner_of (if d then detach s n h else h) m =
  if decide (m = n ∧ d = true ∧ owner_of h n = Some s)
  then None else owner_of h m.
Proof.
  intros W. destruct d.
  - destruct (decide (owner_of h n = Some s)) as [Ho|Ho].
    + destruct (detach_fields h s n W Ho) as (_ & _ & Fo & _).
      rewrite Fo. repeat case_decide; try done; contra.
    + rewrite detach_not_owner by done. case_decide; [contra|done].
  - case_decide; [contra|done].
Qed.

(** The call of [a.detach()] in front of the handler of [a], the loop
    having taken [a] off the list already when it is a once binding
    ([d]). *)
Lemma run_after_own_detach base (d sd : bool) s a p h tr :
  owner_of h a = Some s →
  run base (after_own_detach sd a p)
      (mkState (if d then detach s a h else h) tr) =
  run base p (mkState (if d || sd then detach s a h else h) tr).
Proof.
  intros Ho. destruct sd; simpl after_own_detach.
  - rewrite orb_true_r. cbn [run]. unfold exec_op, op_ok. simpl.
    unfold binding_detach. destruct d.
    + by rewrite (owner_detach_None _ _ _ Ho).
    + by rewrite Ho.
  - by rewrite orb_false_r.
Qed.

Lemma tame_post_if_detach (d : bool) h s a :
  wf h → tame_post a h (if d then detach s a h else h).
Proof.
  intros W. destruct d; [by apply tame_post_detach|by apply tame_post_refl].
Qed.

(** ** A handler that adds a binding *)

Section Adding.
Variable env : Handlers.

Lemma run_add base (o : bool) s f this k st :
  s < length (signals (heap st)) →
  run base (Do (if o then OpOnce s f this else OpAdd s f this) k) st =
  run base (k (ARef (length (bindings (heap st)))))
      (mkState (_addSignalBinding s (length (bindings (heap st)))
                  (new_binding f o (or_null this) (heap st)).2) (trace st)).
Proof.
  intros Vs. cbn [run]. unfold exec_op, op_ok.
  destruct o; simpl; by rewrite bool_decide_eq_true_2.
Qed.

(** One turn of the loop on the last binding of the list, whose handler
    adds a binding, as its first call or right after detaching its own
    binding, and then makes quiet calls only. *)
Lemma dispatch_loop_step_add fuel s args a (sd o : bool) f this k st :
  wf (heap st) → owner_of (heap st) a = Some s → next_of (heap st) a = None →
  handler_of env (heap st) args a =
    after_own_detach sd a
      (Do (if o then OpOnce s f this else OpAdd s f this) k) →
  (∀ ans, quiet (length (signals (heap st))) (k ans)) →
  let b := length (bindings (heap st)) in
  ∃ st' evs,
    dispatch_loop env (S fuel) s args (Some a) st =
    dispatch_loop env fuel s args
      (if once_of (heap st) a || sd then None else Some b) st' ∧
    trace st' = trace st ++ evs ∧
    calls evs = [call_with (heap st) args a] ∧
    wf (heap st') ∧
    length (signals (heap st')) = length (signals (heap st)) ∧
    fn_of (heap st') b = f ∧ this_of (heap st') b = or_null this ∧
    once_of (heap st') b = o ∧
    owner_of (heap st') b = Some s ∧ next_of (heap st') b = None.
Proof.
  intros W Ho En Hh Hk b. rewrite dispatch_loop_unfold.
  set (h0 := if once_of (heap st) a then detach s a (heap st) else heap st).
  cbv zeta.
  assert (T0 : tame_post a (heap st) h0) by by apply tame_post_if_detach.
  rewrite (tp_fn _ _ _ T0), (tp_this _ _ _ T0).
  unfold handler_of in Hh. rewrite Hh.
  set (ev := EvCall a (this_of (heap st) a) (call_args args) h0).
  change (log ev (mkState h0 (trace st)))
    with (mkState h0 (trace st ++ [ev])).
  subst h0. rewrite (run_after_own_detach _ _ sd s a _ _ _ Ho).
  set (h1 := if once_of (heap st) a || sd then detach s a (heap st)
             else heap st).
  assert (T1 : tame_post a (heap st) h1) by by apply tame_post_if_detach.
  pose proof (tp_wf _ _ _ T1) as W1.
  assert (Vs : s < length (signals h1)).
  { rewrite (tp_lens _ _ _ T1). exact (wf_owner_valid _ W _ _ Ho). }
  rewrite run_add by done.
  change (heap (mkState h1 (trace st ++ [ev]))) with h1.
  change (trace (mkState h1 (trace st ++ [ev]))) with (trace st ++ [ev]).
  assert (Lb1 : length (bindings h1) = b) by apply (tp_lenb _ _ _ T1).
  rewrite Lb1.
  destruct (new_fields h1 s f o (or_null this) W1 Vs)
    as (Fn & Fp & Fo & Fh & Ft & Lb & Ls).
  rewrite Lb1 in Fn, Fp, Fo, Fh, Ft, Lb, Ls.
  pose proof (wf_new h1 s f o (or_null this) W1 Vs) as W2. rewrite Lb1 in W2.
  destruct (add_binding_static (new_binding f o (or_null this) h1).2 s b)
    as (_ & _ & _ & _ & S1 & S2 & S3 & _).
  destruct (new_binding_fields f o (or_null this) h1)
    as (_ & _ & _ & _ & _ & _ & _ & _ & N1 & N2 & N3).
  rewrite Lb1 in N1, N2, N3. cbv zeta in N1, N2, N3.
  set (h2 := _addSignalBinding s b (new_binding f o (or_null this) h1).2) in *.
  destruct (run_tame (dispatch_with (dispatch_loop env fuel)) 0
              (k (ARef b)) (mkState h2 (trace st ++ [ev])))
    as (st3 & e3 & E & R & C).
  { change (tame (length (signals h2)) 0 (k (ARef b))).
    rewrite Ls, (tp_lens _ _ _ T1). apply quiet_tame, Hk. }
  { done. }
  assert (Q3 : quiet_post h2 (heap st3)).
  { eapply (run_quiet_post _ _ _ _ _ _ (Hk (ARef b)) E). }
  destruct (quiet_post_static _ _ Q3) as (G1 & G2 & G3 & _).
  destruct R as [_ Tr3 _]. simpl in Tr3.
  destruct (fresh_fields h1 b) as (Fo1 & Fn1 & _); [lia|].
  assert (Ht : tail_of h1 s ≠ Some b).
  { intros Et. apply (wf_tail_owned _ W1) in Et. congruence. }
  rewrite E. exists st3, (ev :: e3).
  split.
  { f_equal. rewrite (quiet_post_next _ _ a Q3), Fn.
    subst h1. destruct (once_of (heap st) a || sd) eqn:Eo.
    - rewrite decide_False.
      + by rewrite (tp_next _ _ _ T1 a).
      + intros Et. apply (wf_tail_owned _ W1) in Et.
        rewrite owner_detach_None in Et; done.
    - rewrite decide_True; [done|]. by apply (wf_tail _ W _ _ Ho). }
  split; [by rewrite Tr3, <- app_assoc|].
  split.
  { unfold no_calls in C. change (ev :: e3) with ([ev] ++ e3).
    by rewrite calls_app, C. }
  split; [by eapply quiet_post_wf|].
  split; [by rewrite (qp_lens _ _ Q3), Ls, (tp_lens _ _ _ T1)|].
  split; [by rewrite G1, S2, N2, decide_True|].
  split; [by rewrite G2, S3, N3, decide_True|].
  split; [by rewrite G3, S1, N1, decide_True|].
  split; [by rewrite (quiet_post_owner _ _ b Q3), Fo, decide_True|].
  by rewrite (quiet_post_next _ _ b Q3), Fn, decide_False.
Qed.

(** X12. The handler of the last binding [a] of the list adds a binding
    (add or once), as its first call or right after detaching [a]
    itself, and makes only calls that change no list afterwards, as do
    the other handlers.  The new binding is called in this same dispatch,
    last, with the arguments of the dispatch and the [thisArg] given to
    add (null for undefined), exactly when [a] is still on the list at
    the add: when it is not a once binding and did not detach itself.
    Otherwise [a]'s next link stays null, the new binding is linked
    behind another tail, it is not called in this dispatch and stays
    attached. *)
Theorem added_by_last_handler fuel s args h tr pre a (sd o : bool) f this k :
  wf h → enabled_of h s = true → handlers s h = Some (pre ++ [a]) →
  all_quiet env h args pre →
  handler_of env h args a =
    after_own_detach sd a
      (Do (if o then OpOnce s f this else OpAdd s f this) k) →
  (∀ ans, quiet (length (signals h)) (k ans)) →
  quiet (length (signals h)) (env f (or_null this) (call_args args)) →
  length pre + 2 ≤ fuel →
  ∃ st' evs,
    dispatch env fuel s args (mkState h tr) = Some (Normal, st') ∧
    trace st' = tr ++ evs ∧
    calls evs = map (call_with h args) (pre ++ [a]) ++
                (if once_of h a || sd then []
                 else [(length (bindings h), or_null this, call_args args)]) ∧
    has s (length (bindings h)) (heap st') =
      (once_of h a || sd || negb o).
Proof.
  intros W En E Q Hh Hk Hf Hfuel.
  pose proof (handlers_loop_chain _ _ _ _ E) as C.
  apply chain_seg_app in C as (mid & C1 & C2).
  destruct C2 as [-> C2]. simpl in C2.
  assert (Hhd : ∃ hd, head_of h s = Some hd).
  { destruct pre; simpl in C1; [by exists a|]. destruct C1 as [-> _]. eauto. }
  destruct Hhd as [hd Hhd].
  rewrite (dispatch_nonempty env fuel s args (mkState h tr) hd En Hhd).
  rewrite <- Hhd.
  destruct (dispatch_loop_quiet env s args pre (head_of h s) (Some a)
              (fuel - length pre) (mkState h tr) W C1 Q)
    as (st1 & e1 & E1 & R1 & Ca1 & O1).
  replace (length pre + (fuel - length pre)) with fuel in E1 by lia.
  simpl in O1, Ca1.
  pose proof (chain_seg_lt _ _ _ _ W C1) as Hlt.
  assert (Hle : Forall (λ n, n ≤ a) pre).
  { eapply Forall_impl; [done|]. simpl. lia. }
  destruct (R1 a Hle) as [T1 Tr1 _]. simpl in T1, Tr1.
  pose proof (tp_wf _ _ _ T1) as W1.
  destruct (handlers_spec h s W) as (l0 & E0 & _ & _ & _ & _ & Hm).
  simplify_eq.
  assert (Hoa : owner_of h a = Some s).
  { apply Hm. apply elem_of_app. right. by apply list_elem_of_singleton. }
  assert (Ho1 : owner_of (heap st1) a = Some s).
  { rewrite O1. rewrite decide_False; [done|]. intros [Hin _].
    rewrite Forall_forall in Hlt. apply Hlt in Hin. lia. }
  assert (En1 : next_of (heap st1) a = None).
  { by rewrite (tp_next _ _ _ T1 a). }
  rewrite E1.
  destruct (fuel - length pre) as [|[|f']] eqn:Ef; [lia|lia|].
  destruct (dispatch_loop_step_add (S f') s args a sd o f this k st1
              W1 Ho1 En1)
    as (st2 & e2 & E2 & Tr2 & Ca2 & W2 & Ls2 & F2 & Th2 & On2 & Ow2 & Nx2).
  { unfold handler_of.
    by rewrite (tp_fn _ _ _ T1), (tp_this _ _ _ T1). }
  { intros ans. rewrite (tp_lens _ _ _ T1). apply Hk. }
  rewrite E2, (tp_once _ _ _ T1), (tp_lenb _ _ _ T1).
  rewrite (tp_lenb _ _ _ T1) in F2, Th2, On2, Ow2, Nx2.
  assert (Ca12 : calls (e1 ++ e2) = map (call_with h args) (pre ++ [a])).
  { rewrite calls_app, Ca1, Ca2, map_app. simpl. f_equal.
    unfold call_with. by rewrite (tp_this _ _ _ T1). }
  destruct (once_of h a || sd) eqn:Eoa.
  - exists st2, (e1 ++ e2). split; [done|].
    split; [by rewrite Tr2, Tr1, app_assoc|].
    split; [by rewrite Ca12, app_nil_r|].
    unfold has. by apply bool_decide_eq_true_2.
  - destruct (dispatch_loop_step_quiet env f' s args
                (length (bindings h)) st2 W2)
      as (st3 & e3 & E3 & R3 & Ca3 & Q3).
    { unfold handler_of. rewrite F2, Th2, Ls2, (tp_lens _ _ _ T1). done. }
    rewrite E3, Nx2.
    assert (E4 : dispatch_loop env f' s args None st3 = Some (Normal, st3))
      by by destruct f'.
    rewrite E4.
    exists st3, (e1 ++ e2 ++ e3). split; [done|].
    split.
    { rewrite (ran_trace _ _ _ _ R3), Tr2, Tr1. by rewrite !app_assoc. }
    split.
    { rewrite app_assoc, calls_app, Ca12, Ca3. unfold call_with.
      by rewrite Th2. }
    unfold has. rewrite (quiet_post_owner _ _ _ Q3).
    rewrite (owner_once_detach _ s _ _ W2), On2, Ow2. simpl.
    destruct o; simpl.
    + apply bool_decide_eq_false_2. by rewrite decide_True.
    + apply bool_decide_eq_true_2. rewrite decide_False; [done|].
      by intros (_ & ? & _).
Qed.

End Adding.

(** ** A handler that detaches a binding further down the list *)

Lemma chain_detach h s c : ∀ mid x,
  wf h → owner_of h c = Some s →
  (∀ y, y ∈ x :: mid → owner_of h y = Some s) →
  chain_seg h (Some x) (x :: mid) (Some c) →
  chain_seg (detach s c h) (Some x) (x :: mid) (next_of h c).
Proof.
  induction mid as [|y mid IH]; intros x W Hc Ho C;
    destruct (detach_fields h s c W Hc) as (Fn & _);
    pose proof (Ho x (list_elem_of_here _ _)) as Hx.
  - destruct C as [_ C]. simpl in C. split; [done|]. simpl.
    rewrite Fn, decide_True; [done|].
    by destruct (wf_next_owned _ W _ _ _ Hx C).
  - destruct C as [_ C].
    assert (Hy : next_of h x = Some y) by by destruct C.
    assert (C' : chain_seg h (Some y) (y :: mid) (Some c)).
    { split; [done|]. rewrite Hy in C. by destruct C. }
    pose proof (chain_seg_lt _ _ _ _ W C') as Hlt.
    apply Forall_cons in Hlt as [Hlt _].
    split; [done|]. change (chain_seg (detach s c h)
      (next_of (detach s c h) x) (y :: mid) (next_of h c)).
    rewrite Fn, decide_False.
    + rewrite Hy. apply IH; [done..| |done].
      intros z Hz. apply Ho. by right.
    + intros Ep. destruct (wf_prev_owned _ W _ _ _ Hc Ep) as [_ En].
      rewrite Hy in En. simplify_eq. lia.
Qed.

Section Detaching.
Variable env : Handlers.

Lemma exec_op_detach base (vb : bool) s c st :
  owner_of (heap st) c = Some s → s < length (signals (heap st)) →
  ∃ ans, exec_op base (if vb then OpBindingDetach c else OpDetach s c) st =
         Some (inl ans, on_heap (detach s c) st).
Proof.
  intros Ho Vs. unfold exec_op, op_ok. destruct vb; simpl.
  - unfold binding_detach. rewrite Ho. by eexists.
  - rewrite bool_decide_eq_true_2 by done. by eexists.
Qed.

(** One turn of the loop on a binding whose handler detaches the binding
    [c] further down, as its first call or right after detaching its own
    binding, and then makes quiet calls only. *)
Lemma dispatch_loop_step_detach fuel s args a c (sd vb : bool) k st :
  owner_of (heap st) a = Some s →
  wf (heap st) → owner_of (heap st) c = Some s → a < c →
  handler_of env (heap st) args a =
    after_own_detach sd a
      (Do (if vb then OpBindingDetach c else OpDetach s c) k) →
  (∀ ans, quiet (length (signals (heap st))) (k ans)) →
  ∃ st' evs,
    dispatch_loop env (S fuel) s args (Some a) st =
    dispatch_loop env fuel s args (next_of (heap st') a) st' ∧
    trace st' = trace st ++ evs ∧
    calls evs = [call_with (heap st) args a] ∧
    tame_post c (heap st) (heap st') ∧
    quiet_post
      (detach s c (if once_of (heap st) a || sd then detach s a (heap st)
                   else heap st))
      (heap st').
Proof.
  intros Hoa W Ho Hac Hh Hk. rewrite dispatch_loop_unfold.
  set (h0 := if once_of (heap st) a then detach s a (heap st) else heap st).
  cbv zeta.
  assert (T0 : tame_post a (heap st) h0) by by apply tame_post_if_detach.
  rewrite (tp_fn _ _ _ T0), (tp_this _ _ _ T0).
  unfold handler_of in Hh. rewrite Hh.
  set (ev := EvCall a (this_of (heap st) a) (call_args args) h0).
  change (log ev (mkState h0 (trace st)))
    with (mkState h0 (trace st ++ [ev])).
  subst h0. rewrite (run_after_own_detach _ _ sd s a _ _ _ Hoa).
  set (h1 := if once_of (heap st) a || sd then detach s a (heap st)
             else heap st).
  assert (T1 : tame_post a (heap st) h1) by by apply tame_post_if_detach.
  pose proof (tp_wf _ _ _ T1) as W1.
  assert (Vs : s < length (signals h1)).
  { rewrite (tp_lens _ _ _ T1). exact (wf_owner_valid _ W _ _ Ho). }
  assert (Ho1 : owner_of h1 c = Some s).
  { subst h1. rewrite (owner_if_detach _ _ s a c W).
    rewrite decide_False; [done|]. intros [? _]. lia. }
  destruct (exec_op_detach (dispatch_with (dispatch_loop env fuel)) vb s c
              (mkState h1 (trace st ++ [ev])) Ho1 Vs) as [ans Ee].
  cbn [run]. rewrite Ee.
  assert (T2 : tame_post c h1 (detach s c h1)) by by apply tame_post_detach.
  destruct (run_tame (dispatch_with (dispatch_loop env fuel)) c (k ans)
              (on_heap (detach s c) (mkState h1 (trace st ++ [ev]))))
    as (st3 & e3 & E & R & C).
  { change (tame (length (signals (detach s c h1))) c (k ans)).
    rewrite (tp_lens _ _ _ T2), (tp_lens _ _ _ T1). apply quiet_tame, Hk. }
  { apply (tp_wf _ _ _ T2). }
  pose proof (run_quiet_post _ _ _ _ _ _ (Hk ans) E) as Q3.
  destruct R as [T3 Tr3 _].
  change (heap (on_heap (detach s c) (mkState h1 (trace st ++ [ev]))))
    with (detach s c h1) in T3, Q3.
  change (trace (on_heap (detach s c) (mkState h1 (trace st ++ [ev]))))
    with (trace st ++ [ev]) in Tr3.
  rewrite E. exists st3, (ev :: e3).
  split; [done|].
  split; [by rewrite Tr3, <- app_assoc|].
  split.
  { unfold no_calls in C. change (ev :: e3) with ([ev] ++ e3).
    by rewrite calls_app, C. }
  split; [|done].
  eapply tame_post_trans; [|eapply tame_post_trans; [exact T2|exact T3]].
  eapply tame_post_le; [|exact T1]. lia.
Qed.

(** X13. The handler of a binding [a] of the list detaches a binding [c]
    further down the list (with detach or with [c]'s own detach), as its
    first call or right after detaching [a] itself, and makes only calls
    that change no list afterwards, as do the other handlers.  Then [c]'s
    handler is not called in this dispatch and every other handler is, in
    order; unless [a] is off the list at that moment (it is a once
    binding, or it detached itself) and [c] is the binding right behind
    it: then [a]'s next link is stale, and [c]'s handler is called
    although [c] is detached.  [has] is false for [c] afterwards in
    both cases. *)
Theorem detached_ahead_is_skipped fuel s args h tr pre a mid c post
    (sd vb : bool) k :
  wf h → enabled_of h s = true →
  handlers s h = Some (pre ++ a :: mid ++ c :: post) →
  all_quiet env h args (pre ++ mid ++ post) →
  (once_of h a || sd = true → mid = [] →
   quiet (length (signals h)) (handler_of env h args c)) →
  handler_of env h args a =
    after_own_detach sd a
      (Do (if vb then OpBindingDetach c else OpDetach s c) k) →
  (∀ ans, quiet (length (signals h)) (k ans)) →
  length (pre ++ a :: mid ++ c :: post) ≤ fuel →
  ∃ st' evs,
    dispatch env fuel s args (mkState h tr) = Some (Normal, st') ∧
    trace st' = tr ++ evs ∧
    calls evs =
      map (call_with h args)
          (pre ++ a :: mid ++
           (if decide (once_of h a || sd = true ∧ mid = []) then [c] else []) ++
           post) ∧
    has s c (heap st') = false.
Proof.
  intros W En E Q Qc Hh Hk Hfuel.
  set (stale := if decide (once_of h a || sd = true ∧ mid = [])
                then [c] else []).
  pose proof (handlers_loop_chain _ _ _ _ E) as C.
  apply chain_seg_app in C as (x & C1 & C2).
  destruct C2 as [-> C2].
  pose proof (chain_seg_gt _ _ _ _ W C2) as Hgt.
  apply chain_seg_app in C2 as (x & C2 & C3).
  destruct C3 as [-> C3].
  assert (Hhd : ∃ hd, head_of h s = Some hd).
  { destruct pre; simpl in C1; [by exists a|]. destruct C1 as [-> _]. eauto. }
  destruct Hhd as [hd Hhd].
  rewrite (dispatch_nonempty env fuel s args (mkState h tr) hd En Hhd).
  rewrite <- Hhd.
  (* the bindings before [a] *)
  assert (Qpre : all_quiet env h args pre).
  { intros n Hn. apply Q. apply elem_of_app. by left. }
  destruct (dispatch_loop_quiet env s args pre (head_of h s) (Some a)
              (fuel - length pre) (mkState h tr) W C1 Qpre)
    as (st1 & e1 & E1 & R1 & Ca1 & O1).
  rewrite length_app in Hfuel. simpl in Hfuel.
  replace (length pre + (fuel - length pre)) with fuel in E1 by lia.
  simpl in O1, Ca1.
  pose proof (chain_seg_lt _ _ _ _ W C1) as Hlt.
  rewrite Forall_forall in Hlt.
  assert (Hle : Forall (λ n, n ≤ a) pre).
  { apply Forall_forall. intros n Hn. apply Hlt in Hn. lia. }
  destruct (R1 a Hle) as [T1 Tr1 _]. simpl in T1, Tr1.
  pose proof (tp_wf _ _ _ T1) as W1.
  destruct (handlers_spec h s W) as (l0 & E0 & _ & _ & _ & _ & Hm).
  simplify_eq.
  rewrite Forall_forall in Hgt.
  assert (Hac : a < c).
  { apply Hgt. apply elem_of_app. right. by left. }
  assert (Hown : ∀ n, a ≤ n → owner_of (heap st1) n = owner_of h n).
  { intros n Hn. rewrite O1. rewrite decide_False; [done|]. intros [Hin _].
    apply Hlt in Hin. lia. }
  assert (Hoc : owner_of h c = Some s).
  { apply Hm. rewrite !elem_of_app, !elem_of_cons, !elem_of_app, !elem_of_cons.
    tauto. }
  assert (Hom : ∀ n, n ∈ mid → owner_of h n = Some s ∧ a < n).
  { intros n Hn. split.
    - apply Hm. rewrite !elem_of_app, !elem_of_cons, !elem_of_app. tauto.
    - apply Hgt. apply elem_of_app. by left. }
  rewrite E1.
  destruct (fuel - length pre) as [|f'] eqn:Ef; [lia|].
  destruct (dispatch_loop_step_detach f' s args a c sd vb k st1)
    as (st3 & e3 & E3 & Tr3 & Ca3 & T3 & Q3); [|done| |done| | |].
  { rewrite Hown by lia. apply Hm. apply elem_of_app. right. by left. }
  { by rewrite Hown by lia. }
  { unfold handler_of.
    by rewrite (tp_fn _ _ _ T1), (tp_this _ _ _ T1). }
  { intros ans. rewrite (tp_lens _ _ _ T1). apply Hk. }
  rewrite E3. rewrite (tp_once _ _ _ T1) in Q3.
  set (h1 := if once_of h a || sd then detach s a (heap st1)
             else heap st1) in *.
  assert (Th1 : tame_post a (heap st1) h1) by by apply tame_post_if_detach.
  pose proof (tp_wf _ _ _ Th1) as Wh1.
  assert (Hn1 : ∀ n, a ≤ n → next_of h1 n = next_of h n).
  { intros n Hn. by rewrite (tp_next _ _ _ Th1), (tp_next _ _ _ T1). }
  assert (Ho1 : ∀ n, a < n → owner_of h1 n = owner_of h n).
  { intros n Hn. subst h1.
    rewrite (owner_if_detach _ _ s a n W1), decide_False; [|intros [? _]; lia].
    apply Hown. lia. }
  assert (Hc1 : owner_of h1 c = Some s) by by rewrite Ho1.
  destruct (detach_fields h1 s c Wh1 Hc1) as (Fn & _ & Fo & _).
  assert (T2 : tame_post c h1 (detach s c h1)) by by apply tame_post_detach.
  (* the chain the loop follows from [a] *)
  assert (Cmid : chain_seg h1 (next_of h1 a) mid (Some c)).
  { rewrite Hn1 by lia. eapply chain_seg_stable; [|done].
    intros m Hm'. apply Hn1. apply Hom in Hm'. lia. }
  assert (Cpost : chain_seg (detach s c h1) (next_of h1 c) post None).
  { rewrite Hn1 by lia. eapply chain_seg_stable; [|done].
    intros m Hm'. rewrite (tp_next _ _ _ T2), Hn1; [done| |].
    - pose proof (chain_seg_gt _ _ _ _ W C3) as H3.
      rewrite Forall_forall in H3. apply H3 in Hm'. lia.
    - pose proof (chain_seg_gt _ _ _ _ W C3) as H3.
      rewrite Forall_forall in H3. apply H3 in Hm'. lia. }
  assert (Crest : chain_seg (detach s c h1) (next_of (detach s c h1) a)
                    (mid ++ stale ++ post) None).
  { subst stale. destruct mid as [|m mid].
    - simpl in Cmid. cbn [app].
      assert (Ena : next_of (detach s c h1) a =
                    if once_of h a || sd then Some c else next_of h1 c).
      { rewrite Fn. subst h1. destruct (once_of h a || sd) eqn:Eoa.
        - rewrite decide_False; [done|].
          assert (Hoa : owner_of (heap st1) a = Some s).
          { rewrite Hown by lia. apply Hm. apply elem_of_app. right. by left. }
          destruct (detach_fields (heap st1) s a W1 Hoa) as (_ & Fp & _).
          rewrite Fp. rewrite (tp_next _ _ _ Th1 a) in Cmid by lia.
          rewrite decide_True by done.
          intros Ep. pose proof (wf_prev_lt _ W1 _ _ Ep). lia.
        - rewrite decide_True; [done|].
          assert (Hoa : owner_of (heap st1) a = Some s).
          { rewrite Hown by lia. apply Hm. apply elem_of_app. right. by left. }
          by destruct (wf_next_owned _ W1 _ _ _ Hoa Cmid). }
      rewrite Ena. destruct (once_of h a || sd) eqn:Eoa.
      + rewrite decide_True by done. simpl. split; [done|].
        by rewrite (tp_next _ _ _ T2 c).
      + rewrite decide_False by (by intros [? _]). done.
    - rewrite decide_False by (by intros [_ ?]).
      change (chain_seg (detach s c h1) (next_of (detach s c h1) a)
                ((m :: mid) ++ post) None).
      destruct Cmid as [Ea Cmid].
      assert (C' : chain_seg (detach s c h1) (Some m) (m :: mid) (next_of h1 c)).
      { apply chain_detach; [done..| |by split].
        intros y Hy. rewrite Ho1; apply Hom in Hy; [by destruct Hy|].
        destruct Hy. lia. }
      assert (Ena : next_of (detach s c h1) a = Some m).
      { rewrite Fn, decide_False; [done|]. intros Ep.
        destruct (wf_prev_owned _ Wh1 _ _ _ Hc1 Ep) as [_ En'].
        rewrite Ea in En'. simplify_eq.
        assert (Hx : Forall (λ n, n < c) (c :: mid)).
        { apply (chain_seg_lt h1 (Some c) (c :: mid) c Wh1). by split. }
        apply Forall_cons in Hx as [Hx _]. lia. }
      rewrite Ena.
      apply (proj2 (chain_seg_app (detach s c h1) (Some m) (m :: mid) post None)).
      exists (next_of h1 c). split; [done|done]. }
  (* the rest of the loop *)
  assert (W3 : wf (heap st3)) by apply (tp_wf _ _ _ T3).
  assert (T13 : tame_post c h (heap st3)).
  { eapply tame_post_trans; [|done]. eapply tame_post_le; [|done]. lia. }
  assert (C3' : chain_seg (heap st3) (next_of (heap st3) a)
                  (mid ++ stale ++ post) None).
  { rewrite (quiet_post_next _ _ a Q3). eapply chain_seg_stable; [|done].
    intros m _. apply (quiet_post_next _ _ m Q3). }
  assert (Q3' : all_quiet env (heap st3) args (mid ++ stale ++ post)).
  { intros n Hn. unfold handler_of.
    rewrite (tp_lens _ _ _ T13), (tp_fn _ _ _ T13), (tp_this _ _ _ T13).
    rewrite !elem_of_app in Hn. destruct Hn as [Hn|[Hn|Hn]].
    - apply Q. rewrite !elem_of_app. tauto.
    - subst stale. case_decide as Hd; [|by apply elem_of_nil in Hn].
      apply list_elem_of_singleton in Hn as ->.
      destruct Hd as [Hd1 Hd2]. exact (Qc Hd1 Hd2).
    - apply Q. rewrite !elem_of_app. tauto. }
  assert (Hlen : length (mid ++ stale ++ post) ≤ f').
  { rewrite !length_app in *. simpl in Hfuel.
    assert (length stale ≤ 1) by (subst stale; case_decide; simpl; lia).
    assert (length stale = 1 → mid = []).
    { subst stale. case_decide as Hd; [by destruct Hd|done]. }
    destruct mid; simpl in *; lia. }
  destruct (dispatch_loop_quiet env s args (mid ++ stale ++ post)
              (next_of (heap st3) a) None
              (f' - length (mid ++ stale ++ post)) st3 W3 C3' Q3')
    as (st4 & e4 & E4 & R4 & Ca4 & O4).
  replace (length (mid ++ stale ++ post) +
           (f' - length (mid ++ stale ++ post))) with f' in E4 by lia.
  assert (E5 : dispatch_loop env (f' - length (mid ++ stale ++ post)) s args
                 None st4 = Some (Normal, st4))
    by by destruct (f' - length (mid ++ stale ++ post)).
  rewrite E4, E5.
  destruct (bound_exists (mid ++ stale ++ post)) as [kb Hkb].
  exists st4, (e1 ++ e3 ++ e4). split; [done|].
  split.
  { rewrite (ran_trace _ _ _ _ (R4 kb Hkb)), Tr3, Tr1. by rewrite !app_assoc. }
  split.
  { assert (Hcw : ∀ l', map (call_with (heap st3) args) l' =
                         map (call_with h args) l').
    { intros l'. apply map_ext. intros n. unfold call_with.
      by rewrite (tp_this _ _ _ T13). }
    assert (Hca : call_with (heap st1) args a = call_with h args a).
    { unfold call_with. by rewrite (tp_this _ _ _ T1). }
    rewrite !calls_app, Ca1, Ca3, Ca4, Hcw, Hca.
    by rewrite (map_app _ pre). }
  unfold has. apply bool_decide_eq_false_2.
  rewrite O4. case_decide; [done|].
  rewrite (quiet_post_owner _ _ c Q3), Fo. by rewrite decide_True.
Qed.

End Detaching.

(** ** A handler that throws in an AsyncSignal dispatch *)

Section Rejecting.
Variable env : Handlers.

(** A dispatch that ends with the exception of a handler, and what it
    did to the promises on the way. *)
Lemma dispatch_raises fuel s args h tr pre b post e :
  wf h → enabled_of h s = true → handlers s h = Some (pre ++ b :: post) →
  all_tame env h args pre →
  raises (length (signals h)) b e (handler_of env h args b) →
  length pre < fuel →
  ∃ st' evs,
    dispatch env fuel s args (mkState h tr) = Some (Thrown e, st') ∧
    trace st' = tr ++ evs ∧
    calls evs = map (call_with h args) (pre ++ [b]) ∧
    promise_run h (heap st') evs ∧
    wf (heap st') ∧
    (once_of h b = true → owner_of (heap st') b ≠ Some s).
Proof.
  intros W En E T Hr Hf.
  pose proof (handlers_loop_chain _ _ _ _ E) as C.
  apply chain_seg_app in C as (mid & C1 & C2).
  destruct C2 as [-> C2].
  assert (Hhd : ∃ hd, head_of h s = Some hd).
  { destruct pre; simpl in C1; [by exists b|]. destruct C1 as [-> _]. eauto. }
  destruct Hhd as [hd Hhd].
  rewrite (dispatch_nonempty env fuel s args (mkState h tr) hd En Hhd).
  rewrite <- Hhd.
  destruct (dispatch_loop_tame env s args pre (head_of h s) (Some b)
              (fuel - length pre) (mkState h tr) W C1 T)
    as (st1 & e1 & E1 & R1 & Ca1 & _).
  replace (length pre + (fuel - length pre)) with fuel in E1 by lia.
  destruct (bound_exists pre) as [kp Hkp].
  destruct (R1 kp Hkp) as [T1 Tr1 P1]. simpl in T1, Tr1, P1.
  pose proof (tp_wf _ _ _ T1) as W1.
  rewrite E1.
  destruct (fuel - length pre) as [|f] eqn:Ef; [lia|].
  rewrite dispatch_loop_unfold.
  set (h1 := if once_of (heap st1) b then detach s b (heap st1) else heap st1).
  cbv zeta.
  assert (Th1 : tame_post b (heap st1) h1).
  { subst h1. destruct (once_of (heap st1) b);
      [by apply tame_post_detach|by apply tame_post_refl]. }
  assert (Ph1 : promises h1 = promises (heap st1)).
  { subst h1. destruct (once_of (heap st1) b); [|done].
    by destruct (detach_static (heap st1) s b) as (_ & _ & ? & _). }
  rewrite (tp_fn _ _ _ Th1), (tp_this _ _ _ Th1).
  rewrite (tp_fn _ _ _ T1), (tp_this _ _ _ T1).
  set (ev := EvCall b (this_of h b) (call_args args) h1).
  destruct (run_raises (dispatch_with (dispatch_loop env f)) b e
              (handler_of env h args b) (log ev (mkState h1 (trace st1))))
    as (st2 & e2 & E2 & R2 & C2').
  { simpl. by rewrite (tp_lens _ _ _ Th1), (tp_lens _ _ _ T1). }
  { simpl. apply (tp_wf _ _ _ Th1). }
  unfold handler_of in E2. rewrite E2.
  exists st2, (e1 ++ ev :: e2). split; [done|].
  destruct R2 as [T2 Tr2 P2]. simpl in T2, Tr2, P2.
  split.
  { by rewrite Tr2, Tr1, <- !app_assoc. }
  split.
  { unfold no_calls in C2'. change (ev :: e2) with ([ev] ++ e2).
    by rewrite !calls_app, Ca1, C2', map_app. }
  split.
  { eapply promise_run_app; [done|].
    change (ev :: e2) with ([ev] ++ e2).
    eapply promise_run_app; [|done]. by apply promise_run_call. }
  split; [apply (tp_wf _ _ _ T2)|].
  intros Hb. rewrite <- (tp_once _ _ _ T1) in Hb.
  assert (O1 : owner_of h1 b ≠ Some s).
  { subst h1. rewrite Hb.
    destruct (decide (owner_of (heap st1) b = Some s)) as [Ho|Ho].
    - by rewrite owner_detach_None.
    - by rewrite detach_not_owner. }
  destruct (tp_owner _ _ _ T2 b) as [Eo|Eo]; rewrite Eo; done.
Qed.

(** X14. When a handler throws in an AsyncSignal dispatch, dispatch does
    not throw: the handlers of the bindings behind it are not called, and
    the promise dispatch awaits is rejected with the exception; unless a
    handler had called the completion callback before, then the promise
    is fulfilled and the exception is lost (the handlers before the
    faulting one being tame). *)
Theorem async_dispatch_rejects fuel s args h tr pre b post e :
  wf h → enabled_of h s = true → handlers s h = Some (pre ++ b :: post) →
  all_tame env h (VResolver (length (promises h)) :: args) pre →
  raises (length (signals h)) b e
         (handler_of env h (VResolver (length (promises h)) :: args) b) →
  length pre < fuel →
  ∃ st' evs,
    async_dispatch env fuel s args (mkState h tr) =
      Some (Awaits (length (promises h)), st') ∧
    trace st' = tr ++ evs ∧
    calls evs =
      map (λ n, (n, this_of h n, VResolver (length (promises h)) :: args))
          (pre ++ [b]) ∧
    awaited (heap st') (Awaits (length (promises h))) =
      (if decide (resolves (length (promises h)) evs = [])
       then Rejected e else Fulfilled).
Proof.
  intros W En E T Hr Hf. unfold async_dispatch, async_dispatch_with. simpl.
  rewrite En.
  set (p := length (promises h)) in *.
  set (h0 := mkHeap (bindings h) (signals h) (promises h ++ [Pending]) (user h)).
  assert (W0 : wf h0).
  { eapply wf_same_links; [apply (same_links_new_promise h)|done]. }
  assert (E0' : handlers s h0 = Some (pre ++ b :: post)).
  { rewrite <- E. unfold handlers. by apply handlers_loop_ext. }
  destruct (dispatch_raises fuel s (VResolver p :: args) h0 tr pre b post e
              W0 En E0' T Hr Hf)
    as (st' & evs & E' & Tr & C & P & W' & _).
  rewrite E'. exists (on_heap (reject p e) st'), evs. split; [done|].
  split; [done|]. split.
  { rewrite C. apply map_ext. intros n. unfold call_with.
    by rewrite call_args_id. }
  destruct (P p) as [Pf Ps]. simpl in Pf, Ps.
  assert (E0 : (promises h ++ [Pending]) !! p = Some Pending).
  { subst p. by rewrite lookup_app_r, Nat.sub_diag by lia. }
  rewrite E0 in Pf, Ps. unfold awaited, reject. simpl.
  destruct (resolves p evs) as [|r rs] eqn:Er; simpl in Ps; rewrite Ps.
  - rewrite decide_True by done. simpl.
    rewrite list_lookup_insert_eq; [done|]. by eapply lookup_lt_Some.
  - rewrite decide_False by done. simpl. by rewrite Ps.
Qed.

(** X15. A once binding whose handler throws has been used up all the
    same: it was taken off the list before the call, so after the failed
    dispatch the signal does not have it, handlers() does not list it,
    and the heap is still well linked (the handlers before it being
    tame). *)
Theorem throwing_once_handler_is_consumed fuel s args h tr pre b post e :
  wf h → enabled_of h s = true → handlers s h = Some (pre ++ b :: post) →
  all_tame env h args pre →
  raises (length (signals h)) b e (handler_of env h args b) →
  once_of h b = true →
  length pre < fuel →
  ∃ st' l',
    dispatch env fuel s args (mkState h tr) = Some (Thrown e, st') ∧
    has s b (heap st') = false ∧
    handlers s (heap st') = Some l' ∧ (b ∉ l') ∧
    signal_inv (heap st') s.
Proof.
  intros W En E T Hr Hb Hf.
  destruct (dispatch_raises fuel s args h tr pre b post e W En E T Hr Hf)
    as (st' & evs & E' & _ & _ & _ & W' & O).
  specialize (O Hb).
  destruct (handlers_spec (heap st') s W') as (l' & El' & _ & _ & _ & _ & Hm').
  exists st', l'. split; [done|].
  split; [by apply bool_decide_eq_false_2|].
  split; [done|]. split; [by rewrite Hm'|].
  by apply wf_signal_inv.
Qed.

End Rejecting.

(** ** A handler that dispatches its own signal *)

Section Redispatch.
Variable env : Handlers.

(** X17. A binding that is not a once binding, stands at the head of the
    list and has a handler that begins by dispatching its own signal
    makes dispatch call itself without end: no amount of fuel lets the
    dispatch return. *)
Theorem redispatch_never_returns fuel s args args' h tr n k :
  enabled_of h s = true → head_of h s = Some n → once_of h n = false →
  (∀ a, env (fn_of h n) (this_of h n) a = Do (OpDispatch s args') k) →
  dispatch env fuel s args (mkState h tr) = None.
Proof.
  intros En Eh Eo Hh. revert args tr.
  induction fuel as [|fuel IH]; intros args tr;
    rewrite (dispatch_nonempty env _ s args (mkState h tr) n En Eh);
    [done|].
  rewrite dispatch_loop_unfold. simpl. rewrite Eo, Hh.
  cbn [run]. unfold exec_op, op_ok. simpl.
  rewrite bool_decide_eq_true_2 by exact (valid_of_head _ _ _ Eh). simpl.
  change (dispatch_with (dispatch_loop env fuel)) with (dispatch env fuel).
  unfold log. simpl. by rewrite IH.
Qed.

End Redispatch.

(** ** Examples *)

Lemma all_quiet_idle h args l : all_quiet env_idle h args l.
Proof. intros n _. constructor. Qed.

Ltac quiet_tac :=
  vm_compute;
  repeat first [ apply quiet_Ret | apply quiet_Do; [reflexivity|intros ?] ].

Ltac all_quiet_tac :=
  let n := fresh "n" in let Hn := fresh "Hn" in
  intros n Hn;
  repeat (apply elem_of_cons in Hn as [->|Hn]; [quiet_tac|]);
  by apply elem_of_nil in Hn.

Lemma dispatch_leaves_non_once_witness :
  ∃ st' evs,
    dispatch env_idle 3 0 [VNum 1] (mkState heap_mixed []) =
      Some (Normal, st') ∧
    trace st' = [] ++ evs ∧
    calls evs = map (call_with heap_mixed [VNum 1]) [0; 1; 2] ∧
    handlers 0 (heap st') =
      Some (filter (λ n, once_of heap_mixed n = false) [0; 1; 2]) ∧
    (∀ n, n ∈ [0; 1; 2] →
          has 0 n (heap st') = negb (once_of heap_mixed n)) ∧
    (∀ s', s' ≠ 0 → handlers s' (heap st') = handlers s' heap_mixed).
Proof.
  apply (dispatch_leaves_non_once env_idle 3 0 [VNum 1] heap_mixed []
           [0; 1; 2] wf_heap_mixed).
  - reflexivity.
  - reflexivity.
  - apply all_quiet_idle.
  - simpl; lia.
Defined.

Lemma second_dispatch_skips_once_witness :
  ∃ st1 e1,
    dispatch env_idle 3 0 [] (mkState heap_mixed []) = Some (Normal, st1) ∧
    trace st1 = [] ++ e1 ∧
    calls e1 = map (call_with heap_mixed []) [0; 1; 2] ∧
    (enabled_of (heap st1) 0 = true →
     ∃ st2 e2,
       dispatch env_idle 3 0 [VNum 2] st1 = Some (Normal, st2) ∧
       trace st2 = [] ++ e1 ++ e2 ∧
       calls e2 = map (call_with heap_mixed [VNum 2])
                      (filter (λ n, once_of heap_mixed n = false) [0; 1; 2]) ∧
       handlers 0 (heap st2) =
         Some (filter (λ n, once_of heap_mixed n = false) [0; 1; 2])).
Proof.
  apply (second_dispatch_skips_once env_idle 3 0 [] [VNum 2] heap_mixed []
           [0; 1; 2] wf_heap_mixed).
  - reflexivity.
  - reflexivity.
  - apply all_quiet_idle.
  - apply all_quiet_idle.
  - simpl; lia.
Defined.

Lemma async_dispatch_rejects_witness :
  ∃ st' evs,
    async_dispatch env_boom 2 0 [VNum 1] (mkState heap_fan []) =
      Some (Awaits 0, st') ∧
    trace st' = evs ∧
    calls evs = [(0, VNull, [VResolver 0; VNum 1]);
                 (1, VNull, [VResolver 0; VNum 1])] ∧
    awaited (heap st') (Awaits 0) =
      (if decide (resolves 0 evs = []) then Rejected (VStr "boom")
       else Fulfilled).
Proof.
  apply (async_dispatch_rejects env_boom 2 0 [VNum 1] heap_fan []
           [0] 1 [2] (VStr "boom") wf_heap_fan).
  - reflexivity.
  - reflexivity.
  - all_tame_tac.
  - vm_compute. constructor.
  - simpl; lia.
Defined.

Lemma throwing_once_handler_is_consumed_witness :
  ∃ st' l',
    dispatch env_boom 2 0 [] (mkState heap_mixed []) =
      Some (Thrown (VStr "boom"), st') ∧
    has 0 1 (heap st') = false ∧
    handlers 0 (heap st') = Some l' ∧ (1 ∉ l') ∧
    signal_inv (heap st') 0.
Proof.
  apply (throwing_once_handler_is_consumed env_boom 2 0 [] heap_mixed []
           [0] 1 [2] (VStr "boom") wf_heap_mixed).
  - reflexivity.
  - reflexivity.
  - all_tame_tac.
  - vm_compute. constructor.
  - reflexivity.
  - simpl; lia.
Defined.

Lemma redispatch_never_returns_witness :
  dispatch env_redispatch 1000 0 [VNum 1] (mkState heap_fan []) = None.
Proof.
  apply (redispatch_never_returns env_redispatch 1000 0 [VNum 1] []
           heap_fan [] 0 (λ _, Ret)).
  - reflexivity.
  - reflexivity.
  - reflexivity.
  - intros a. reflexivity.
Defined.

(** C10, the claim as first worded: [f1] calls [s.detachAll()] and then
    [s.add(f0)]; the handler of the third binding is still called, its
    binding is detached, and [hasAny] is true when it is called. *)
Lemma detachAll_then_add_counterexample :
  ∃ st' hs,
    dispatch env_detach_all_add 3 0 [] (mkState heap_fan []) =
      Some (Normal, st') ∧
    last (trace st') = Some (EvCall 2 VNull [] hs) ∧
    has 0 2 hs = false ∧
    hasAny 0 hs = true.
Proof.
  eexists _, _. split; [vm_compute; reflexivity|].
  split; [reflexivity|]. split; reflexivity.
Qed.

Lemma detachAll_mid_dispatch_witness :
  ∃ st' e1 e2,
    dispatch env_detach_all_add 3 0 [] (mkState heap_fan []) =
      Some (Normal, st') ∧
    trace st' = e1 ++ e2 ∧
    calls e1 = [(0, VNull, []); (1, VNull, [])] ∧
    calls e2 = [(2, VNull, [])] ∧
    Forall (called_after_detachAll 0 3) e2.
Proof.
  apply (detachAll_mid_dispatch env_detach_all_add 3 0 [] heap_fan []
           [0] 1 [2] wf_heap_fan).
  - reflexivity.
  - reflexivity.
  - all_tame_tac.
  - vm_compute. apply detaches_all_now; [lia|].
    intros _. apply calm_Do; [reflexivity|]. intros _. apply calm_Ret.
  - intros n Hn. apply list_elem_of_singleton in Hn as ->.
    vm_compute. apply calm_Ret.
  - simpl; lia.
Defined.

Lemma added_by_last_handler_witness :
  ∃ st' evs,
    dispatch env_detach_self_add 4 0 [] (mkState heap_fan []) =
      Some (Normal, st') ∧
    trace st' = evs ∧
    calls evs = [(0, VNull, []); (1, VNull, []); (2, VNull, [])] ∧
    has 0 3 (heap st') = true.
Proof.
  apply (added_by_last_handler env_detach_self_add 4 0 [] heap_fan [] [0; 1] 2
           true false 0 VUndef (λ _, Ret) wf_heap_fan).
  - reflexivity.
  - reflexivity.
  - all_quiet_tac.
  - reflexivity.
  - intros ans. constructor.
  - quiet_tac.
  - simpl; lia.
Defined.

(** The handler of the last binding adds a binding and does not detach
    its own: the new binding is called, with [this] null. *)
Example added_by_last_handler_called :
  ∃ st',
    dispatch env_add_last 4 0 [] (mkState heap_fan []) = Some (Normal, st') ∧
    calls (trace st') = [(0, VNull, []); (1, VNull, []); (2, VNull, []);
                         (3, VNull, [])] ∧
    has 0 3 (heap st') = true.
Proof.
  eexists. split; [vm_compute; reflexivity|]. split; reflexivity.
Qed.

Lemma detached_ahead_is_skipped_witness :
  ∃ st' evs,
    dispatch env_detach_self_ahead 3 0 [] (mkState heap_fan []) =
      Some (Normal, st') ∧
    trace st' = evs ∧
    calls evs = [(0, VNull, []); (1, VNull, []); (2, VNull, [])] ∧
    has 0 1 (heap st') = false.
Proof.
  apply (detached_ahead_is_skipped env_detach_self_ahead 3 0 [] heap_fan []
           [] 0 [] 1 [2] true false (λ _, Ret) wf_heap_fan).
  - reflexivity.
  - reflexivity.
  - all_quiet_tac.
  - intros _ _. quiet_tac.
  - reflexivity.
  - intros ans. constructor.
  - simpl; lia.
Defined.

(** The handler of the first binding detaches the third and does not
    detach its own: the third is skipped. *)
Example detached_ahead_skipped :
  ∃ st',
    dispatch env_detach_ahead 3 0 [] (mkState heap_fan []) =
      Some (Normal, st') ∧
    calls (trace st') = [(0, VNull, []); (1, VNull, [])] ∧
    has 0 2 (heap st') = false.
Proof.
  eexists. split; [vm_compute; reflexivity|]. split; reflexivity.
Qed.
